(** * enoki-jit: parallel primitives, schedule builder, assembler driver,
      kernel launcher and recorded loop builder

    A shallow embedding of the host side of [src/util.cpp], [src/eval.cpp],
    [src/cuda_internal.cpp] and of the [Loop] helper of the loop tests,
    followed by the properties of these functions.

    Conventions.
    - A [uint32_t] is a [Z] in [0, 2^32); every arithmetic step of the source
      on such a value is followed by [u32], the wrap-around.
    - [jitc_raise] (a C++ exception) and [jitc_fail] (process abort) are the
      two failing outcomes [Raise] and [Fail]; both carry the format string
      of the source.
    - [jitc_submit_cpu (type, func, width, size)] runs [func index] for
      [index = 0 .. size-1]. The work units of every call modelled here touch
      pairwise disjoint cells, so the model runs them in increasing order.
    - A buffer obtained from [jitc_malloc] and released before the function
      returns is a fresh address space of its own.                         *)

From Stdlib Require Import ZArith List Lia Bool String Sorting.Permutation Sorting.Sorted.
From Stdlib Require Import Floats.SpecFloat.
From stdpp Require Import base option list gmap.

Open Scope Z_scope.

(** ** Machine integers *)

Definition u32 (z : Z) : Z := z mod 2 ^ 32.
Definition u64 (z : Z) : Z := z mod 2 ^ 64.
Definition u8 (z : Z) : Z := z mod 2 ^ 8.

(** ** Outcomes of a call *)

Inductive outcome (A : Type) : Type :=
| Ok (a : A)                (* normal return *)
| Raise (msg : string)      (* jitc_raise: an exception reaches the caller *)
| Fail (msg : string)       (* jitc_fail / cuda_check: fatal *)
| OutOfFuel.                (* the model's recursion bound was too small *)

Arguments Ok {A} a.
Arguments Raise {A} msg.
Arguments Fail {A} msg.
Arguments OutOfFuel {A}.

Definition obind {A B} (x : outcome A) (f : A -> outcome B) : outcome B :=
  match x with
  | Ok a => f a
  | Raise s => Raise s
  | Fail s => Fail s
  | OutOfFuel => OutOfFuel
  end.

#[global] Instance outcome_bind : MBind outcome := fun A B f x => obind x f.
#[global] Instance outcome_ret : MRet outcome := fun A a => Ok a.

Definition is_raise {A} (x : outcome A) : bool :=
  match x with Raise _ => true | _ => false end.

Definition is_ok {A} (x : outcome A) : bool :=
  match x with Ok _ => true | _ => false end.

(** ** Enumerations of [enoki/jit.h]

    Modelled from the spec: the header [enoki/jit.h] is not part of the
    sources; the constructors are the type tags the data model lists (signed
    and unsigned integers of width 8/16/32/64, half/float/double, boolean,
    pointer, void) and the reduction names of [reduction_name]. *)

Inductive VarType : Set :=
| Void | Bool | Int8 | UInt8 | Int16 | UInt16 | Int32 | UInt32
| Int64 | UInt64 | Pointer | Float16 | Float32 | Float64.

Inductive ReduceOp : Set :=
| RNone | Add | Mul | Min | Max | And | Or.

Inductive JitBackend : Set := CUDA | LLVM.

Definition VarType_eqb (a b : VarType) : bool :=
  match a, b with
  | Void, Void | Bool, Bool | Int8, Int8 | UInt8, UInt8 | Int16, Int16
  | UInt16, UInt16 | Int32, Int32 | UInt32, UInt32 | Int64, Int64
  | UInt64, UInt64 | Pointer, Pointer | Float16, Float16
  | Float32, Float32 | Float64, Float64 => true
  | _, _ => false
  end.

(** [for (uint32_t i = start; i != end; ++i) body]: the body runs
    [(end - start) mod 2^32] times and [i] wraps around. *)

Fixpoint for_u32_aux {St : Type} (n : nat) (i : Z) (body : Z -> St -> St) (s : St) : St :=
  match n with
  | O => s
  | S n' => for_u32_aux n' (u32 (i + 1)) body (body i s)
  end.

Definition for_u32 {St : Type} (start end_ : Z) (body : Z -> St -> St) (s : St) : St :=
  for_u32_aux (Z.to_nat (u32 (end_ - start))) start body s.

(** The loop without wrap-around, [i] counts up in [Z]. *)
Fixpoint iter_up {St : Type} (n : nat) (i : Z) (body : Z -> St -> St) (s : St) : St :=
  match n with
  | O => s
  | S n' => iter_up n' (i + 1) body (body i s)
  end.

(** [jitc_submit_cpu]: work units [0 .. size-1], each may fail. *)

Fixpoint submit_aux {St : Type} (n : nat) (index : Z)
         (func : Z -> St -> outcome St) (s : St) : outcome St :=
  match n with
  | O => Ok s
  | S n' => s' ← func index s; submit_aux n' (index + 1) func s'
  end.

Definition jitc_submit_cpu {St : Type} (func : Z -> St -> outcome St) (size : Z) (s : St)
  : outcome St :=
  submit_aux (Z.to_nat size) 0 func s.

(** ** Memory: cells of one element type, addressed in elements *)

Definition mem (T : Type) : Type := Z -> T.

Definition upd {T} (m : mem T) (a : Z) (v : T) : mem T :=
  fun x => if Z.eqb x a then v else m x.

(** * Prefix sum ([src/util.cpp]) *)

Module PrefixSum.

(** The arithmetic of a template instance [T]: [T(0)] and [+=]. *)
Record arith (T : Type) : Type := { zero : T; add : T -> T -> T; sub : T -> T -> T }.
Arguments zero {T}.
Arguments add {T}.
Arguments sub {T}.

(** Unsigned integers of [w] bits. *)
Definition modular_arith (w : Z) : arith Z :=
  {| zero := 0; add a b := (a + b) mod 2 ^ w; sub a b := (a - b) mod 2 ^ w |}.
Definition uint32_arith : arith Z := modular_arith 32.
Definition uint64_arith : arith Z := modular_arith 64.
(** IEEE-754 binary32 and binary64, round to nearest even. *)
Definition float_arith : arith spec_float :=
  {| zero := S754_zero false; add := SFadd 24 128; sub := SFsub 24 128 |}.
Definition double_arith : arith spec_float :=
  {| zero := S754_zero false; add := SFadd 53 1024; sub := SFsub 53 1024 |}.

(** The contents of a cell of type [vt]: the bit pattern of an integer, or a
    floating point number. *)
Definition elt (vt : VarType) : Type :=
  match vt with
  | Float32 | Float64 => spec_float
  | _ => Z
  end.

Section Templates.
Context {T : Type} (A : arith T).

(** [template <typename T> void sum_reduce_1] *)
Definition sum_reduce_1_T (start end_ : Z) (in_ : Z) (index : Z)
           (m : mem T) (scratch : mem T) : mem T :=
  let accum := for_u32 start end_ (fun i accum => add A accum (m (in_ + i))) (zero A) in
  upd scratch index accum.

(** The loop body of [sum_reduce_2] on the pair [(accum, memory)]. *)
Definition sr2_step (in_ out : Z) (exclusive : bool) (i : Z) (s : T * mem T)
  : T * mem T :=
  let '(accum, m) := s in
  let value := m (in_ + i) in
  if exclusive
  then (add A accum value, upd m (out + i) accum)
  else let accum' := add A accum value in (accum', upd m (out + i) accum').

(** [template <typename T> void sum_reduce_2]; [scratch = None] is the
    null pointer. *)
Definition sum_reduce_2_T (start end_ : Z) (in_ out : Z) (index : Z)
           (scratch : option (mem T)) (exclusive : bool) (m : mem T) : mem T :=
  let accum0 := match scratch with
                | Some sc => sc index
                | None => zero A
                end in
  snd (for_u32 start end_ (sr2_step in_ out exclusive) (accum0, m)).
End Templates.

Definition not_supported : string := "jit_prefix_sum(): type %s is not supported!".

(** [void sum_reduce_1(VarType vt, ...)] *)
Definition sum_reduce_1 (vt : VarType)
  : Z -> Z -> Z -> Z -> mem (elt vt) -> mem (elt vt) -> outcome (mem (elt vt)) :=
  match vt with
  | UInt32 => fun s e i idx m sc => Ok (sum_reduce_1_T uint32_arith s e i idx m sc)
  | UInt64 => fun s e i idx m sc => Ok (sum_reduce_1_T uint64_arith s e i idx m sc)
  | Float32 => fun s e i idx m sc => Ok (sum_reduce_1_T float_arith s e i idx m sc)
  | Float64 => fun s e i idx m sc => Ok (sum_reduce_1_T double_arith s e i idx m sc)
  | _ => fun _ _ _ _ _ _ => Raise not_supported
  end.

(** [void sum_reduce_2(VarType vt, ...)] *)
Definition sum_reduce_2 (vt : VarType)
  : Z -> Z -> Z -> Z -> Z -> option (mem (elt vt)) -> bool -> mem (elt vt)
    -> outcome (mem (elt vt)) :=
  match vt with
  | UInt32 => fun s e i o idx sc ex m => Ok (sum_reduce_2_T uint32_arith s e i o idx sc ex m)
  | UInt64 => fun s e i o idx sc ex m => Ok (sum_reduce_2_T uint64_arith s e i o idx sc ex m)
  | Float32 => fun s e i o idx sc ex m => Ok (sum_reduce_2_T float_arith s e i o idx sc ex m)
  | Float64 => fun s e i o idx sc ex m => Ok (sum_reduce_2_T double_arith s e i o idx sc ex m)
  | _ => fun _ _ _ _ _ _ _ _ => Raise not_supported
  end.

Section Host.
(** [pool_size()] and [jitc_llvm_block_size] are globals of the thread pool
    and of the LLVM backend. *)
Variable pool_size : Z.
Variable jitc_llvm_block_size : Z.

(** The block decomposition shared by the host paths. *)
Definition block_config (size : Z) : Z * Z :=
  if 1 <? pool_size
  then (jitc_llvm_block_size,
        u32 (size + jitc_llvm_block_size - 1) / jitc_llvm_block_size)
  else (size, 1).

(** [start = index * block_size, end = std::min(start + block_size, size)] *)
Definition block_range (block_size size index : Z) : Z * Z :=
  let start := u32 (index * block_size) in
  (start, Z.min (u32 (start + block_size)) size).

Section Body.
Context {T : Type}.
(** [sum_reduce_1 (vt, ...)] and [sum_reduce_2 (vt, ...)] at the [vt] the
    work units capture. *)
Variable sum_reduce_1_vt : Z -> Z -> Z -> Z -> mem T -> mem T -> outcome (mem T).
Variable sum_reduce_2_vt :
  Z -> Z -> Z -> Z -> Z -> option (mem T) -> bool -> mem T -> outcome (mem T).
(** The device side (driver calls and precompiled kernels) of the CUDA
    branch is not part of the sources. *)
Variable cuda_prefix_sum : bool -> Z -> Z -> Z -> mem T -> outcome (mem T).
(** The contents of a buffer that [jitc_malloc] just returned. *)
Variable uninit : mem T.

(** The body of [jitc_prefix_sum] from [if (size == 0)] on. The scratch
    buffer of the block sums is a fresh address space indexed from 0, on
    which the function calls itself in place ([in = out = scratch]). *)
Fixpoint prefix_sum_body (fuel : nat) (backend : JitBackend)
         (exclusive : bool) (in_ size out : Z) (m : mem T) {struct fuel}
  : outcome (mem T) :=
  match fuel with
  | O => OutOfFuel
  | S fuel' =>
    if size =? 0 then Ok m else
    match backend with
    | CUDA => cuda_prefix_sum exclusive in_ size out m
    | LLVM =>
      let '(block_size, blocks) := block_config size in
      scratch ←
         (if 1 <? blocks then
            sc ← jitc_submit_cpu
                       (fun index sc =>
                          let '(start, end_) := block_range block_size size index in
                          sum_reduce_1_vt start end_ in_ index m sc)
                       blocks uninit;
            sc' ← prefix_sum_body fuel' backend true 0 blocks 0 sc;
            Ok (Some sc')
          else Ok None);
      jitc_submit_cpu
        (fun index m =>
           let '(start, end_) := block_range block_size size index in
           sum_reduce_2_vt start end_ in_ out index scratch exclusive m)
        blocks m
    end
  end.
End Body.

(** [void jitc_prefix_sum(JitBackend, VarType, bool exclusive, const void
    *in, uint32_t size, void *out)]: [if (vt == VarType::Int32) vt =
    VarType::UInt32;] then the body at that [vt]. *)
Definition jitc_prefix_sum
           (cuda_prefix_sum : forall vt, bool -> Z -> Z -> Z -> mem (elt vt)
                                         -> outcome (mem (elt vt)))
           (uninit : forall vt, mem (elt vt))
           (fuel : nat) (backend : JitBackend) (vt : VarType)
  : bool -> Z -> Z -> Z -> mem (elt vt) -> outcome (mem (elt vt)) :=
  match vt with
  | Int32 =>
      prefix_sum_body (sum_reduce_1 UInt32) (sum_reduce_2 UInt32)
                      (cuda_prefix_sum UInt32) (uninit UInt32) fuel backend
  | v =>
      prefix_sum_body (sum_reduce_1 v) (sum_reduce_2 v)
                      (cuda_prefix_sum v) (uninit v) fuel backend
  end.
End Host.

(** Reference: [a i + a (i+1) + ... + a (i+n-1)], and the scan it defines
    for unsigned integers of [w] bits. *)
Fixpoint rsum (a : Z -> Z) (i : Z) (n : nat) : Z :=
  match n with
  | O => 0
  | S n' => a i + rsum a (i + 1) n'
  end.

Definition scan (w : Z) (exclusive : bool) (a : Z -> Z) (i : Z) : Z :=
  rsum a 0 (Z.to_nat (if exclusive then i else i + 1)) mod 2 ^ w.




(** The element types [sum_reduce_1] and [sum_reduce_2] have a case for. *)
Definition supported (vt : VarType) : bool :=
  match vt with
  | UInt32 | UInt64 | Float32 | Float64 => true
  | _ => false
  end.

(** [if (vt == VarType::Int32) vt = VarType::UInt32;] *)
Definition normalised (vt : VarType) : VarType :=
  match vt with
  | Int32 => UInt32
  | v => v
  end.


(** A value of every cell type, and a driver stub, for running the model. *)
Definition elt_zero (vt : VarType) : elt vt :=
  match vt with
  | Float32 | Float64 => S754_zero false
  | _ => 0
  end.

Definition no_cuda (vt : VarType) (exclusive : bool) (in_ size out : Z) (m : mem (elt vt))
  : outcome (mem (elt vt)) := Fail "no CUDA device".

Definition zeroed (vt : VarType) : mem (elt vt) := fun _ => elt_zero vt.

(** An array as a memory: cell [i] holds the [i]-th element of [l]. *)
Definition of_list {T} (d : T) (l : list T) : mem T :=
  fun i => if i <? 0 then d else nth (Z.to_nat i) l d.

End PrefixSum.

(** * Mask compression ([src/util.cpp]) *)

Module Compress.

Section Host.
Variable pool_size : Z.
Variable jitc_llvm_block_size : Z.
(** The device side of [jitc_prefix_sum] and of [jitc_compress]. *)
Variable cuda_prefix_sum :
  forall vt, bool -> Z -> Z -> Z -> mem (PrefixSum.elt vt) -> outcome (mem (PrefixSum.elt vt)).
Variable cuda_compress : (Z -> Z) -> Z -> mem Z -> outcome (Z * mem Z).
Variable uninit : forall vt, mem (PrefixSum.elt vt).

(** First work unit: [accum += (uint32_t) in[i]] over a block, then
    [scratch[index] = accum]. The input [in_] maps an index to its byte. *)
Definition count_block (in_ : Z -> Z) (start end_ index : Z) (scratch : mem Z) : mem Z :=
  let accum := for_u32 start end_ (fun i accum => u32 (accum + in_ i)) 0 in
  upd scratch index accum.

(** The loop body of the second work unit on [(accum, out)]:
    [if (value) out[accum] = i; accum += value;] *)
Definition write_step (in_ : Z -> Z) (i : Z) (s : Z * mem Z) : Z * mem Z :=
  let '(accum, out) := s in
  let value := in_ i in
  (u32 (accum + value), if value =? 0 then out else upd out accum i).

(** Second work unit, on [(out, count_out)]. *)
Definition write_block (in_ : Z -> Z) (size start end_ index : Z)
           (scratch : option (mem Z)) (s : mem Z * Z) : mem Z * Z :=
  let accum0 := match scratch with
                | Some sc => sc index
                | None => 0
                end in
  let '(accum, out) := for_u32 start end_ (write_step in_) (accum0, fst s) in
  (out, if end_ =? size then accum else snd s).

(** [uint32_t jitc_compress(JitBackend, const uint8_t *in, uint32_t size,
    uint32_t *out)]: the returned count and the memory of [out]. *)
Definition jitc_compress (fuel : nat) (backend : JitBackend) (in_ : Z -> Z) (size : Z)
           (out : mem Z) : outcome (Z * mem Z) :=
  if size =? 0 then Ok (0, out) else
  match backend with
  | CUDA => cuda_compress in_ size out
  | LLVM =>
    let '(block_size, blocks) := PrefixSum.block_config pool_size jitc_llvm_block_size size in
    scratch ←
      (if 1 <? blocks then
         sc ← jitc_submit_cpu
                (fun index sc =>
                   let '(start, end_) := PrefixSum.block_range block_size size index in
                   Ok (count_block in_ start end_ index sc))
                blocks (uninit UInt32);
         sc' ← PrefixSum.jitc_prefix_sum pool_size jitc_llvm_block_size cuda_prefix_sum
                 uninit fuel backend UInt32 true 0 blocks 0 sc;
         Ok (Some sc')
       else Ok None);
    r ← jitc_submit_cpu
          (fun index s =>
             let '(start, end_) := PrefixSum.block_range block_size size index in
             Ok (write_block in_ size start end_ index scratch s))
          blocks (out, 0);
    Ok (snd r, fst r)
  end.
End Host.

(** The byte array [l] as a [const uint8_t *]; reads beyond it see [0]. *)
Definition bytes (l : list Z) : Z -> Z := PrefixSum.of_list 0 l.

Definition no_cuda (in_ : Z -> Z) (size : Z) (out : mem Z) : outcome (Z * mem Z) :=
  Fail "no CUDA device".

End Compress.

(** * Reductions and the boolean reductions ([src/util.cpp],
      [src/cuda_internal.cpp]) *)

Module Reduce.

(** [Reduction], the function pointer type of a reduction over
    [ptr[start .. end)] that stores its result to [out]: the array [ptr] is
    indexed in elements whose contents are bit patterns, and the result is
    the value stored. *)
Definition Reduction : Type := (Z -> Z) -> Z -> Z -> Z.

(** The loop every reduction lambda has: [result = id; for (i = start; i !=
    end; ++i) result = op (result, ptr[i])]. *)
Definition reduce_loop (id : Z) (op : Z -> Z -> Z) : Reduction :=
  fun ptr start end_ => for_u32 start end_ (fun i result => op result (ptr i)) id.

(** The value of the bit pattern [v] of a [w]-bit signed integer. *)
Definition sval (w v : Z) : Z := if v <? 2 ^ (w - 1) then v else v - 2 ^ w.

(** [a < b] on the bit patterns of [w]-bit integers. *)
Definition int_lt (w : Z) (signed : bool) (a b : Z) : bool :=
  if signed then sval w a <? sval w b else a <? b.

(** The instances of [template <typename Value> jitc_reduce_create]. *)
Inductive value_kind : Set :=
| Integral (signed : bool)
| Floating (vt : VarType).

Definition unsupported_op : string := "jit_reduce_create(): unsupported reduction type!".
Definition unsupported_type : string := "jit_reduce_create(): unsupported data type!".

Section Create.
(** The arithmetic of half, float and double on bit patterns is kept
    abstract: the operation and the start value of the sum, product,
    minimum and maximum of a floating point type. *)
Variable float_op : VarType -> ReduceOp -> Z -> Z -> Z.
Variable float_identity : VarType -> ReduceOp -> Z.

(** [template <typename Value> static Reduction jitc_reduce_create(ReduceOp
    op)] for a [Value] of [w] bits; [std::max (a, b)] is [a < b ? b : a] and
    [std::min (a, b)] is [b < a ? b : a]. The bitwise cases work on
    [uint_with_size_t<Value>]. *)
Definition jitc_reduce_create_T (k : value_kind) (w : Z) (op : ReduceOp) : outcome Reduction :=
  match op, k with
  | Add, Integral _ => Ok (reduce_loop 0 (fun a b => (a + b) mod 2 ^ w))
  | Mul, Integral _ => Ok (reduce_loop 1 (fun a b => (a * b) mod 2 ^ w))
  | Max, Integral signed =>
      Ok (reduce_loop (if signed then 2 ^ (w - 1) else 0)
                      (fun a b => if int_lt w signed a b then b else a))
  | Min, Integral signed =>
      Ok (reduce_loop (if signed then 2 ^ (w - 1) - 1 else 2 ^ w - 1)
                      (fun a b => if int_lt w signed b a then b else a))
  | (Add | Mul | Max | Min), Floating vt =>
      Ok (reduce_loop (float_identity vt op) (float_op vt op))
  | Or, _ => Ok (reduce_loop 0 Z.lor)
  | And, _ => Ok (reduce_loop (2 ^ w - 1) Z.land)
  | RNone, _ => Raise unsupported_op
  end.

(** [static Reduction jitc_reduce_create(VarType type, ReduceOp op)] *)
Definition jitc_reduce_create (type : VarType) (op : ReduceOp) : outcome Reduction :=
  match type with
  | Int8 => jitc_reduce_create_T (Integral true) 8 op
  | UInt8 => jitc_reduce_create_T (Integral false) 8 op
  | Int16 => jitc_reduce_create_T (Integral true) 16 op
  | UInt16 => jitc_reduce_create_T (Integral false) 16 op
  | Int32 => jitc_reduce_create_T (Integral true) 32 op
  | UInt32 => jitc_reduce_create_T (Integral false) 32 op
  | Int64 => jitc_reduce_create_T (Integral true) 64 op
  | UInt64 => jitc_reduce_create_T (Integral false) 64 op
  | Float16 => jitc_reduce_create_T (Floating Float16) 16 op
  | Float32 => jitc_reduce_create_T (Floating Float32) 32 op
  | Float64 => jitc_reduce_create_T (Floating Float64) 64 op
  | _ => Raise unsupported_type
  end.

Variable pool_size : Z.
Variable jitc_llvm_block_size : Z.
(** The device side of [jitc_reduce]. *)
Variable cuda_reduce : VarType -> ReduceOp -> (Z -> Z) -> Z -> outcome Z.
(** The contents of a buffer that [jitc_malloc] just returned. *)
Variable uninit : Z -> Z.

(** [void jitc_reduce(JitBackend, VarType type, ReduceOp op, const void
    ptr, uint32_t size, void* out)]: the value left at [out]. With more
    than one block the partial results go to a fresh buffer [target], which
    the function reduces again; otherwise [target] is [out]. *)
Fixpoint jitc_reduce (fuel : nat) (backend : JitBackend) (type : VarType) (op : ReduceOp)
         (ptr : Z -> Z) (size : Z) {struct fuel} : outcome Z :=
  match fuel with
  | O => OutOfFuel
  | S fuel' =>
    match backend with
    | CUDA => cuda_reduce type op ptr size
    | LLVM =>
      let '(block_size, blocks) :=
        PrefixSum.block_config pool_size jitc_llvm_block_size size in
      reduction ← jitc_reduce_create type op;
      target ← jitc_submit_cpu
                 (fun index target =>
                    Ok (upd target index
                            (reduction ptr (u32 (index * block_size))
                                       (Z.min (u32 ((index + 1) * block_size)) size))))
                 (Z.max 1 blocks) uninit;
      if 1 <? blocks
      then jitc_reduce fuel' backend type op target blocks
      else Ok (target 0)
    end
  end.
End Create.

(** ** Byte memory *)

(** [n] elements of [isize] bytes with the little-endian pattern [v],
    starting at byte address [ptr]: [cuMemsetD8/D16/D32Async] and the
    [fill_64] kernel. *)
Definition fill (m : mem Z) (ptr isize v n : Z) : mem Z :=
  fun x => if (ptr <=? x) && (x <? ptr + n * isize)
           then (v / 2 ^ (8 * ((x - ptr) mod isize))) mod 256
           else m x.

Definition invalid_element_size : string :=
  "CUDAThreadState::jit_memset_async(): invalid element size (must be 1, 2, 4, or 8)!".

(** [void CUDAThreadState::jitc_memset_async(void *ptr, uint32_t size_,
    uint32_t isize, const void *src)]; [src] is the value of the [isize]
    bytes at [src]. The result is the memory after the call and how the call
    ended. *)
Definition jitc_memset_async (m : mem Z) (ptr size_ isize src : Z) : mem Z * outcome unit :=
  if negb ((isize =? 1) || (isize =? 2) || (isize =? 4) || (isize =? 8))
  then (m, Raise invalid_element_size)
  else if size_ =? 0 then (m, Ok tt)
  else
    let '(size, isize) := if src =? 0 then (size_ * isize, 1) else (size_, isize) in
    if isize =? 1 then (fill m ptr 1 (src mod 2 ^ 8) size, Ok tt)
    else if isize =? 2 then (fill m ptr 2 (src mod 2 ^ 16) size, Ok tt)
    else if isize =? 4 then (fill m ptr 4 (src mod 2 ^ 32) size, Ok tt)
    else if isize =? 8 then (fill m ptr 8 src size_, Ok tt)
    else (m, Ok tt).

(** The [uint8_t] array at [values] read as an array of [uint32_t]. *)
Definition as_u32 (m : mem Z) (values : Z) : Z -> Z :=
  fun i => m (values + 4 * i) + 2 ^ 8 * m (values + 4 * i + 1)
           + 2 ^ 16 * m (values + 4 * i + 2) + 2 ^ 24 * m (values + 4 * i + 3).

(** [out[k]] of the [uint8_t out[4]] that holds the [uint32_t] [word]. *)
Definition out_byte (word k : Z) : Z := (word / 2 ^ (8 * k)) mod 256.

(** [(out[0] & out[1] & out[2] & out[3]) != 0] and its disjunctive twin. *)
Definition and_of_bytes (out : Z) : bool :=
  negb (Z.land (Z.land (Z.land (out_byte out 0) (out_byte out 1)) (out_byte out 2))
               (out_byte out 3) =? 0).

Definition or_of_bytes (out : Z) : bool :=
  negb (Z.lor (Z.lor (Z.lor (out_byte out 0) (out_byte out 1)) (out_byte out 2))
              (out_byte out 3) =? 0).

Section Bool.
Variable float_op : VarType -> ReduceOp -> Z -> Z -> Z.
Variable float_identity : VarType -> ReduceOp -> Z.
Variable pool_size : Z.
Variable jitc_llvm_block_size : Z.
Variable cuda_reduce : VarType -> ReduceOp -> (Z -> Z) -> Z -> outcome Z.
Variable uninit : Z -> Z.

(** [bool jitc_all(JitBackend backend, uint8_t *values, uint32_t size)]:
    the result and the memory, whose trailing bytes were set. *)
Definition jitc_all (fuel : nat) (backend : JitBackend) (m : mem Z) (values size : Z)
  : outcome (bool * mem Z) :=
  let reduced_size := u32 (size + 3) / 4 in
  let trailing := u32 (reduced_size * 4 - size) in
  let '(m', filled) := if trailing =? 0 then (m, Ok tt)
                       else jitc_memset_async m (values + size) trailing 1 1 in
  _ ← filled;
  out ← jitc_reduce float_op float_identity pool_size jitc_llvm_block_size cuda_reduce
          uninit fuel backend UInt32 And (as_u32 m' values) reduced_size;
  Ok (and_of_bytes out, m').

(** [bool jitc_any(JitBackend backend, uint8_t *values, uint32_t size)] *)
Definition jitc_any (fuel : nat) (backend : JitBackend) (m : mem Z) (values size : Z)
  : outcome (bool * mem Z) :=
  let reduced_size := u32 (size + 3) / 4 in
  let trailing := u32 (reduced_size * 4 - size) in
  let '(m', filled) := if trailing =? 0 then (m, Ok tt)
                       else jitc_memset_async m (values + size) trailing 1 0 in
  _ ← filled;
  out ← jitc_reduce float_op float_identity pool_size jitc_llvm_block_size cuda_reduce
          uninit fuel backend UInt32 Or (as_u32 m' values) reduced_size;
  Ok (or_of_bytes out, m').
End Bool.

(** The [uint32_t] whose byte [k] is [1] when [c k] holds and [0]
    otherwise: a word of four booleans. *)
Definition bw (c : Z -> bool) : Z :=
  Z.b2z (c 0) + 2 ^ 8 * Z.b2z (c 1) + 2 ^ 16 * Z.b2z (c 2) + 2 ^ 24 * Z.b2z (c 3).

(** The values the conjunction, and the disjunction, of words of four
    booleans can take. *)
Definition good_and (x : Z) : Prop := x = 2 ^ 32 - 1 \/ exists c, x = bw c.
Definition good_or (x : Z) : Prop := exists c, x = bw c.

(** Stubs for running the model. *)
Definition no_float_op (vt : VarType) (op : ReduceOp) (a b : Z) : Z := 0.
Definition no_float_identity (vt : VarType) (op : ReduceOp) : Z := 0.
Definition no_cuda (vt : VarType) (op : ReduceOp) (ptr : Z -> Z) (size : Z) : outcome Z :=
  Fail "no CUDA device".
Definition garbage : Z -> Z := fun _ => 170.

End Reduce.

(** * Block copy and block sum, and the guards of [jitc_mkperm]
      ([src/util.cpp]) *)

Module Block.
Import PrefixSum.

(** [memcpy (dst, src, size)] on a memory addressed in cells of [tsize]
    bytes. *)
Definition memcpy {T} (tsize : Z) (dst src size : Z) (m : mem T) : mem T :=
  fun x => if (dst <=? x) && (x <? dst + size / tsize) then m (src + (x - dst)) else m x.

(** [using BlockOp]: the arguments [in], [out], [start], [end] and
    [block_size], acting on the memory. *)
Definition BlockOp (T : Type) : Type := Z -> Z -> Z -> Z -> Z -> mem T -> mem T.

(** [template <typename Value> static BlockOp jitc_block_copy_create()];
    the state of the loops is the pair of running pointers and the
    memory. *)
Definition block_copy_T {T} : BlockOp T :=
  fun in_ out_ start end_ block_size m =>
    snd (for_u32 start end_
           (fun i '(inp, outp, m) =>
              let value := m inp in
              let '(outp', m') :=
                for_u32 0 block_size (fun j '(outp, m) => (outp + 1, upd m outp value))
                        (outp, m) in
              (inp + 1, outp', m'))
           (in_ + start, out_ + u32 (start * block_size), m)).

(** [template <typename Value> static BlockOp jitc_block_sum_create()] *)
Definition block_sum_T {T} (A : arith T) : BlockOp T :=
  fun in_ out_ start end_ block_size m =>
    snd (for_u32 start end_
           (fun i '(inp, outp, m) =>
              let '(inp', sum) :=
                for_u32 0 block_size (fun j '(inp, sum) => (inp + 1, add A sum (m inp)))
                        (inp, zero A) in
              (inp', outp + 1, upd m outp sum))
           (in_ + u32 (start * block_size), out_ + start, m)).

Definition copy_unsupported : string := "jit_block_copy_create(): unsupported data type!".
Definition sum_unsupported : string := "jit_block_sum_create(): unsupported data type!".
Definition copy_zero : string := "jit_block_copy(): block_size cannot be zero!".
Definition sum_zero : string := "jit_block_sum(): block_size cannot be zero!".

(** [static BlockOp jitc_block_copy_create(VarType type)] *)
Definition jitc_block_copy_create (type : VarType) : outcome (BlockOp (elt type)) :=
  match type return outcome (BlockOp (elt type)) with
  | UInt8 | UInt16 | UInt32 | UInt64 => Ok block_copy_T
  | Float32 | Float64 => Ok block_copy_T
  | _ => Raise copy_unsupported
  end.

(** [static BlockOp jitc_block_sum_create(VarType type)] *)
Definition jitc_block_sum_create (type : VarType) : outcome (BlockOp (elt type)) :=
  match type return outcome (BlockOp (elt type)) with
  | UInt8 => Ok (block_sum_T (modular_arith 8))
  | UInt16 => Ok (block_sum_T (modular_arith 16))
  | UInt32 => Ok (block_sum_T uint32_arith)
  | UInt64 => Ok (block_sum_T uint64_arith)
  | Float32 => Ok (block_sum_T float_arith)
  | Float64 => Ok (block_sum_T double_arith)
  | _ => Raise sum_unsupported
  end.

(** [static VarType make_int_type_unsigned(VarType type)] *)
Definition make_int_type_unsigned (type : VarType) : VarType :=
  match type with
  | Int8 => UInt8
  | Int16 => UInt16
  | Int32 => UInt32
  | Int64 => UInt64
  | v => v
  end.

Section Host.
Variable pool_size : Z.
Variable jitc_llvm_block_size : Z.
(** The table [type_size] and the driver side of the CUDA branches are not
    part of the sources. *)
Variable type_size : VarType -> Z.
Variable cuMemcpyAsync : forall T, Z -> Z -> Z -> mem T -> outcome (mem T).
Variable cuda_block_copy : forall vt, Z -> Z -> Z -> Z -> mem (elt vt) -> outcome (mem (elt vt)).
Variable cuda_block_sum : forall vt, Z -> Z -> Z -> Z -> mem (elt vt) -> outcome (mem (elt vt)).

(** [void jitc_memcpy_async(JitBackend, void *dst, const void *src, size_t
    size)] for cells of [tsize] bytes. *)
Definition jitc_memcpy_async {T} (tsize : Z) (backend : JitBackend) (dst src size : Z)
           (m : mem T) : outcome (mem T) :=
  match backend with
  | CUDA => cuMemcpyAsync T dst src size m
  | LLVM => jitc_submit_cpu (fun _ m => Ok (memcpy tsize dst src size m)) 1 m
  end.

(** The two functions from [ThreadState *ts = thread_state(backend)] on, at
    the type that [make_int_type_unsigned] returned. *)
Definition block_copy_run (type : VarType) (backend : JitBackend)
           (in_ out size block_size : Z) (m : mem (elt type)) : outcome (mem (elt type)) :=
  match backend with
  | CUDA => cuda_block_copy type in_ out (u32 (size * block_size)) block_size m
  | LLVM =>
    let '(work_unit_size, work_units) := block_config pool_size jitc_llvm_block_size size in
    op ← jitc_block_copy_create type;
    jitc_submit_cpu
      (fun index m =>
         let '(start, end_) := block_range work_unit_size size index in
         Ok (op in_ out start end_ block_size m))
      work_units m
  end.

Definition block_sum_run (type : VarType) (backend : JitBackend)
           (in_ out size block_size : Z) (m : mem (elt type)) : outcome (mem (elt type)) :=
  match backend with
  | CUDA => cuda_block_sum type in_ out (u32 (size * block_size)) block_size m
  | LLVM =>
    let '(work_unit_size, work_units) := block_config pool_size jitc_llvm_block_size size in
    op ← jitc_block_sum_create type;
    jitc_submit_cpu
      (fun index m =>
         let '(start, end_) := block_range work_unit_size size index in
         Ok (op in_ out start end_ block_size m))
      work_units m
  end.

(** [void jitc_block_copy(JitBackend backend, enum VarType type, const void
    *in, void *out, uint32_t size, uint32_t block_size)] *)
Definition jitc_block_copy (backend : JitBackend) (type : VarType)
           (in_ out size block_size : Z) (m : mem (elt type)) : outcome (mem (elt type)) :=
  if block_size =? 0 then Raise copy_zero
  else if block_size =? 1
       then jitc_memcpy_async (type_size type) backend out in_ (u32 (size * type_size type)) m
  else
    match type return mem (elt type) -> outcome (mem (elt type)) with
    | Int8 => block_copy_run UInt8 backend in_ out size block_size
    | Int16 => block_copy_run UInt16 backend in_ out size block_size
    | Int32 => block_copy_run UInt32 backend in_ out size block_size
    | Int64 => block_copy_run UInt64 backend in_ out size block_size
    | v => block_copy_run v backend in_ out size block_size
    end m.

(** [void jitc_block_sum(JitBackend backend, enum VarType type, const void
    *in, void *out, uint32_t size, uint32_t block_size)] *)
Definition jitc_block_sum (backend : JitBackend) (type : VarType)
           (in_ out size block_size : Z) (m : mem (elt type)) : outcome (mem (elt type)) :=
  if block_size =? 0 then Raise sum_zero
  else if block_size =? 1
       then jitc_memcpy_async (type_size type) backend out in_ (u32 (size * type_size type)) m
  else
    match type return mem (elt type) -> outcome (mem (elt type)) with
    | Int8 => block_sum_run UInt8 backend in_ out size block_size
    | Int16 => block_sum_run UInt16 backend in_ out size block_size
    | Int32 => block_sum_run UInt32 backend in_ out size block_size
    | Int64 => block_sum_run UInt64 backend in_ out size block_size
    | v => block_sum_run v backend in_ out size block_size
    end m.
End Host.

(** The element types the block operations have a case for. *)
Definition supported (type : VarType) : bool :=
  match type with
  | UInt8 | UInt16 | UInt32 | UInt64 | Float32 | Float64 => true
  | _ => false
  end.

(** Stubs for running the model. *)
Definition sizes (type : VarType) : Z :=
  match type with
  | Void => 0
  | Bool | Int8 | UInt8 => 1
  | Int16 | UInt16 | Float16 => 2
  | Int32 | UInt32 | Float32 => 4
  | Int64 | UInt64 | Pointer | Float64 => 8
  end.
Definition no_memcpy (T : Type) (dst src size : Z) (m : mem T) : outcome (mem T) :=
  Fail "no CUDA device".
Definition no_cuda (vt : VarType) (in_ out size block_size : Z) (m : mem (elt vt))
  : outcome (mem (elt vt)) := Fail "no CUDA device".

End Block.

Module Mkperm.

Definition bucket_count_zero : string := "jit_mkperm(): bucket_count cannot be zero!".

Section Guards.
(** The state the call works on: the memory of [perm] and [offsets], the
    allocator and the streams. *)
Context {St : Type}.
(** The two backend paths of [jitc_mkperm], from [ProfilerPhase profiler]
    on: the histogram and permutation kernels and their launches. *)
Variable mkperm_run : JitBackend -> Z -> Z -> Z -> Z -> Z -> St -> St * outcome Z.

(** [uint32_t jitc_mkperm(JitBackend backend, const uint32_t *ptr, uint32_t
    size, uint32_t bucket_count, uint32_t *perm, uint32_t *offsets)]: the
    state after the call and the value returned. *)
Definition jitc_mkperm (backend : JitBackend) (ptr size bucket_count perm offsets : Z)
           (s : St) : St * outcome Z :=
  if size =? 0 then (s, Ok 0)
  else if bucket_count =? 0 then (s, Fail bucket_count_zero)
  else mkperm_run backend ptr size bucket_count perm offsets s.
End Guards.

(** A stub for running the model. *)
Definition no_run (backend : JitBackend) (ptr size bucket_count perm offsets : Z) (s : mem Z)
  : mem Z * outcome Z := (s, Fail "not modelled").

End Mkperm.

(** * The schedule of [jitc_eval] ([src/eval.cpp]) *)

Module Schedule.

(** [ScheduledVariable = (size, index)] and [ScheduledGroup = (size, start,
    end)], all fields [uint32_t]. *)
Record ScheduledVariable : Set := { sv_size : Z; sv_index : Z }.
Record ScheduledGroup : Set := { g_size : Z; g_start : Z; g_end : Z }.

(** The comparison passed to [std::sort]: "does [a] go before [b]?". *)
Definition before (a b : ScheduledVariable) : bool :=
  if sv_size b <? sv_size a then true
  else if sv_size a <? sv_size b then false
  else if sv_index b <? sv_index a then false
  else if sv_index a <? sv_index b then true
  else false.

(** [std::sort]: the comparison is a strict order under which two entries
    that are not ordered are equal, so every sorting algorithm returns the
    same array; the model sorts by insertion. *)
Fixpoint insert (x : ScheduledVariable) (l : list ScheduledVariable)
  : list ScheduledVariable :=
  match l with
  | [] => [x]
  | y :: l' => if before y x then y :: insert x l' else x :: y :: l'
  end.

Fixpoint sort (l : list ScheduledVariable) : list ScheduledVariable :=
  match l with
  | [] => []
  | x :: l' => insert x (sort l')
  end.

(** [schedule[i].size] *)
Definition size_at (schedule : list ScheduledVariable) (i : Z) : Z :=
  sv_size (nth (Z.to_nat i) schedule {| sv_size := 0; sv_index := 0 |}).

(** The body of [for (uint32_t i = 1; i < (uint32_t) schedule.size(); ++i)]
    on [(cur, schedule_groups)]. *)
Definition group_step (schedule : list ScheduledVariable) (i : Z)
           (s : Z * list ScheduledGroup) : Z * list ScheduledGroup :=
  let '(cur, groups) := s in
  if size_at schedule (i - 1) =? size_at schedule i
  then (cur, groups)
  else (i, groups ++ [{| g_size := size_at schedule cur; g_start := cur; g_end := i |}]).

(** "Partition into groups of matching size", for a non-empty schedule. *)
Definition partition (schedule : list ScheduledVariable) : list ScheduledGroup :=
  let n := u32 (Z.of_nat (length schedule)) in
  if size_at schedule 0 =? size_at schedule (Z.of_nat (length schedule) - 1)
  then [{| g_size := size_at schedule 0; g_start := 0; g_end := n |}]
  else
    let '(cur, groups) := iter_up (Z.to_nat (n - 1)) 1 (group_step schedule) (0, []) in
    groups ++ [{| g_size := size_at schedule cur; g_start := cur; g_end := n |}].

(** The part of [jitc_eval] between the traversal and the launches: [None]
    is the early return on an empty schedule. *)
Definition order_and_group (schedule : list ScheduledVariable)
  : option (list ScheduledVariable * list ScheduledGroup) :=
  match schedule with
  | [] => None
  | _ => let sorted := sort schedule in Some (sorted, partition sorted)
  end.

(** Descending size, then ascending identifier. *)
Definition ordered (a b : ScheduledVariable) : Prop :=
  sv_size b < sv_size a \/ (sv_size a = sv_size b /\ sv_index a <= sv_index b).

(** The groups [gs] follow one another from position [lo] to position [hi]
    and none is empty. *)
Fixpoint chain (gs : list ScheduledGroup) (lo hi : Z) : Prop :=
  match gs with
  | [] => lo = hi
  | g :: rest => g_start g = lo /\ lo < g_end g /\ chain rest (g_end g) hi
  end.

(** [g] is a maximal run of entries of one size in a schedule of [n]
    entries. *)
Definition maximal_run (schedule : list ScheduledVariable) (n : Z) (g : ScheduledGroup)
  : Prop :=
  (forall i, g_start g <= i < g_end g -> size_at schedule i = g_size g)
  /\ (g_start g = 0 \/ size_at schedule (g_start g - 1) <> g_size g)
  /\ (g_end g = n \/ size_at schedule (g_end g) <> g_size g).

End Schedule.

(** * Register numbering in [jitc_assemble] ([src/eval.cpp]) *)

Module Assemble.
Import Schedule.

Inductive ParamType : Set := Register | Input | Output.

(** The fields of the source's [Variable] that [jitc_assemble] reads or writes. Pointers
    are integers, [0] being the null pointer; [has_stmt] is [stmt != nullptr]. *)
Record JitVariable : Set := {
  backend : JitBackend;
  ref_count_int : Z;
  ref_count_ext : Z;
  ref_count_se : Z;
  size : Z;
  data : Z;
  literal : bool;
  has_stmt : bool;
  type : VarType;
  value : Z;
  output_flag : bool;
  side_effect : bool;
  optix : bool;
  param_offset : Z;
  param_type : ParamType;
  reg_index : Z
}.

Definition set_param (v : JitVariable) (offset : Z) (pt : ParamType) : JitVariable :=
  {| backend := backend v; ref_count_int := ref_count_int v;
     ref_count_ext := ref_count_ext v; ref_count_se := ref_count_se v;
     size := size v; data := data v; literal := literal v; has_stmt := has_stmt v;
     type := type v; value := value v; output_flag := output_flag v;
     side_effect := side_effect v; optix := optix v;
     param_offset := offset; param_type := pt; reg_index := reg_index v |}.

Definition set_data (v : JitVariable) (d : Z) : JitVariable :=
  {| backend := backend v; ref_count_int := ref_count_int v;
     ref_count_ext := ref_count_ext v; ref_count_se := ref_count_se v;
     size := size v; data := d; literal := literal v; has_stmt := has_stmt v;
     type := type v; value := value v; output_flag := output_flag v;
     side_effect := side_effect v; optix := optix v;
     param_offset := param_offset v; param_type := param_type v;
     reg_index := reg_index v |}.

Definition set_reg_index (v : JitVariable) (r : Z) : JitVariable :=
  {| backend := backend v; ref_count_int := ref_count_int v;
     ref_count_ext := ref_count_ext v; ref_count_se := ref_count_se v;
     size := size v; data := data v; literal := literal v; has_stmt := has_stmt v;
     type := type v; value := value v; output_flag := output_flag v;
     side_effect := side_effect v; optix := optix v;
     param_offset := param_offset v; param_type := param_type v;
     reg_index := r |}.

(** [state.variables] and the globals of [eval.cpp] that the loop updates. *)
Record asm_state : Type := {
  variables : gmap Z JitVariable;
  kernel_params : list Z;
  n_params_in : Z;
  n_params_out : Z;
  n_side_effects : Z;
  n_regs : Z;
  uses_optix : bool
}.

Definition put_var (st : asm_state) (index : Z) (v : JitVariable) : asm_state :=
  {| variables := <[index := v]> (variables st); kernel_params := kernel_params st;
     n_params_in := n_params_in st; n_params_out := n_params_out st;
     n_side_effects := n_side_effects st; n_regs := n_regs st;
     uses_optix := uses_optix st |}.

(** [jitc_var (index)]: the definition is not part of the sources; an
    unknown identifier is fatal. *)
Definition jitc_var (st : asm_state) (index : Z) : outcome JitVariable :=
  match variables st !! index with
  | Some v => Ok v
  | None => Fail "jit_var(): unknown variable"
  end.

Section Loop.
Variable type_size : VarType -> Z.
(** [jitc_malloc (type, size)]: the pointer returned for a request. *)
Variable jitc_malloc : JitBackend -> Z -> Z.
Variable schedule : list ScheduledVariable.

(** [schedule[group_index].index] *)
Definition index_at (group_index : Z) : Z :=
  sv_index (nth (Z.to_nat group_index) schedule {| sv_size := 0; sv_index := 0 |}).

(** "Some sanity checks" *)
Definition sanity_checks (b : JitBackend) (group_size : Z) (v : JitVariable) : outcome unit :=
  if negb (match backend v, b with CUDA, CUDA | LLVM, LLVM => true | _, _ => false end)
  then Raise "jit_assemble(): variable r%u scheduled in wrong ThreadState"
  else if (ref_count_int v =? 0) && (ref_count_ext v =? 0)
  then Fail "jit_assemble(): schedule contains unreferenced variable r%u!"
  else if negb (size v =? 1) && negb (size v =? group_size)
  then Fail "jit_assemble(): schedule contains variable r%u with incompatible size (%u and %u)!"
  else if (data v =? 0) && negb (literal v) && negb (has_stmt v)
  then Fail "jit_assemble(): variable r%u has no statement!"
  else if literal v && negb (data v =? 0)
  then Fail "jit_assemble(): variable r%u is simultaneously literal and evaluated!"
  else if negb (ref_count_se v =? 0)
  then Fail "jit_assemble(): dirty variable r%u encountered!"
  else Ok tt.

(** The body of the loop over [group.start .. group.end). *)
Definition assemble_step (b : JitBackend) (group_size : Z) (group_index : Z)
           (st : asm_state) : outcome asm_state :=
  let index := index_at group_index in
  v ← jitc_var st index;
  _ ← sanity_checks b group_size v;
  let offset := u32 (Z.of_nat (length (kernel_params st))) * 8 in
  st1 ←
    (if negb (data v =? 0) then
       Ok {| variables := <[index := set_param v offset Input]> (variables st);
             kernel_params := kernel_params st ++ [data v];
             n_params_in := u32 (n_params_in st + 1); n_params_out := n_params_out st;
             n_side_effects := n_side_effects st; n_regs := n_regs st;
             uses_optix := uses_optix st |}
     else if output_flag v && (size v =? group_size) then
       let isize := type_size (type v) in
       let dsize := group_size * isize in
       let dsize := match b with
                    | LLVM => if isize <? 4 then dsize + (4 - isize) else dsize
                    | CUDA => dsize
                    end in
       let data := jitc_malloc b dsize in
       (* the address of [v] can change: look it up again *)
       v' ← jitc_var (put_var st index (set_param v offset (param_type v))) index;
       Ok {| variables := <[index := set_param (set_data v' data) offset Output]> (variables st);
             kernel_params := kernel_params st ++ [data];
             n_params_in := n_params_in st; n_params_out := u32 (n_params_out st + 1);
             n_side_effects := n_side_effects st; n_regs := n_regs st;
             uses_optix := uses_optix st |}
     else if literal v && VarType_eqb (type v) Pointer then
       Ok {| variables := <[index := set_param v offset Input]> (variables st);
             kernel_params := kernel_params st ++ [value v];
             n_params_in := u32 (n_params_in st + 1); n_params_out := n_params_out st;
             n_side_effects := n_side_effects st; n_regs := n_regs st;
             uses_optix := uses_optix st |}
     else
       Ok {| variables := <[index := set_param v 65535 Register]> (variables st);
             kernel_params := kernel_params st;
             n_params_in := n_params_in st; n_params_out := n_params_out st;
             n_side_effects := u32 (n_side_effects st + Z.b2z (side_effect v));
             n_regs := n_regs st;
             uses_optix := uses_optix st || optix v |});
  (* v->reg_index = n_regs++; *)
  v2 ← jitc_var st1 index;
  Ok {| variables := <[index := set_reg_index v2 (n_regs st1)]> (variables st1);
        kernel_params := kernel_params st1;
        n_params_in := n_params_in st1; n_params_out := n_params_out st1;
        n_side_effects := n_side_effects st1; n_regs := u32 (n_regs st1 + 1);
        uses_optix := uses_optix st1 |}.

(** The per-backend reserved register count. *)
Definition reserved (b : JitBackend) : Z :=
  match b with
  | CUDA => 4
  | LLVM => 1
  end.

(** [jitc_assemble] up to the end of the loop over the group: the counters
    are reset, the reserved parameters pushed, and every scheduled variable
    classified and numbered. What follows in the source does not touch
    [reg_index]: the hand-over of the parameter table, which
    [AssembleTail.pass_parameters] models, the backend's text emitter and
    the kernel hash. *)
Definition jitc_assemble (b : JitBackend) (vars : gmap Z JitVariable) (optix0 : bool)
           (group : ScheduledGroup) : outcome asm_state :=
  let st0 := {| variables := vars;
                kernel_params := match b with
                                 | CUDA => [g_size group]
                                 | LLVM => [0; 0; 0]
                                 end;
                n_params_in := 0; n_params_out := 0; n_side_effects := 0;
                n_regs := reserved b; uses_optix := optix0 |} in
  for_u32 (g_start group) (g_end group)
          (fun group_index st => st ≫= assemble_step b (g_size group) group_index)
          (Ok st0).
End Loop.

(** Stubs and a few variables for running the model. *)
Definition sizes (vt : VarType) : Z :=
  match vt with
  | Void => 0 | Bool | Int8 | UInt8 => 1 | Int16 | UInt16 | Float16 => 2
  | Int32 | UInt32 | Float32 => 4 | _ => 8
  end.

Definition bump (b : JitBackend) (dsize : Z) : Z := 4096 + dsize.

Definition var (b : JitBackend) (sz d : Z) (lit out : bool) (t : VarType) : JitVariable :=
  {| backend := b; ref_count_int := 0; ref_count_ext := 1; ref_count_se := 0;
     size := sz; data := d; literal := lit; has_stmt := negb lit && (d =? 0);
     type := t; value := 64; output_flag := out; side_effect := false; optix := false;
     param_offset := 0; param_type := Register; reg_index := 0 |}.

(** An evaluated input, an output, a literal pointer and a temporary. *)
Definition sample_vars (b : JitBackend) : gmap Z JitVariable :=
  <[11 := var b 10 512 false false Float32]>
    (<[12 := var b 10 0 false true Float32]>
       (<[13 := var b 1 0 true false Pointer]>
          (<[14 := var b 10 0 false false UInt32]> ∅))).

Definition sample_schedule : list ScheduledVariable :=
  [ {| sv_size := 10; sv_index := 11 |}; {| sv_size := 10; sv_index := 12 |};
    {| sv_size := 10; sv_index := 13 |}; {| sv_size := 10; sv_index := 14 |} ].

End Assemble.

(** * The recorded loop builder ([Loop] of the loop tests) *)

Module LoopBuilder.

(** The arguments of one call of [jit_var_loop]. *)
Record LoopNode : Set := {
  ln_name : string;
  ln_cond : Z;
  ln_n : Z;
  ln_body : list Z;
  ln_out : list Z;
  ln_se_offset : Z
}.

(** The members of [Loop]; [m_index_p] holds the addresses of the caller's
    identifier slots and [m_cond] the identifier of the mask. *)
Record Loop : Set := {
  m_name : string;
  m_index_in : list Z;
  m_index_body : list Z;
  m_index_out : list Z;
  m_index_p : list Z;
  m_cond : Z;
  m_state : Z;
  m_se_offset : Z;
  m_se_flag : Z;
  m_size : Z;
  m_record : bool
}.

(** What a [Loop] acts on: the caller's identifier slots (address to
    identifier), the flag [JitFlag::PostponeSideEffects], the state of the
    JIT behind its API, the loop nodes handed to [jit_var_loop] so far, and
    the warnings logged. *)
Record World (J : Type) : Type := {
  slots : gmap Z Z;
  postpone_side_effects : Z;
  jit : J;
  emitted : list LoopNode;
  warnings : list string
}.
Arguments slots {J}.
Arguments postpone_side_effects {J}.
Arguments jit {J}.
Arguments emitted {J}.
Arguments warnings {J}.

(** The call ended in [r], leaving the loop [l] and the world [w]. *)
Definition result (J A : Type) : Type := Loop * World J * outcome A.

Definition inconsistent_sizes : string := "Loop.put(): loop variables have inconsistent sizes!".
Definition already_initialized : string := "Loop(): was already initialized!".
Definition not_initialized : string := "Loop(): must be initialized first!".
Definition invalid_state : string := "Loop(): invalid state!".
Definition inconsistent_destruction : string :=
  "Loop(): de-allocated in an inconsistent state. (Loop.cond() must run exactly twice!)".

Section Methods.
Context {J : Type}.
(** The JIT's API, as far as [Loop] calls it. *)
Variable jit_var_new_placeholder : Z -> J -> Z * J.
Variable jit_var_dec_ref_ext : Z -> J -> J.
Variable jit_var_loop : LoopNode -> J -> list Z * J.
Variable jit_side_effects_scheduled : J -> Z.
Variable jit_side_effects_rollback : Z -> J -> J.
Variable jit_var_mask_pop : J -> J.
Variable cond_wavefront : Z -> Loop -> World J -> result J bool.

(** [*p] *)
Definition slot (w : World J) (p : Z) : Z := default 0 (slots w !! p).

Definition set_slot (w : World J) (p : Z) (index : Z) (j : J) : World J :=
  {| slots := <[p := index]> (slots w); postpone_side_effects := postpone_side_effects w;
     jit := j; emitted := emitted w; warnings := warnings w |}.

Definition set_flag (w : World J) (flag : Z) (j : J) : World J :=
  {| slots := slots w; postpone_side_effects := flag;
     jit := j; emitted := emitted w; warnings := warnings w |}.

(** [Loop(name)] with the [LoopRecord] flag as read by [jit_flag]. *)
Definition new_loop (name : string) (record : bool) : Loop :=
  {| m_name := name; m_index_in := []; m_index_body := []; m_index_out := [];
     m_index_p := []; m_cond := 0; m_state := 0; m_se_offset := 2 ^ 32 - 1;
     m_se_flag := 0; m_size := 0; m_record := record |}.

(** [put (value)]: [p] is [value.index_ptr ()], [size] is [value.size ()]. *)
Definition put (p size : Z) (l : Loop) (w : World J) : result J unit :=
  let l1 := {| m_name := m_name l; m_index_in := m_index_in l ++ [slot w p];
               m_index_body := m_index_body l; m_index_out := m_index_out l;
               m_index_p := m_index_p l ++ [p]; m_cond := m_cond l;
               m_state := m_state l; m_se_offset := m_se_offset l;
               m_se_flag := m_se_flag l; m_size := m_size l; m_record := m_record l |} in
  if negb (m_size l =? 0) && negb (size =? 1) && negb (size =? m_size l)
  then (l1, w, Raise inconsistent_sizes)
  else
    ({| m_name := m_name l1; m_index_in := m_index_in l1;
        m_index_body := m_index_body l1; m_index_out := m_index_out l1;
        m_index_p := m_index_p l1; m_cond := m_cond l1;
        m_state := m_state l1; m_se_offset := m_se_offset l1;
        m_se_flag := m_se_flag l1;
        m_size := if m_size l1 <? size then size else m_size l1;
        m_record := m_record l1 |}, w, Ok tt).

(** [step ()]: a placeholder is interposed on every slot. *)
Definition step_one (w : World J) (p : Z) : World J :=
  let index := slot w p in
  let '(next, j) := jit_var_new_placeholder index (jit w) in
  set_slot w p next (jit_var_dec_ref_ext index j).

Definition step (l : Loop) (w : World J) : World J := fold_left step_one (m_index_p l) w.

(** The contents of the slots, in the order of [m_index_p]: what the
    [push_back] loops of [cond_record] append. *)
Definition snapshot (l : Loop) (w : World J) : list Z := List.map (slot w) (m_index_p l).

Definition set_state (l : Loop) (state : Z) : Loop :=
  {| m_name := m_name l; m_index_in := m_index_in l; m_index_body := m_index_body l;
     m_index_out := m_index_out l; m_index_p := m_index_p l; m_cond := m_cond l;
     m_state := state; m_se_offset := m_se_offset l; m_se_flag := m_se_flag l;
     m_size := m_size l; m_record := m_record l |}.

(** [init ()] *)
Definition init (l : Loop) (w : World J) : result J unit :=
  if negb (m_state l =? 0) then (l, w, Raise already_initialized)
  else if m_record l then
    let w1 := step l w in
    ({| m_name := m_name l; m_index_in := m_index_in l; m_index_body := m_index_body l;
        m_index_out := m_index_out l; m_index_p := m_index_p l; m_cond := m_cond l;
        m_state := 1; m_se_offset := jit_side_effects_scheduled (jit w1);
        m_se_flag := postpone_side_effects w1;
        m_size := m_size l; m_record := m_record l |},
     set_flag w1 1 (jit w1), Ok tt)
  else (l, w, Ok tt).

(** The loop that replaces the placeholders: [index = *m_index_p[i];
    jit_var_dec_ref_ext (index); *m_index_p[i] = m_index_out[i]]. *)
Fixpoint write_back (ps : list Z) (out : list Z) (i : nat) (w : World J) : World J :=
  match ps with
  | [] => w
  | p :: ps' =>
      write_back ps' out (S i)
                 (set_slot w p (nth i out 0) (jit_var_dec_ref_ext (slot w p) (jit w)))
  end.

(** [cond_record (cond)]: [switch (m_state++)]. *)
Definition cond_record (cond : Z) (l : Loop) (w : World J) : result J bool :=
  let state := m_state l in
  let l := set_state l (u32 (state + 1)) in
  if state =? 0 then (l, w, Raise not_initialized)
  else if state =? 1 then
    let w1 := step l w in
    ({| m_name := m_name l; m_index_in := m_index_in l;
        m_index_body := m_index_body l ++ snapshot l w1;
        m_index_out := m_index_out l; m_index_p := m_index_p l; m_cond := cond;
        m_state := m_state l; m_se_offset := m_se_offset l; m_se_flag := m_se_flag l;
        m_size := m_size l; m_record := m_record l |}, w1, Ok true)
  else if state =? 2 then
    let node := {| ln_name := m_name l; ln_cond := m_cond l;
                   ln_n := u32 (Z.of_nat (length (m_index_p l)));
                   ln_body := m_index_body l;
                   ln_out := m_index_out l ++ snapshot l w;
                   ln_se_offset := m_se_offset l |} in
    let '(out, j) := jit_var_loop node (jit w) in
    let w1 := {| slots := slots w; postpone_side_effects := postpone_side_effects w;
                 jit := j; emitted := emitted w ++ [node]; warnings := warnings w |} in
    let w2 := write_back (m_index_p l) out 0 w1 in
    ({| m_name := m_name l; m_index_in := m_index_in l; m_index_body := m_index_body l;
        m_index_out := out; m_index_p := m_index_p l; m_cond := m_cond l;
        m_state := m_state l; m_se_offset := m_se_offset l; m_se_flag := m_se_flag l;
        m_size := m_size l; m_record := m_record l |},
     set_flag w2 (m_se_flag l) (jit w2), Ok false)
  else (l, w, Raise invalid_state).

(** [cond (cond)] *)
Definition cond (c : Z) (l : Loop) (w : World J) : result J bool :=
  if m_record l then cond_record c l w else cond_wavefront c l w.


(** [~Loop ()] *)
Definition destroy (l : Loop) (w : World J) : World J :=
  let w1 := if m_record l && negb (m_se_offset l =? 2 ^ 32 - 1)
            then set_flag w (m_se_flag l) (jit_side_effects_rollback (m_se_offset l) (jit w))
            else w in
  let w2 := if negb (m_record l) && (0 <? Z.of_nat (length (m_index_out l)))
            then set_flag w1 (postpone_side_effects w1)
                          (jit_var_mask_pop
                             (fold_left (fun j index => jit_var_dec_ref_ext index j)
                                        (m_index_out l) (jit w1)))
            else w1 in
  if negb (m_state l =? 0) && negb (m_state l =? 3)
  then {| slots := slots w2; postpone_side_effects := postpone_side_effects w2;
          jit := jit w2; emitted := emitted w2;
          warnings := warnings w2 ++ [inconsistent_destruction] |}
  else w2.
End Methods.

(** A JIT for running the model: its state is the next fresh identifier;
    the loop node returns fresh identifiers for the outputs. *)
Definition fresh_placeholder (index : Z) (j : Z) : Z * Z := (j, j + 1).
Definition keep (index : Z) (j : Z) : Z := j.
Definition fresh_loop (node : LoopNode) (j : Z) : list Z * Z :=
  (List.map (fun k => j + Z.of_nat k) (seq 0 (Z.to_nat (ln_n node))), j + ln_n node).
Definition scheduled (j : Z) : Z := 0.
Definition rollback (offset : Z) (j : Z) : Z := j.
Definition no_wavefront (c : Z) (l : Loop) (w : World Z) : result Z bool :=
  (l, w, Fail "wavefront mode is not modelled").

Definition run_put := @put Z.
Definition run_init := init fresh_placeholder keep scheduled.
Definition run_cond := cond fresh_placeholder keep fresh_loop no_wavefront.
Definition run_destroy := destroy keep rollback (fun j : Z => j).

Definition sample_world : World Z :=
  {| slots := <[100 := 1]> (<[104 := 2]> ∅); postpone_side_effects := 0;
     jit := 10; emitted := []; warnings := [] |}.

(** [Loop loop ("MyLoop", x, y)] up to, and without, [init ()]. *)
Definition sample_loop : Loop :=
  fst (fst (put 104 1 (fst (fst (put 100 10 (new_loop "MyLoop" true) sample_world)))
                sample_world)).

End LoopBuilder.

(** * Loading a compiled CUDA module in [jitc_run] ([src/eval.cpp],
      [src/cuda_api.h]) *)

Module Run.

(** [CUresult] and the values [cuda_api.h] defines. *)
Definition CUresult : Set := Z.
Definition CUDA_SUCCESS : CUresult := 0.
Definition CUDA_ERROR_OUT_OF_MEMORY : CUresult := 2.

(** Modelled from the spec: [cuda_check (err)] expands to [cuda_check_impl
    (err, __FILE__, __LINE__)], which [cuda_api.h] declares and the sources
    do not define. A driver failure "surfaces as fatal": every result other
    than [CUDA_SUCCESS] ends in [jitc_fail]. *)
Definition cuda_check (err : CUresult) : outcome unit :=
  if err =? CUDA_SUCCESS then Ok tt else Fail "cuda_check(): API error".

Definition is_fail {A} (x : outcome A) : bool :=
  match x with Fail _ => true | _ => false end.

(** The calls that leave the process while a module is loaded. *)
Inductive call : Set :=
| ModuleLoadData (ret : CUresult)
| MallocTrim.

Section Load.
(** The state of the driver and of the allocator. *)
Context {D : Type}.
Variable cuModuleLoadData : D -> CUresult * D.
Variable jitc_malloc_trim : bool -> bool -> D -> D.

(** The state together with the calls made so far. *)
Record world : Type := { driver : D; calls : list call }.

Definition load (w : world) : CUresult * world :=
  let '(ret, d) := cuModuleLoadData (driver w) in
  (ret, {| driver := d; calls := calls w ++ [ModuleLoadData ret] |}).

Definition trim (w : world) : world :=
  {| driver := jitc_malloc_trim true true (driver w); calls := calls w ++ [MallocTrim] |}.

(** [jitc_run], the branch of a CUDA kernel that was not in the kernel
    cache, from [CUresult ret;] to [cuda_check (ret);]. *)
Definition jitc_run_load (w : world) : world * outcome unit :=
  let '(ret, w) := load w in
  let '(ret, w) :=
    if ret =? CUDA_ERROR_OUT_OF_MEMORY
    then load (trim w)
    else (ret, w) in
  (w, cuda_check ret).
End Load.
Arguments world D : clear implicits.

(** A driver that returns the results of a list one after the other, and
    [CUDA_SUCCESS] from then on; trimming does not change it. *)
Definition scripted (d : list CUresult) : CUresult * list CUresult :=
  match d with
  | [] => (CUDA_SUCCESS, [])
  | r :: d' => (r, d')
  end.
Definition no_trim (warn free_local : bool) (d : list CUresult) : list CUresult := d.

End Run.

(** * The integer instances of [jitc_reduce_create] *)

Module ReduceKinds.

(** The integer element types: signedness and width in bits of the
    [Value] that [jitc_reduce_create (type, op)] instantiates. *)
Definition int_kind (type : VarType) : option (bool * Z) :=
  match type with
  | Int8 => Some (true, 8)
  | UInt8 => Some (false, 8)
  | Int16 => Some (true, 16)
  | UInt16 => Some (false, 16)
  | Int32 => Some (true, 32)
  | UInt32 => Some (false, 32)
  | Int64 => Some (true, 64)
  | UInt64 => Some (false, 64)
  | _ => None
  end.

(** The value of a bit pattern in the order of its type. *)
Definition key (signed : bool) (w v : Z) : Z := if signed then Reduce.sval w v else v.

(** The bit patterns of the smallest and of the largest value. *)
Definition lowest (signed : bool) (w : Z) : Z := if signed then 2 ^ (w - 1) else 0.
Definition highest (signed : bool) (w : Z) : Z := if signed then 2 ^ (w - 1) - 1 else 2 ^ w - 1.

(** The bit patterns of a type of [w] bits. *)
Definition in_range (w v : Z) : Prop := 0 <= v < 2 ^ w.

(** The six reductions of an integer type as an operation and its start
    value. *)
Definition int_op (signed : bool) (w : Z) (op : ReduceOp) : Z -> Z -> Z :=
  match op with
  | Add => fun a b => (a + b) mod 2 ^ w
  | Mul => fun a b => (a * b) mod 2 ^ w
  | Max => fun a b => if Reduce.int_lt w signed a b then b else a
  | Min => fun a b => if Reduce.int_lt w signed b a then b else a
  | Or => Z.lor
  | _ => Z.land
  end.

Definition int_id (signed : bool) (w : Z) (op : ReduceOp) : Z :=
  match op with
  | Add => 0
  | Mul => 1
  | Max => lowest signed w
  | Min => highest signed w
  | Or => 0
  | _ => 2 ^ w - 1
  end.

End ReduceKinds.

(** * The kernel parameters of [jitc_assemble] *)

Module Params.
Import Assemble.




End Params.

(** * The constructor of [Loop] *)

Module LoopCtor.
Import LoopBuilder.

(** What [put] leaves alone. *)
Definition same_rest (l l' : Loop) : Prop :=
  m_name l' = m_name l /\ m_index_body l' = m_index_body l /\ m_index_out l' = m_index_out l
  /\ m_cond l' = m_cond l /\ m_state l' = m_state l /\ m_se_offset l' = m_se_offset l
  /\ m_se_flag l' = m_se_flag l /\ m_record l' = m_record l.

Section Ctor.
Context {J : Type}.
Variable jit_var_new_placeholder : Z -> J -> Z * J.
Variable jit_var_dec_ref_ext : Z -> J -> J.
Variable jit_side_effects_scheduled : J -> Z.

(** [(put (args), ...)]: the variables are registered from left to right;
    an exception of [put] ends the fold. A variable is the pair of its
    slot pointer and its size. *)
Fixpoint put_all (vars : list (Z * Z)) (l : Loop) (w : World J) : result J unit :=
  match vars with
  | [] => (l, w, Ok tt)
  | (p, size) :: rest =>
      let '(l1, w1, r) := put p size l w in
      match r with
      | Ok _ => put_all rest l1 w1
      | _ => (l1, w1, r)
      end
  end.

(** [Loop (name, args...)]: with arguments, they are registered and the
    loop is initialised. *)
Definition construct (name : string) (record : bool) (vars : list (Z * Z)) (w : World J)
  : result J unit :=
  match vars with
  | [] => (new_loop name record, w, Ok tt)
  | _ =>
      let '(l1, w1, r) := put_all vars (new_loop name record) w in
      match r with
      | Ok _ => init jit_var_new_placeholder jit_var_dec_ref_ext jit_side_effects_scheduled l1 w1
      | _ => (l1, w1, r)
      end
  end.
End Ctor.

(** The sample loop after [init ()], after the first and after the second
    call of [cond]. *)
Definition initialised : result Z unit := run_init sample_loop sample_world.
Definition entered : result Z bool := run_cond 7 (fst (fst initialised)) (snd (fst initialised)).
Definition recorded : result Z bool := run_cond 8 (fst (fst entered)) (snd (fst entered)).


End LoopCtor.

(** * The sums of [jitc_block_sum] *)

Module BlockSpec.
Import PrefixSum Block.

(** [sum = 0; for (j = 0; j != n; ++j) sum += m[base + j]] in the
    arithmetic [A]. *)
Definition total {T} (A : arith T) (m : mem T) (base : Z) (n : nat) : T :=
  iter_up n base (fun j sum => add A sum (m j)) (zero A).

(** The arithmetic of the [Value] that [jitc_block_sum] instantiates for
    [type], after [make_int_type_unsigned]. *)
Definition cell_arith (type : VarType) : option (arith (elt type)) :=
  match type return option (arith (elt type)) with
  | Int8 | UInt8 => Some (modular_arith 8)
  | Int16 | UInt16 => Some (modular_arith 16)
  | Int32 | UInt32 => Some uint32_arith
  | Int64 | UInt64 => Some uint64_arith
  | Float32 => Some float_arith
  | Float64 => Some double_arith
  | _ => None
  end.

End BlockSpec.

(** * Expanded reductions ([src/util.cpp]) *)

Module ReduceExpanded.
Import Reduce ReduceKinds.

(** [for (uint32_t j = start; j < end; ++j) body]: the counter stays below
    [end] and cannot wrap. *)
Definition for_lt {St : Type} (start end_ : Z) (body : Z -> St -> St) (s : St) : St :=
  iter_up (Z.to_nat (end_ - start)) start body s.

(** [const uint32_t block = 128;] *)
Definition block : Z := 128.

Section Impl.
(** [Op op;] *)
Variable op : Z -> Z -> Z.

(** [for (; i + block <= end; i += block) for (j = 1; j < exp; ++j) for
    (k = 0; k < block; ++k) ptr[i + k] = op (ptr[i + k], ptr[i + k + j *
    size])]: the value of [i] and the array when the loop is left; [None]
    when the fuel does not suffice. *)
Fixpoint block_loop (fuel : nat) (i end_ exp size : Z) (m : mem Z) : option (Z * mem Z) :=
  match fuel with
  | O => None
  | S fuel' =>
      if u32 (i + block) <=? end_
      then block_loop fuel' (u32 (i + block)) end_ exp size
             (for_lt 1 exp
                (fun j m =>
                   for_lt 0 block
                     (fun k m =>
                        upd m (u32 (i + k))
                            (op (m (u32 (i + k))) (m (u32 (u32 (i + k) + u32 (j * size))))))
                     m)
                m)
      else Some (i, m)
  end.

(** [for (; i < end; i += 1) for (j = 1; j < exp; ++j) ptr[i] = op (ptr[i],
    ptr[i + j * size])] *)
Definition tail_loop (i end_ exp size : Z) (m : mem Z) : mem Z :=
  for_lt i end_
    (fun i m =>
       for_lt 1 exp (fun j m => upd m i (op (m i) (m (u32 (i + u32 (j * size)))))) m)
    m.

(** [template <typename Value, typename Op> jitc_reduce_expanded_impl];
    the array at [ptr] is the memory, indexed in elements. *)
Definition jitc_reduce_expanded_impl (fuel : nat) (start end_ exp size : Z) (m : mem Z)
  : outcome (mem Z) :=
  match block_loop fuel start end_ exp size m with
  | None => OutOfFuel
  | Some (i, m1) => Ok (tail_loop i end_ exp size m1)
  end.
End Impl.

Definition expanded_unsupported_op : string :=
  "jit_reduce_expanded_create(): unsupported reduction type!".

Section Create.
Variable float_op : VarType -> ReduceOp -> Z -> Z -> Z.

(** [template <typename Value> jitc_reduce_expanded_create (ReduceOp op)]:
    the operation of the [Op] it selects. The bitwise operations of a
    floating point type return 0. *)
Definition jitc_reduce_expanded_create_T (k : value_kind) (w : Z) (op : ReduceOp)
  : outcome (Z -> Z -> Z) :=
  match op, k with
  | Add, Integral _ => Ok (fun a b => (a + b) mod 2 ^ w)
  | Mul, Integral _ => Ok (fun a b => (a * b) mod 2 ^ w)
  | Min, Integral signed => Ok (fun a b => if int_lt w signed b a then b else a)
  | Max, Integral signed => Ok (fun a b => if int_lt w signed a b then b else a)
  | And, Integral _ => Ok Z.land
  | Or, Integral _ => Ok Z.lor
  | (Add | Mul | Min | Max), Floating vt => Ok (float_op vt op)
  | (And | Or), Floating _ => Ok (fun _ _ => 0)
  | RNone, _ => Raise expanded_unsupported_op
  end.

(** [static ReduceExpanded jitc_reduce_expanded_create (VarType type,
    ReduceOp op)] *)
Definition jitc_reduce_expanded_create (type : VarType) (op : ReduceOp)
  : outcome (Z -> Z -> Z) :=
  match type with
  | Int32 => jitc_reduce_expanded_create_T (Integral true) 32 op
  | UInt32 => jitc_reduce_expanded_create_T (Integral false) 32 op
  | Int64 => jitc_reduce_expanded_create_T (Integral true) 64 op
  | UInt64 => jitc_reduce_expanded_create_T (Integral false) 64 op
  | Float16 => jitc_reduce_expanded_create_T (Floating Float16) 16 op
  | Float32 => jitc_reduce_expanded_create_T (Floating Float32) 32 op
  | Float64 => jitc_reduce_expanded_create_T (Floating Float64) 64 op
  | _ => Raise unsupported_type
  end.

Variable pool_size : Z.
Variable jitc_llvm_block_size : Z.

(** [void jitc_reduce_expanded (VarType vt, ReduceOp op, void *ptr,
    uint32_t exp, uint32_t size)] *)
Definition jitc_reduce_expanded (fuel : nat) (vt : VarType) (op : ReduceOp)
           (exp size : Z) (m : mem Z) : outcome (mem Z) :=
  kernel ← jitc_reduce_expanded_create vt op;
  let '(block_size, blocks) := PrefixSum.block_config pool_size jitc_llvm_block_size size in
  jitc_submit_cpu
    (fun index m =>
       jitc_reduce_expanded_impl kernel fuel (u32 (index * block_size))
                                 (Z.min (u32 ((index + 1) * block_size)) size) exp size m)
    (Z.max 1 blocks) m.
End Create.

(** The fold of the stripes [1 .. exp) of element [c] into its value:
    [op (... op (op (m c, m (c + size)), m (c + 2 size)) ..., m (c + (exp
    - 1) size))]. *)
Definition stripes (op : Z -> Z -> Z) (m : mem Z) (size exp c : Z) : Z :=
  iter_up (Z.to_nat (exp - 1)) 1 (fun j r => op r (m (c + j * size))) (m c).

End ReduceExpanded.

(** * The launch of an LLVM kernel in [jitc_run] ([src/eval.cpp]) *)

Module LaunchLLVM.

(** [(void * ) ((((uintptr_t) block_size) << 32) + (uintptr_t)
    group.size)], a pointer of 64 bits. *)
Definition pack (block_size size : Z) : Z := u64 (u64 (Z.shiftl block_size 32) + size).

(** The ranges decoded by the callback for work unit [index]: [size =
    (uint32_t) (uintptr_t) params[1]], [block_size = (uint32_t)
    ((uintptr_t) params[1] >> 32)], [start = index * block_size], [end =
    std::min (start + block_size, size)]. *)
Definition unpack (p : Z) : Z * Z := (u32 (Z.shiftr p 32), u32 p).

Definition callback (index p : Z) : Z * Z :=
  let '(block_size, size) := unpack p in
  let start := u32 (index * block_size) in
  (start, Z.min (u32 (start + block_size)) size).

(** The LLVM branch of [jitc_run]: the number of work units submitted and
    the range [(start, end)] each one passes to the kernel.
    [ENOKI_POOL_BLOCK_SIZE] is a constant of the build. *)
Definition launch_ranges (ENOKI_POOL_BLOCK_SIZE group_size : Z) : list (Z * Z) :=
  let block_size := ENOKI_POOL_BLOCK_SIZE in
  let blocks := u32 (group_size + block_size - 1) / block_size in
  let p := pack block_size group_size in
  List.map (fun index => callback (Z.of_nat index) p) (seq 0 (Z.to_nat blocks)).

End LaunchLLVM.

(** * The table of globals ([src/eval.cpp]) *)

Module Globals.

(** [globals] and [globals_map]; a hash code of 128 bits is an integer. *)
Record globals_state : Type := { globals : list string; globals_map : gmap Z Z }.

(** The state after [globals.clear (); globals_map.clear ();], as
    [jitc_assemble] leaves it. *)
Definition cleared : globals_state := {| globals := []; globals_map := ∅ |}.

Section Register.
(** [XXH128 (str, strlen (str), 0)] *)
Variable XXH128 : string -> Z.

(** [void jitc_register_global (const char *str)]: [emplace] inserts only
    when the key is new, and then the string is appended. *)
Definition jitc_register_global (str : string) (st : globals_state) : globals_state :=
  let global_hash := XXH128 str in
  match globals_map st !! global_hash with
  | Some _ => st
  | None =>
      {| globals := globals st ++ [str];
         globals_map := <[global_hash := u32 (Z.of_nat (size (globals_map st)))]>
                          (globals_map st) |}
  end.

(** A sequence of registrations. *)
Definition register_all (strs : list string) (st : globals_state) : globals_state :=
  fold_left (fun st str => jitc_register_global str st) strs st.

(** The map holds, for the hash of every string of [globals], the position
    of that string, and nothing else. *)
Definition indexed (st : globals_state) : Prop :=
  size (globals_map st) = length (globals st)
  /\ (forall k s, nth_error (globals st) k = Some s ->
                  globals_map st !! XXH128 s = Some (Z.of_nat k))
  /\ (forall h v, globals_map st !! h = Some v ->
                  exists k s, v = Z.of_nat k /\ nth_error (globals st) k = Some s
                              /\ XXH128 s = h).
End Register.

(** A hash for running the model: the length of the string. *)
Definition length_hash (s : string) : Z := Z.of_nat (String.length s).

End Globals.

(** * The parameter table at the end of [jitc_assemble] ([src/eval.cpp]) *)

Module AssembleTail.
Import Schedule Assemble.


Section Tail.
Variable type_size : VarType -> Z.
Variable jitc_malloc : JitBackend -> Z -> Z.
Variable schedule : list ScheduledVariable.
(** [ENOKI_CUDA_ARG_LIMIT]: its definition is not part of the sources. *)
Variable ENOKI_CUDA_ARG_LIMIT : Z.


End Tail.
End AssembleTail.

(** * Properties *)

(** ** Loops *)

Lemma u32_small z : 0 <= z < 2 ^ 32 -> u32 z = z.
Proof. intros H. unfold u32. apply Z.mod_small. exact H. Qed.

Lemma u32_range z : 0 <= u32 z < 2 ^ 32.
Proof. unfold u32. apply Z.mod_pos_bound. reflexivity. Qed.

(** [lia] with the constant [2^32] evaluated. *)
Ltac lia32 := change (2 ^ 32) with 4294967296 in *; lia.

Lemma for_u32_aux_iter_up {St : Type} (body : Z -> St -> St) n :
  forall i s, 0 <= i -> i + Z.of_nat n <= 2 ^ 32 ->
              for_u32_aux n i body s = iter_up n i body s.
Proof.
  induction n as [|n IH]; intros i s Hi Hn; [reflexivity|].
  cbn [for_u32_aux iter_up]. destruct n as [|n]; [reflexivity|].
  rewrite u32_small by lia32. apply IH; lia.
Qed.

Lemma for_u32_iter_up {St : Type} (body : Z -> St -> St) start end_ s :
  0 <= start <= end_ -> end_ < 2 ^ 32 ->
  for_u32 start end_ body s = iter_up (Z.to_nat (end_ - start)) start body s.
Proof.
  intros H1 H2. unfold for_u32. rewrite u32_small by lia32.
  apply for_u32_aux_iter_up; lia.
Qed.

Lemma submit_aux_ok {St : Type} (f : Z -> St -> outcome St) (g : Z -> St -> St) n :
  forall k s, (forall j s', k <= j < k + Z.of_nat n -> f j s' = Ok (g j s')) ->
              submit_aux n k f s = Ok (iter_up n k g s).
Proof.
  induction n as [|n IH]; intros k s H; [reflexivity|].
  cbn [submit_aux iter_up]. rewrite H by lia.
  change (submit_aux n (k + 1) f (g k s) = Ok (iter_up n (k + 1) g (g k s))).
  apply IH. intros j s' Hj. apply H. lia.
Qed.

Lemma iter_up_ext {St : Type} (f g : Z -> St -> St) n :
  forall k s, (forall j s', k <= j < k + Z.of_nat n -> f j s' = g j s') ->
              iter_up n k f s = iter_up n k g s.
Proof.
  induction n as [|n IH]; intros k s H; [reflexivity|].
  cbn [iter_up]. rewrite H by lia. apply IH. intros j s' Hj. apply H. lia.
Qed.

Lemma iter_up_upd {T : Type} (val : Z -> T) n :
  forall k (sc : mem T),
    (forall j, k <= j < k + Z.of_nat n ->
               iter_up n k (fun idx sc => upd sc idx (val idx)) sc j = val j)
    /\ (forall j, ~ (k <= j < k + Z.of_nat n) ->
                  iter_up n k (fun idx sc => upd sc idx (val idx)) sc j = sc j).
Proof.
  induction n as [|n IH]; intros k sc; cbn [iter_up].
  - split; [intros j Hj; lia|reflexivity].
  - destruct (IH (k + 1) (upd sc k (val k))) as [H1 H2]. split.
    + intros j Hj. destruct (Z.eq_dec j k) as [->|Hne].
      * rewrite H2 by lia. unfold upd. rewrite Z.eqb_refl. reflexivity.
      * apply H1. lia.
    + intros j Hj. rewrite H2 by lia. unfold upd.
      destruct (Z.eqb_spec j k); [lia|reflexivity].
Qed.

Module PrefixSumFacts.
Import PrefixSum.

Lemma block_range_spec bsz size k :
  0 <= k * bsz -> k * bsz + bsz < 2 ^ 32 -> 0 <= bsz ->
  block_range bsz size k = (k * bsz, Z.min (k * bsz + bsz) size).
Proof.
  intros H1 H2 H3. unfold block_range.
  rewrite (u32_small (k * bsz)) by lia32. rewrite u32_small by lia32. reflexivity.
Qed.

Lemma rsum_app a n : forall i n', rsum a i (n + n') = rsum a i n + rsum a (i + Z.of_nat n) n'.
Proof.
  induction n as [|n IH]; intros i n'.
  - simpl. rewrite Z.add_0_r. reflexivity.
  - replace (S n + n')%nat with (S (n + n')) by lia.
    cbn [rsum]. rewrite IH. replace (i + 1 + Z.of_nat n) with (i + Z.of_nat (S n)) by lia.
    lia.
Qed.

Lemma rsum_ext a b n : forall i, (forall j, i <= j < i + Z.of_nat n -> a j = b j) ->
                                 rsum a i n = rsum b i n.
Proof.
  induction n as [|n IH]; intros i H; simpl; [reflexivity|].
  rewrite H by lia. rewrite IH; [reflexivity|]. intros j Hj. apply H. lia.
Qed.

Lemma rsum_shift a d n : forall i, rsum (fun j => a (d + j)) i n = rsum a (d + i) n.
Proof.
  induction n as [|n IH]; intros i; simpl; [reflexivity|].
  rewrite IH. do 2 f_equal. lia.
Qed.

Lemma block_geometry ps bs size :
  (1 < ps -> 2 <= bs) -> 0 < size < 2 ^ 32 -> (1 < ps -> size + bs <= 2 ^ 32) ->
  exists bsz blocks,
    block_config ps bs size = (bsz, blocks)
    /\ 0 < bsz /\ (blocks - 1) * bsz < size /\ size <= blocks * bsz /\ blocks * bsz < 2 ^ 32
    /\ 1 <= blocks /\ (1 < blocks -> blocks < size /\ bsz = bs).
Proof.
  intros Hcfg Hsize Hovf. unfold block_config.
  destruct (Z.ltb_spec 1 ps) as [Hps|Hps].
  - specialize (Hcfg Hps). specialize (Hovf Hps). rewrite u32_small by lia32.
    eexists _, _. split; [reflexivity|].
    set (blocks := (size + bs - 1) / bs).
    assert (Hlo : bs * blocks <= size + bs - 1) by (apply Z.mul_div_le; lia).
    assert (Hhi : size + bs - 1 < bs * Z.succ blocks) by (apply Z.mul_succ_div_gt; lia).
    repeat split; try nia; lia32.
  - eexists _, _. split; [reflexivity|]. repeat split; lia.
Qed.

Section Modular.
Variable w : Z.
Hypothesis Hw : 0 <= w.
Let M := 2 ^ w.
Let A := modular_arith w.

Lemma M_pos : 0 < M.
Proof. unfold M. apply Z.pow_pos_nonneg; lia. Qed.

Lemma accumulate_loop (a : Z -> Z) n :
  forall i acc, iter_up n i (fun i acc => add A acc (a i)) acc mod M
                = (acc + rsum a i n) mod M.
Proof.
  induction n as [|n IH]; intros i acc; simpl.
  - f_equal. lia.
  - rewrite IH. fold M. rewrite Zplus_mod_idemp_l. f_equal. lia.
Qed.

Lemma accumulate_range (a : Z -> Z) n i acc :
  0 <= acc < M ->
  iter_up n i (fun i acc => add A acc (a i)) acc = (acc + rsum a i n) mod M.
Proof.
  intros Hacc. rewrite <- accumulate_loop.
  symmetry. apply Z.mod_small. revert i acc Hacc.
  induction n as [|n IH]; intros i acc Hacc; simpl; [exact Hacc|].
  apply IH. apply Z.mod_pos_bound. apply M_pos.
Qed.

Lemma sr2_loop (a : Z -> Z) in_ out exclusive n :
  forall i acc m,
    0 <= acc < M ->
    (forall j, i <= j < i + Z.of_nat n -> m (in_ + j) = a j) ->
    (forall j k, i <= j -> j < k -> k < i + Z.of_nat n -> out + j <> in_ + k) ->
    let r := iter_up n i (sr2_step A in_ out exclusive) (acc, m) in
    (forall j, i <= j < i + Z.of_nat n ->
               snd r (out + j)
               = (acc + rsum a i (Z.to_nat (j - i + (if exclusive then 0 else 1)))) mod M)
    /\ (forall x, ~ (out + i <= x < out + i + Z.of_nat n) -> snd r x = m x)
    /\ fst r = (acc + rsum a i n) mod M.
Proof.
  induction n as [|n IH]; intros i acc m Hacc Hin Halias r.
  - subst r. cbn [iter_up fst snd rsum]. split; [intros j Hj; lia|].
    split; [reflexivity|]. rewrite Z.add_0_r. symmetry. apply Z.mod_small. exact Hacc.
  - set (acc1 := (acc + a i) mod M).
    set (v := if exclusive then acc else acc1).
    assert (Hstep : sr2_step A in_ out exclusive i (acc, m) = (acc1, upd m (out + i) v)).
    { unfold sr2_step. rewrite Hin by lia. subst v acc1. destruct exclusive; reflexivity. }
    assert (Hacc1 : 0 <= acc1 < M) by (apply Z.mod_pos_bound, M_pos).
    destruct (IH (i + 1) acc1 (upd m (out + i) v) Hacc1) as (Hout & Hframe & Hfst).
    { intros j Hj. unfold upd.
      destruct (Z.eqb_spec (in_ + j) (out + i)) as [E|_].
      - exfalso. apply (Halias i j); lia.
      - apply Hin. lia. }
    { intros j k H1 H2 H3. apply Halias; lia. }
    subst r. cbn [iter_up]. rewrite Hstep.
    split; [|split].
    + intros j Hj. destruct (Z.eq_dec j i) as [->|Hne].
      * rewrite Hframe by lia. unfold upd. rewrite Z.eqb_refl.
        subst v acc1. destruct exclusive.
        -- replace (i - i + 0) with 0 by lia. cbn [Z.to_nat rsum].
           rewrite Z.add_0_r. symmetry. apply Z.mod_small. exact Hacc.
        -- replace (i - i + 1) with 1 by lia.
           change (Z.to_nat 1) with 1%nat. cbn [rsum]. rewrite Z.add_0_r. reflexivity.
      * rewrite Hout by lia.
        replace (Z.to_nat (j - i + (if exclusive then 0 else 1)))
          with (S (Z.to_nat (j - (i + 1) + (if exclusive then 0 else 1))))
          by (destruct exclusive; lia).
        cbn [rsum]. subst acc1. fold M. rewrite Zplus_mod_idemp_l. f_equal. lia.
    + intros x Hx. rewrite Hframe by lia. unfold upd.
      destruct (Z.eqb_spec x (out + i)); [lia|reflexivity].
    + etransitivity; [exact Hfst|]. cbn [rsum]. subst acc1. rewrite Zplus_mod_idemp_l. f_equal. lia.
Qed.

Lemma sum_reduce_1_T_spec start end_ in_ index (m sc : mem Z) :
  0 <= start <= end_ -> end_ < 2 ^ 32 ->
  sum_reduce_1_T A start end_ in_ index m sc
  = upd sc index (rsum (fun j => m (in_ + j)) start (Z.to_nat (end_ - start)) mod M).
Proof.
  intros H1 H2. unfold sum_reduce_1_T. f_equal.
  rewrite for_u32_iter_up by assumption.
  rewrite (accumulate_range (fun j => m (in_ + j))).
  - reflexivity.
  - cbn. pose proof M_pos. lia.
Qed.


(** Phase 2 over the blocks [k .. blocks-1]. *)
Lemma phase2 (a : Z -> Z) bsz blocks size in_ out exclusive (scratch : option (mem Z)) n :
  let base := fun k => match scratch with Some sc => sc k | None => 0 end in
  0 < bsz -> (blocks - 1) * bsz < size -> size <= blocks * bsz -> blocks * bsz < 2 ^ 32 ->
  size < 2 ^ 32 ->
  (out = in_ \/ out + size <= in_ \/ in_ + size <= out) ->
  (forall k, 0 <= k < blocks -> 0 <= base k < M) ->
  forall k m,
    0 <= k -> k + Z.of_nat n = blocks ->
    (forall j, k * bsz <= j < size -> m (in_ + j) = a j) ->
    let m' := iter_up n k
                (fun index m =>
                   sum_reduce_2_T A (fst (block_range bsz size index))
                                  (snd (block_range bsz size index))
                                  in_ out index scratch exclusive m) m in
    (forall j, k * bsz <= j < size ->
               m' (out + j)
               = (base (j / bsz)
                  + rsum a (j / bsz * bsz)
                      (Z.to_nat (j mod bsz + (if exclusive then 0 else 1)))) mod M)
    /\ (forall x, ~ (out + k * bsz <= x < out + size) -> m' x = m x).
Proof.
  intros base Hbsz Hlast Hcover Hmax Hsize Halias Hbase.
  induction n as [|n IH]; intros k m Hk Hn Hin m'.
  - subst m'. cbn [iter_up]. split; [intros j Hj; nia|reflexivity].
  - subst m'. cbn [iter_up].
    assert (Hstart : k * bsz < size) by nia.
    rewrite block_range_spec by nia. cbn [fst snd].
    set (e := Z.min (k * bsz + bsz) size).
    assert (He : k * bsz < e <= size) by (subst e; lia).
    unfold sum_reduce_2_T. rewrite for_u32_iter_up by lia.
    change (match scratch with Some sc => sc k | None => zero A end) with (base k).
    destruct (sr2_loop a in_ out exclusive (Z.to_nat (e - k * bsz)) (k * bsz) (base k) m)
      as (Hout & Hframe & _).
    { apply Hbase. nia. }
    { intros j Hj. apply Hin. lia. }
    { intros j j' H1 H2 H3. lia. }
    set (m1 := snd (iter_up (Z.to_nat (e - k * bsz)) (k * bsz)
                      (sr2_step A in_ out exclusive) (base k, m))) in *.
    destruct (IH (k + 1) m1) as [H1 H2]; [lia|lia| |].
    { intros j Hj. rewrite Hframe.
      - apply Hin. nia.
      - subst e. nia. }
    split.
    + intros j Hj. destruct (Z_lt_le_dec j e) as [Hlt|Hge].
      * rewrite H2 by (subst e; nia). rewrite Hout by lia.
        assert (Hq : j / bsz = k).
        { symmetry. apply (Z.div_unique_pos j bsz k (j - k * bsz)); subst e; nia. }
        assert (Hr : j mod bsz = j - k * bsz).
        { rewrite Z.mod_eq by lia. rewrite Hq. lia. }
        rewrite Hq, Hr. reflexivity.
      * apply H1. subst e. nia.
    + intros x Hx. rewrite H2 by nia. apply Hframe. subst e. nia.
Qed.


Lemma block_sums (a sc : Z -> Z) bsz (K : nat) :
  0 <= bsz ->
  (forall k, 0 <= k < Z.of_nat K -> sc k mod M = rsum a (k * bsz) (Z.to_nat bsz) mod M) ->
  rsum sc 0 K mod M = rsum a 0 (Z.to_nat (Z.of_nat K * bsz)) mod M.
Proof.
  intros Hb. induction K as [|K IH]; intros H; [reflexivity|].
  replace (S K) with (K + 1)%nat by lia.
  replace (Z.to_nat (Z.of_nat (K + 1) * bsz))
    with (Z.to_nat (Z.of_nat K * bsz) + Z.to_nat bsz)%nat by nia.
  rewrite !rsum_app. cbn [rsum]. rewrite Z.add_0_r, Z.add_0_l.
  rewrite Z2Nat.id by nia.
  rewrite Zplus_mod, IH, H by (try lia; intros; apply H; lia).
  rewrite <- Zplus_mod. reflexivity.
Qed.

Section Body.
Variables (ps bs : Z).
Variable cuda : bool -> Z -> Z -> Z -> mem Z -> outcome (mem Z).
Variable uninit : mem Z.
Hypothesis Hcfg : 1 < ps -> 2 <= bs.

Let sr1 := fun s e i idx (m sc : mem Z) => Ok (sum_reduce_1_T A s e i idx m sc).
Let sr2 := fun s e i o idx sc ex (m : mem Z) => Ok (sum_reduce_2_T A s e i o idx sc ex m).

Lemma body_spec fuel :
  forall exclusive in_ size out m,
    0 < size < 2 ^ 32 -> (1 < ps -> size + bs <= 2 ^ 32) -> size <= Z.of_nat fuel ->
    (out = in_ \/ out + size <= in_ \/ in_ + size <= out) ->
    exists m',
      prefix_sum_body ps bs sr1 sr2 cuda uninit fuel LLVM exclusive in_ size out m = Ok m'
      /\ (forall i, 0 <= i < size ->
                    m' (out + i) = scan w exclusive (fun j => m (in_ + j)) i)
      /\ (forall x, ~ (out <= x < out + size) -> m' x = m x).
Proof.
  induction fuel as [|fuel IH]; intros exclusive in_ size out m Hsize Hovf Hfuel Halias;
    [lia|].
  cbn [prefix_sum_body].
  destruct (Z.eqb_spec size 0) as [?|_]; [lia|].
  assert (Hphase2 : forall bsz blocks scratch,
             0 < bsz -> (blocks - 1) * bsz < size -> size <= blocks * bsz ->
             blocks * bsz < 2 ^ 32 -> 0 < blocks ->
             (forall k, 0 <= k < blocks ->
                match scratch with
                | Some sc => sc k = rsum (fun j => m (in_ + j)) 0 (Z.to_nat (k * bsz)) mod M
                | None => blocks = 1
                end) ->
             exists m',
               jitc_submit_cpu
                 (fun index m0 =>
                    let '(start, end_) := block_range bsz size index in
                    sr2 start end_ in_ out index scratch exclusive m0) blocks m = Ok m'
               /\ (forall i, 0 <= i < size ->
                             m' (out + i) = scan w exclusive (fun j => m (in_ + j)) i)
               /\ (forall x, ~ (out <= x < out + size) -> m' x = m x)).
  { intros bsz blocks scratch Hb Hlast Hcover Hmax Hblocks Hsc.
    unfold jitc_submit_cpu.
    erewrite submit_aux_ok; cycle 1.
    { intros j s' _. destruct (block_range bsz size j) as [st en] eqn:E.
      unfold sr2.
      change st with (fst (st, en)). change en with (snd (st, en)) at 2.
      rewrite <- E. reflexivity. }
    eexists. split; [reflexivity|].
    destruct (phase2 (fun j => m (in_ + j)) bsz blocks size in_ out exclusive scratch
                     (Z.to_nat blocks) Hb Hlast Hcover Hmax ltac:(lia) Halias) with (k := 0) (m := m)
      as [H1 H2]; try lia.
    { intros k Hk. specialize (Hsc k Hk). destruct scratch as [sc|].
      - rewrite Hsc. apply Z.mod_pos_bound, M_pos.
      - pose proof M_pos. lia. }
    split.
    - intros i Hi. rewrite H1 by lia. unfold scan.
      assert (Hq : 0 <= i / bsz < blocks).
      { split; [apply Z.div_pos; lia|]. apply Z.div_lt_upper_bound; nia. }
      pose proof (Z.mod_pos_bound i bsz Hb) as Hr.
      pose proof (Z.div_mod i bsz ltac:(lia)) as Hdm.
      replace (Z.to_nat (if exclusive then i else i + 1))
        with (Z.to_nat (i / bsz * bsz)
              + Z.to_nat (i mod bsz + (if exclusive then 0 else 1)))%nat
        by (destruct exclusive; nia).
      rewrite rsum_app. rewrite Z2Nat.id by nia. rewrite Z.add_0_l.
      specialize (Hsc (i / bsz) Hq). destruct scratch as [sc|].
      + rewrite Hsc. fold M. rewrite Zplus_mod_idemp_l. reflexivity.
      + assert (i / bsz = 0) as -> by lia. reflexivity.
    - intros x Hx. apply H2. lia. }
  unfold block_config. destruct (Z.ltb_spec 1 ps) as [Hps|Hps].
  - (* several workers: blocks of jitc_llvm_block_size elements *)
    specialize (Hcfg Hps). specialize (Hovf Hps).
    rewrite u32_small by lia32.
    set (blocks := (size + bs - 1) / bs).
    assert (Hlo : bs * blocks <= size + bs - 1) by (apply Z.mul_div_le; lia).
    assert (Hhi : size + bs - 1 < bs * Z.succ blocks) by (apply Z.mul_succ_div_gt; lia).
    destruct (Z.ltb_spec 1 blocks) as [Hb|Hb].
    + set (val := fun idx => rsum (fun j => m (in_ + j)) (idx * bs)
                                (Z.to_nat (Z.min (idx * bs + bs) size - idx * bs)) mod M).
      set (sc := iter_up (Z.to_nat blocks) 0 (fun idx sc => upd sc idx (val idx)) uninit).
      assert (Hp1 : jitc_submit_cpu
                      (fun index sc0 =>
                         let '(start, end_) := block_range bs size index in
                         sr1 start end_ in_ index m sc0) blocks uninit = Ok sc).
      { unfold jitc_submit_cpu. apply submit_aux_ok.
        intros j s' Hj. assert (0 <= j * bs < size) by nia.
        rewrite block_range_spec by lia32. unfold sr1.
        rewrite sum_reduce_1_T_spec by lia32. reflexivity. }
      rewrite Hp1. cbn [mbind outcome_bind obind].
      destruct (IH true 0 blocks 0 sc) as (sc' & Hrec & Hsc' & _);
        [lia32|nia|nia|lia|].
      rewrite Hrec. cbn [mbind outcome_bind obind].
      apply (Hphase2 bs blocks (Some sc')); try nia; try lia32.
      intros k Hk. rewrite <- (Z.add_0_l k) at 1. rewrite Hsc' by lia.
      unfold scan. replace (Z.to_nat k) with (Z.to_nat k + 0)%nat at 1 by lia.
      rewrite <- (Z2Nat.id k) at 2 by lia.
      rewrite Nat.add_0_r.
      apply block_sums; [lia|].
      intros k' Hk'. cbv beta. rewrite Z.add_0_l.
      subst sc.
      destruct (iter_up_upd val (Z.to_nat blocks) 0 uninit) as [Hval _].
      rewrite Hval by lia. subst val. cbv beta.
      rewrite Z.mod_mod by (pose proof M_pos; lia).
      replace (Z.min (k' * bs + bs) size - k' * bs) with bs by nia. reflexivity.
    + assert (blocks = 1) as -> by nia.
      cbn [mbind outcome_bind obind].
      apply (Hphase2 bs 1 None); try lia; try lia32; intros; reflexivity.
  - (* one worker: a single block *)
    change (1 <? 1) with false. cbn [mbind outcome_bind obind].
    apply (Hphase2 size 1 None); try lia; try lia32; intros; reflexivity.
Qed.
End Body.



End Modular.


(** Scenario 6 of the specification, on two workers' blocks of two elements
    and on a single block. *)
Example scan_1234_exclusive :
  match jitc_prefix_sum 4 2 no_cuda zeroed 4 LLVM UInt32 true 0 4 0 (of_list 0 [1; 2; 3; 4]) with
  | Ok s => List.map s [0; 1; 2; 3] = [0; 1; 3; 6]
  | _ => False
  end.
Proof. vm_compute. reflexivity. Qed.

Example scan_1234_inclusive :
  match jitc_prefix_sum 1 16384 no_cuda zeroed 4 LLVM UInt32 false 0 4 0 (of_list 0 [1; 2; 3; 4]) with
  | Ok s => List.map s [0; 1; 2; 3] = [1; 3; 6; 10]
  | _ => False
  end.
Proof. vm_compute. reflexivity. Qed.

Section Outcome.
Context {T : Type}.
Variables (ps bs : Z).
Variable sr1 : Z -> Z -> Z -> Z -> mem T -> mem T -> outcome (mem T).
Variable sr2 : Z -> Z -> Z -> Z -> Z -> option (mem T) -> bool -> mem T -> outcome (mem T).
Variable cuda : bool -> Z -> Z -> Z -> mem T -> outcome (mem T).
Variable uninit : mem T.
Hypothesis Hcfg : 1 < ps -> 2 <= bs.

Lemma block_count size :
  0 < size < 2 ^ 32 -> (1 < ps -> size + bs <= 2 ^ 32) ->
  exists bsz blocks, block_config ps bs size = (bsz, blocks)
                     /\ 1 <= blocks /\ (1 < blocks -> blocks < size).
Proof.
  intros Hsize Hovf. unfold block_config.
  destruct (Z.ltb_spec 1 ps) as [Hps|Hps].
  - specialize (Hcfg Hps). specialize (Hovf Hps). rewrite u32_small by lia32.
    eexists _, _. split; [reflexivity|].
    set (blocks := (size + bs - 1) / bs).
    assert (Hlo : bs * blocks <= size + bs - 1) by (apply Z.mul_div_le; lia).
    assert (Hhi : size + bs - 1 < bs * Z.succ blocks) by (apply Z.mul_succ_div_gt; lia).
    split; nia.
  - eexists _, _. split; [reflexivity|]. lia.
Qed.

(** Work units that return make the call return. *)
Lemma body_returns (g1 : Z -> Z -> Z -> Z -> mem T -> mem T -> mem T)
      (g2 : Z -> Z -> Z -> Z -> Z -> option (mem T) -> bool -> mem T -> mem T) :
  (forall s e i idx m sc, sr1 s e i idx m sc = Ok (g1 s e i idx m sc)) ->
  (forall s e i o idx sc ex m, sr2 s e i o idx sc ex m = Ok (g2 s e i o idx sc ex m)) ->
  forall fuel exclusive in_ size out m,
    0 < size < 2 ^ 32 -> (1 < ps -> size + bs <= 2 ^ 32) -> size <= Z.of_nat fuel ->
    exists m', prefix_sum_body ps bs sr1 sr2 cuda uninit fuel LLVM exclusive in_ size out m
               = Ok m'.
Proof.
  intros H1 H2. induction fuel as [|fuel IH]; intros exclusive in_ size out m Hsize Hovf Hfuel;
    [lia|].
  cbn [prefix_sum_body]. destruct (Z.eqb_spec size 0) as [?|_]; [lia|].
  destruct (block_count size Hsize Hovf) as (bsz & blocks & -> & Hb1 & Hb2).
  assert (Hp2 : forall scratch, exists m',
               jitc_submit_cpu
                 (fun index m0 =>
                    let '(start, end_) := block_range bsz size index in
                    sr2 start end_ in_ out index scratch exclusive m0) blocks m = Ok m').
  { intros scratch. eexists. unfold jitc_submit_cpu.
    apply (submit_aux_ok _ (fun index m0 =>
                              let '(start, end_) := block_range bsz size index in
                              g2 start end_ in_ out index scratch exclusive m0)).
    intros j s' _. destruct (block_range bsz size j). apply H2. }
  destruct (Z.ltb_spec 1 blocks) as [Hb|Hb].
  - unfold jitc_submit_cpu at 2.
    rewrite (submit_aux_ok _ (fun index sc =>
                                let '(start, end_) := block_range bsz size index in
                                g1 start end_ in_ index m sc)).
    2:{ intros j s' _. destruct (block_range bsz size j). apply H1. }
    cbn [mbind outcome_bind obind].
    edestruct (IH true 0 blocks 0) as [sc' ->]; [| |lia|].
    + lia32.
    + intros Hps. specialize (Hovf Hps). lia.
    + cbn [mbind outcome_bind obind]. apply Hp2.
  - cbn [mbind outcome_bind obind]. apply Hp2.
Qed.

(** Work units that raise make the call raise. *)
Lemma body_raises msg :
  (forall s e i idx m sc, sr1 s e i idx m sc = Raise msg) ->
  (forall s e i o idx sc ex m, sr2 s e i o idx sc ex m = Raise msg) ->
  forall fuel exclusive in_ size out m,
    0 < size < 2 ^ 32 -> (1 < ps -> size + bs <= 2 ^ 32) ->
    prefix_sum_body ps bs sr1 sr2 cuda uninit (S fuel) LLVM exclusive in_ size out m
    = Raise msg.
Proof.
  intros H1 H2 fuel exclusive in_ size out m Hsize Hovf.
  cbn [prefix_sum_body]. destruct (Z.eqb_spec size 0) as [?|_]; [lia|].
  destruct (block_count size Hsize Hovf) as (bsz & blocks & -> & Hb1 & Hb2).
  unfold jitc_submit_cpu.
  destruct (Z.to_nat blocks) as [|n] eqn:E; [lia|].
  cbn [submit_aux].
  destruct (Z.ltb_spec 1 blocks) as [Hb|Hb].
  - destruct (block_range bsz size 0). rewrite H1. reflexivity.
  - cbn [mbind outcome_bind obind]. destruct (block_range bsz size 0).
    rewrite H2. reflexivity.
Qed.
End Outcome.






(** X24. [jitc_prefix_sum] treats Int32 exactly as UInt32; on the host path,
    for a non-empty array, with one worker, or with several workers and a
    worker block size [bs >= 2] such that [size + bs <= 2^32], it raises
    the "type is not supported" fault exactly when the element type after
    this conversion is none of UInt32, UInt64, Float32, Float64, and
    returns otherwise. *)
Theorem prefix_sum_type_dispatch :
  forall ps bs cuda uninit fuel exclusive in_ size out,
    (1 < ps -> 2 <= bs) ->
    0 < size < 2 ^ 32 -> (1 < ps -> size + bs <= 2 ^ 32) -> size <= Z.of_nat fuel ->
    (forall m, jitc_prefix_sum ps bs cuda uninit fuel LLVM Int32 exclusive in_ size out m
               = jitc_prefix_sum ps bs cuda uninit fuel LLVM UInt32 exclusive in_ size out m)
    /\ forall vt m,
        (jitc_prefix_sum ps bs cuda uninit fuel LLVM vt exclusive in_ size out m
         = Raise not_supported <-> supported (normalised vt) = false)
        /\ (supported (normalised vt) = true ->
            exists m', jitc_prefix_sum ps bs cuda uninit fuel LLVM vt exclusive in_ size out m
                       = Ok m').
Proof.
  intros ps bs cuda uninit fuel exclusive in_ size out Hcfg Hsize Hovf Hfuel.
  split; [reflexivity|].
  destruct fuel as [|fuel]; [lia|].
  assert (Hret : forall vt m, supported vt = true ->
            exists m', prefix_sum_body ps bs (sum_reduce_1 vt) (sum_reduce_2 vt)
                         (cuda vt) (uninit vt) (S fuel) LLVM exclusive in_ size out m = Ok m').
  { intros vt m Hvt.
    destruct vt; try discriminate Hvt;
      eapply body_returns; eauto; try lia; intros; reflexivity. }
  assert (Hraise : forall vt m, supported vt = false ->
            prefix_sum_body ps bs (sum_reduce_1 vt) (sum_reduce_2 vt)
              (cuda vt) (uninit vt) (S fuel) LLVM exclusive in_ size out m = Raise not_supported).
  { intros vt m Hvt.
    destruct vt; try discriminate Hvt;
      apply body_raises; auto; intros; reflexivity. }
  intros vt m.
  assert (Hunfold : forall v (m : mem (elt v)), v <> Int32 ->
            jitc_prefix_sum ps bs cuda uninit (S fuel) LLVM v exclusive in_ size out m
            = prefix_sum_body ps bs (sum_reduce_1 v) (sum_reduce_2 v)
                (cuda v) (uninit v) (S fuel) LLVM exclusive in_ size out m).
  { intros v m0 Hv. destruct v; try reflexivity. congruence. }
  destruct (supported (normalised vt)) eqn:Hs.
  - assert (Hok : exists m', jitc_prefix_sum ps bs cuda uninit (S fuel) LLVM vt exclusive
                               in_ size out m = Ok m').
    { destruct vt; try discriminate Hs;
        try (rewrite Hunfold by discriminate; apply Hret; reflexivity).
      apply (Hret UInt32). reflexivity. }
    split; [|intros _; exact Hok].
    split; [|discriminate]. destruct Hok as [m' ->]. discriminate.
  - split; [|discriminate]. split; [reflexivity|]. intros _.
    destruct vt; try discriminate Hs; rewrite Hunfold by discriminate;
      apply Hraise; reflexivity.
Qed.

(** A Bool array of three elements, on one worker. *)
Lemma prefix_sum_type_dispatch_witness :
  jitc_prefix_sum 1 16384 no_cuda zeroed 4 LLVM Bool true 0 3 0 (zeroed Bool)
  = Raise not_supported <-> supported (normalised Bool) = false.
Proof.
  refine (proj1 (proj2 (prefix_sum_type_dispatch 1 16384 no_cuda zeroed 4 true 0 3 0
                          _ _ _ _) Bool (zeroed Bool))).
  - intros H. lia.
  - split; [lia|reflexivity].
  - intros H. lia.
  - lia.
Defined.

(** C10. On an array of [2^32 - 1] elements of the unsupported type Bool,
    with two workers and a worker block size of 16384, the block count
    wraps to 0: no work unit runs, the type is never dispatched on, and
    [jitc_prefix_sum] returns without a fault, the memory as it was. *)
Lemma prefix_sum_block_count_wraps :
  supported (normalised Bool) = false
  /\ block_config 2 16384 4294967295 = (16384, 0)
  /\ jitc_prefix_sum 2 16384 no_cuda zeroed 1 LLVM Bool true 0 4294967295 0 (zeroed Bool)
     = Ok (zeroed Bool).
Proof. repeat split; vm_compute; reflexivity. Qed.

End PrefixSumFacts.

Module CompressFacts.
Import PrefixSum PrefixSumFacts Compress.

Example compress_10110 :
  match jitc_compress 2 2 PrefixSum.no_cuda Compress.no_cuda zeroed 5 LLVM
                      (bytes [1; 0; 1; 1; 0]) 5 (zeroed UInt32) with
  | Ok (count, out) => count = 3 /\ List.map out [0; 1; 2] = [0; 2; 3]
  | _ => False
  end.
Proof. vm_compute. split; reflexivity. Qed.


Section Counting.
Variable b : Z -> Z.
Variable size : Z.
Hypothesis Hsize : 0 < size < 2 ^ 32.
Hypothesis Hb : forall i, 0 <= i < size -> b i = 0 \/ b i = 1.

(** The number of set bytes before index [j]. *)
Let c (j : Z) : Z := rsum b 0 (Z.to_nat j).

Lemma c_succ j : 0 <= j -> c (j + 1) = c j + b j.
Proof.
  intros Hj. unfold c. replace (Z.to_nat (j + 1)) with (Z.to_nat j + 1)%nat by lia.
  rewrite rsum_app. cbn [rsum]. rewrite Z2Nat.id by lia.
  rewrite Z.add_0_l, Z.add_0_r. reflexivity.
Qed.

Lemma c_bounds j : 0 <= j <= size -> 0 <= c j <= j.
Proof.
  assert (H : forall n, Z.of_nat n <= size -> 0 <= c (Z.of_nat n) <= Z.of_nat n).
  { induction n as [|n IH]; intros Hn; [change (c (Z.of_nat 0)) with 0; lia|].
    rewrite Nat2Z.inj_succ in *. unfold Z.succ in *.
    rewrite c_succ by lia. specialize (IH ltac:(lia)).
    destruct (Hb (Z.of_nat n)) as [E|E]; lia. }
  intros Hj. specialize (H (Z.to_nat j)). rewrite Z2Nat.id in H by lia. apply H. lia.
Qed.

Lemma c_mono i j : 0 <= i <= j -> j <= size -> c i <= c j.
Proof.
  assert (H : forall n, 0 <= i -> i + Z.of_nat n <= size -> c i <= c (i + Z.of_nat n)).
  { induction n as [|n IH]; intros Hi Hn; [rewrite Z.add_0_r; lia|].
    rewrite Nat2Z.inj_succ in *. unfold Z.succ in *.
    rewrite Z.add_assoc, c_succ by lia. specialize (IH ltac:(lia) ltac:(lia)).
    destruct (Hb (i + Z.of_nat n)) as [E|E]; lia. }
  intros Hij Hj. specialize (H (Z.to_nat (j - i))).
  replace (i + Z.of_nat (Z.to_nat (j - i))) with j in H by lia. apply H; lia.
Qed.

Lemma rsum_c i n : 0 <= i -> rsum b i n = c (i + Z.of_nat n) - c i.
Proof.
  intros Hi. unfold c. replace (Z.to_nat (i + Z.of_nat n)) with (Z.to_nat i + n)%nat by lia.
  rewrite rsum_app, Z2Nat.id, Z.add_0_l by lia. lia.
Qed.

Lemma exists_index k :
  0 <= k < c size -> exists j, 0 <= j < size /\ b j = 1 /\ c j = k.
Proof.
  assert (H : forall n, Z.of_nat n <= size -> 0 <= k < c (Z.of_nat n) ->
                        exists j, 0 <= j < Z.of_nat n /\ b j = 1 /\ c j = k).
  { induction n as [|n IH]; intros Hn Hk; [change (c (Z.of_nat 0)) with 0 in Hk; lia|].
    rewrite Nat2Z.inj_succ in *. unfold Z.succ in *. rewrite c_succ in Hk by lia.
    destruct (Z_lt_le_dec k (c (Z.of_nat n))) as [Hlt|Hge].
    - destruct IH as (j & Hj & Hbj & Hcj); [lia|lia|]. exists j. repeat split; lia.
    - exists (Z.of_nat n). destruct (Hb (Z.of_nat n)) as [E|E]; lia. }
  intros Hk. destruct (H (Z.to_nat size)) as (j & Hj & Hbj & Hcj);
    rewrite ?Z2Nat.id by lia; try lia.
  exists j. repeat split; lia.
Qed.

Lemma write_loop n :
  forall i out,
    0 <= i -> i + Z.of_nat n <= size ->
    let r := iter_up n i (write_step b) (c i, out) in
    fst r = c (i + Z.of_nat n)
    /\ (forall j, i <= j < i + Z.of_nat n -> b j = 1 -> snd r (c j) = j)
    /\ (forall x, ~ (c i <= x < c (i + Z.of_nat n)) -> snd r x = out x).
Proof.
  induction n as [|n IH]; intros i out Hi Hn r.
  - subst r. cbn [iter_up fst snd]. rewrite Z.add_0_r.
    split; [reflexivity|]. split; [intros; lia|reflexivity].
  - assert (Hstep : write_step b i (c i, out)
                    = (c (i + 1), if b i =? 0 then out else upd out (c i) i)).
    { unfold write_step. f_equal. rewrite c_succ by lia.
      pose proof (c_bounds i ltac:(lia)). apply u32_small.
      destruct (Hb i) as [E|E]; lia32. }
    subst r. cbn [iter_up]. rewrite Hstep.
    destruct (IH (i + 1) (if b i =? 0 then out else upd out (c i) i))
      as (Hfst & Hout & Hframe); [lia|lia|].
    replace (i + Z.of_nat (S n)) with (i + 1 + Z.of_nat n) by lia.
    pose proof (c_succ i Hi) as Hci.
    pose proof (c_mono (i + 1) (i + 1 + Z.of_nat n) ltac:(lia) ltac:(lia)) as Hmono.
    split; [exact Hfst|]. split.
    + intros j Hj Hbj. destruct (Z.eq_dec j i) as [->|Hne].
      * rewrite Hframe by lia. rewrite Hbj. cbn [Z.eqb]. unfold upd.
        rewrite Z.eqb_refl. reflexivity.
      * apply Hout; [lia|exact Hbj].
    + intros x Hx. pose proof (Hb i ltac:(lia)) as Hbi.
      rewrite Hframe by lia.
      destruct Hbi as [E|E]; rewrite E; cbn [Z.eqb]; [reflexivity|].
      unfold upd. destruct (Z.eqb_spec x (c i)); [lia|reflexivity].
Qed.

Lemma write_block_spec bsz k (scratch : option (mem Z)) out cnt :
  0 < bsz -> 0 <= k -> k * bsz < size -> k * bsz + bsz < 2 ^ 32 ->
  match scratch with Some sc => sc k | None => 0 end = c (k * bsz) ->
  let e := Z.min (k * bsz + bsz) size in
  let r := write_block b size (fst (block_range bsz size k)) (snd (block_range bsz size k))
                       k scratch (out, cnt) in
  snd r = (if e =? size then c e else cnt)
  /\ (forall j, k * bsz <= j < e -> b j = 1 -> fst r (c j) = j)
  /\ (forall x, ~ (c (k * bsz) <= x < c e) -> fst r x = out x).
Proof.
  intros Hbsz Hk Hstart Hmax Hbase e r. subst r.
  rewrite block_range_spec by nia. cbn [fst snd]. fold e.
  assert (He : k * bsz < e <= size) by (subst e; lia).
  unfold write_block. rewrite Hbase. cbn [fst].
  rewrite for_u32_iter_up by lia.
  destruct (write_loop (Z.to_nat (e - k * bsz)) (k * bsz) out) as (Hfst & Hout & Hframe);
    [nia|lia|].
  replace (k * bsz + Z.of_nat (Z.to_nat (e - k * bsz))) with e in * by lia.
  destruct (iter_up (Z.to_nat (e - k * bsz)) (k * bsz) (write_step b) (c (k * bsz), out))
    as [acc out1].
  cbn [fst snd] in *. subst acc. split; [reflexivity|]. split; assumption.
Qed.

Lemma write_blocks bsz blocks (scratch : option (mem Z)) n :
  0 < bsz -> (blocks - 1) * bsz < size -> size <= blocks * bsz -> blocks * bsz < 2 ^ 32 ->
  (forall k, 0 <= k < blocks ->
             match scratch with Some sc => sc k | None => 0 end = c (k * bsz)) ->
  forall k out cnt,
    0 <= k -> k + Z.of_nat n = blocks ->
    let r := iter_up n k
               (fun index s =>
                  write_block b size (fst (block_range bsz size index))
                              (snd (block_range bsz size index)) index scratch s)
               (out, cnt) in
    (forall j, k * bsz <= j < size -> b j = 1 -> fst r (c j) = j)
    /\ (forall x, ~ (c (Z.min (k * bsz) size) <= x < c size) -> fst r x = out x)
    /\ ((0 < n)%nat -> snd r = c size).
Proof.
  intros Hbsz Hlast Hcover Hmax Hbase.
  induction n as [|n IH]; intros k out cnt Hk Hn r.
  - subst r. cbn [iter_up fst snd]. split; [intros; nia|]. split; [reflexivity|lia].
  - subst r. cbn [iter_up].
    assert (Hstart : k * bsz < size) by nia.
    destruct (write_block_spec bsz k scratch out cnt Hbsz Hk Hstart ltac:(nia)
                               (Hbase k ltac:(lia))) as (Hcnt & Hout & Hframe).
    set (e := Z.min (k * bsz + bsz) size) in *.
    assert (He : k * bsz < e <= size) by (subst e; lia).
    destruct (write_block b size (fst (block_range bsz size k))
                          (snd (block_range bsz size k)) k scratch (out, cnt))
      as [out1 cnt1].
    cbn [fst snd] in Hcnt, Hout, Hframe.
    destruct (IH (k + 1) out1 cnt1 ltac:(lia) ltac:(lia)) as (H1 & H2 & H3).
    replace (Z.min ((k + 1) * bsz) size) with e in H2 by (subst e; lia).
    replace (Z.min (k * bsz) size) with (k * bsz) by lia.
    pose proof (c_mono (k * bsz) e ltac:(nia) ltac:(lia)) as Hm1.
    pose proof (c_mono e size ltac:(nia) ltac:(lia)) as Hm2.
    split; [|split].
    + intros j Hj Hbj. destruct (Z_lt_le_dec j e) as [Hlt|Hge].
      * rewrite H2; [apply Hout; [lia|exact Hbj]|].
        pose proof (c_succ j ltac:(nia)) as Hs.
        pose proof (c_mono (j + 1) e ltac:(nia) ltac:(lia)). lia.
      * apply H1; [subst e; nia|exact Hbj].
    + intros x Hx. rewrite H2 by lia. apply Hframe. lia.
    + intros _. destruct n as [|n].
      * cbn [iter_up snd]. rewrite Hcnt.
        assert (e = size) as -> by (subst e; nia). rewrite Z.eqb_refl. reflexivity.
      * apply H3. lia.
Qed.
End Counting.


(** X22. For a byte array [b] of values in {0, 1} of length [size > 0],
    with one worker, or with several workers and a worker block size
    [bs >= 2] such that [size + bs <= 2^32], the host path of
    [jitc_compress] returns [count = sum b] and writes [count] indices that
    are in range, select set bytes ([b[I[k]] = 1]) and are strictly
    increasing. The path is the one of the source: per-block counts, their
    exclusive prefix sum by [jitc_prefix_sum], and a second pass writing at
    the carried-in offsets. *)
Theorem compress_indices :
  forall ps bs cuda_ps cuda_c uninit fuel (b : Z -> Z) size out,
    (1 < ps -> 2 <= bs) ->
    0 < size < 2 ^ 32 -> (1 < ps -> size + bs <= 2 ^ 32) -> size <= Z.of_nat fuel ->
    (forall i, 0 <= i < size -> b i = 0 \/ b i = 1) ->
    exists count out',
      jitc_compress ps bs cuda_ps cuda_c uninit fuel LLVM b size out = Ok (count, out')
      /\ count = rsum b 0 (Z.to_nat size)
      /\ (forall k, 0 <= k < count -> 0 <= out' k < size /\ b (out' k) = 1)
      /\ (forall k, 0 <= k -> k + 1 < count -> out' k < out' (k + 1)).
Proof.
  intros ps bs cuda_ps cuda_c uninit fuel b size out Hcfg Hsize Hovf Hfuel Hb.
  unfold jitc_compress. destruct (Z.eqb_spec size 0) as [?|_]; [lia|].
  destruct (block_geometry ps bs size Hcfg Hsize Hovf)
    as (bsz & blocks & -> & Hbsz & Hlast & Hcover & Hmax & Hb1 & Hb2).
  set (c := fun j => rsum b 0 (Z.to_nat j)).
  assert (Hfinish : forall scratch : option (mem Z),
             (forall k, 0 <= k < blocks ->
                        match scratch with Some sc => sc k | None => 0 end = c (k * bsz)) ->
             exists count out',
               (r ← jitc_submit_cpu
                      (fun index s =>
                         let '(start, end_) := block_range bsz size index in
                         Ok (write_block b size start end_ index scratch s))
                      blocks (out, 0);
                Ok (snd r, fst r)) = Ok (count, out')
               /\ count = c size
               /\ (forall k, 0 <= k < count -> 0 <= out' k < size /\ b (out' k) = 1)
               /\ (forall k, 0 <= k -> k + 1 < count -> out' k < out' (k + 1))).
  { intros scratch Hbase. unfold jitc_submit_cpu.
    rewrite (submit_aux_ok _ (fun index s =>
                                write_block b size (fst (block_range bsz size index))
                                            (snd (block_range bsz size index))
                                            index scratch s)).
    2:{ intros j s' _. destruct (block_range bsz size j). reflexivity. }
    cbn [mbind outcome_bind obind].
    destruct (write_blocks b size Hsize Hb bsz blocks scratch (Z.to_nat blocks)
                           Hbsz Hlast Hcover Hmax Hbase 0 out 0 ltac:(lia) ltac:(lia))
      as (H1 & _ & H3).
    eexists _, _. split; [reflexivity|].
    split; [apply H3; lia|]. rewrite H3 by lia. fold (c size).
    assert (Hidx : forall k, 0 <= k < c size ->
                     exists j, 0 <= j < size /\ b j = 1 /\ c j = k
                               /\ fst (iter_up (Z.to_nat blocks) 0
                                         (fun index s =>
                                            write_block b size (fst (block_range bsz size index))
                                                        (snd (block_range bsz size index))
                                                        index scratch s) (out, 0)) k = j).
    { intros k Hk. destruct (exists_index b size Hsize Hb k Hk) as (j & Hj & Hbj & Hcj).
      exists j. repeat split; try assumption; try lia.
      rewrite <- Hcj. apply H1; [nia|exact Hbj]. }
    split.
    - intros k Hk. destruct (Hidx k Hk) as (j & Hj & Hbj & _ & ->). split; assumption.
    - intros k Hk Hk'.
      destruct (Hidx k ltac:(lia)) as (j & Hj & Hbj & Hcj & ->).
      destruct (Hidx (k + 1) ltac:(lia)) as (j' & Hj' & Hbj' & Hcj' & ->).
      destruct (Z_lt_le_dec j j') as [Hlt|Hge]; [exact Hlt|].
      pose proof (c_mono b size Hb j' j ltac:(lia) ltac:(lia)) as Hm.
      subst c. cbv beta in *. lia. }
  destruct (Z.ltb_spec 1 blocks) as [Hblocks|Hblocks].
  - destruct (Hb2 Hblocks) as [Hlt ->].
    set (val := fun idx => rsum b (idx * bs)
                             (Z.to_nat (Z.min (idx * bs + bs) size - idx * bs)) mod 2 ^ 32).
    set (sc := iter_up (Z.to_nat blocks) 0 (fun idx sc => upd sc idx (val idx)) (uninit UInt32)).
    assert (Hp1 : jitc_submit_cpu
                    (fun index sc0 =>
                       let '(start, end_) := block_range bs size index in
                       Ok (count_block b start end_ index sc0)) blocks (uninit UInt32)
                  = Ok sc).
    { unfold jitc_submit_cpu. apply submit_aux_ok.
      intros j s' Hj. assert (0 <= j * bs < size) by nia.
      assert (j * bs + bs <= blocks * bs) by nia.
      rewrite block_range_spec by lia32. unfold count_block.
      rewrite for_u32_iter_up by lia32.
      rewrite (accumulate_range 32 ltac:(lia) b) by lia32. reflexivity. }
    rewrite Hp1. cbn [mbind outcome_bind obind].
    destruct (body_spec 32 ltac:(lia) ps bs (cuda_ps UInt32) (uninit UInt32) Hcfg fuel
                        true 0 blocks 0 sc) as (sc' & Hrec & Hsc' & _);
      [lia32|intros; lia|lia|lia|].
    change (jitc_prefix_sum ps bs cuda_ps uninit fuel LLVM UInt32 true 0 blocks 0 sc)
      with (prefix_sum_body ps bs
              (fun s e i idx m sc => Ok (sum_reduce_1_T (modular_arith 32) s e i idx m sc))
              (fun s e i o idx sc ex m =>
                 Ok (sum_reduce_2_T (modular_arith 32) s e i o idx sc ex m))
              (cuda_ps UInt32) (uninit UInt32) fuel LLVM true 0 blocks 0 sc).
    rewrite Hrec. cbn [mbind outcome_bind obind].
    apply Hfinish. intros k Hk.
    rewrite <- (Z.add_0_l k) at 1. rewrite Hsc' by lia. unfold scan.
    transitivity (rsum b 0 (Z.to_nat (Z.of_nat (Z.to_nat k) * bs)) mod 2 ^ 32).
    + apply block_sums; [lia|lia|].
      intros k' Hk'. cbv beta. rewrite Z.add_0_l. subst sc.
      destruct (iter_up_upd val (Z.to_nat blocks) 0 (uninit UInt32)) as [Hval _].
      rewrite Hval by lia. subst val. cbv beta.
      rewrite Z.mod_mod by lia.
      replace (Z.min (k' * bs + bs) size - k' * bs) with bs by nia. reflexivity.
    + rewrite Z2Nat.id by lia. apply Z.mod_small.
      pose proof (c_bounds b size Hb (k * bs) ltac:(nia)) as Hcb.
      subst c. cbv beta in *. assert (k * bs <= size) by nia. lia32.
  - cbn [mbind outcome_bind obind]. apply Hfinish.
    intros k Hk. assert (k = 0) as -> by lia. reflexivity.
Qed.

(** The mask [1, 0, 1, 1, 0] on blocks of two bytes. *)
Lemma compress_indices_witness :
  exists count out',
    jitc_compress 2 2 PrefixSum.no_cuda Compress.no_cuda zeroed 5 LLVM
                  (bytes [1; 0; 1; 1; 0]) 5 (zeroed UInt32) = Ok (count, out')
    /\ count = rsum (bytes [1; 0; 1; 1; 0]) 0 (Z.to_nat 5)
    /\ (forall k, 0 <= k < count -> 0 <= out' k < 5 /\ bytes [1; 0; 1; 1; 0] (out' k) = 1)
    /\ (forall k, 0 <= k -> k + 1 < count -> out' k < out' (k + 1)).
Proof.
  apply (compress_indices 2 2 PrefixSum.no_cuda Compress.no_cuda zeroed 5
                          (bytes [1; 0; 1; 1; 0]) 5 (zeroed UInt32)).
  - intros _. lia.
  - split; [lia|reflexivity].
  - intros _. vm_compute. discriminate.
  - lia.
  - intros i Hi.
    assert (i = 0 \/ i = 1 \/ i = 2 \/ i = 3 \/ i = 4) as [->|[->|[->|[->| ->]]]] by lia;
      vm_compute; auto.
Defined.

(** C3. On an array of [2^32 - 1] bytes that are all 1, with two workers
    and a worker block size of 16384, the block count
    [(size + block_size - 1) / block_size] wraps to [16382 / 16384 = 0]:
    no work unit runs, [jitc_compress] returns the count 0 and leaves [out]
    as it was. *)
Lemma compress_block_count_wraps :
  PrefixSum.block_config 2 16384 4294967295 = (16384, 0)
  /\ jitc_compress 2 16384 PrefixSum.no_cuda Compress.no_cuda zeroed 1 LLVM
                   (fun _ => 1) 4294967295 (zeroed UInt32) = Ok (0, zeroed UInt32).
Proof. split; vm_compute; reflexivity. Qed.

End CompressFacts.

Lemma iter_up_app {St : Type} (f : Z -> St -> St) n :
  forall n' i s, iter_up (n + n') i f s = iter_up n' (i + Z.of_nat n) f (iter_up n i f s).
Proof.
  induction n as [|n IH]; intros n' i s.
  - cbn [Nat.add iter_up]. rewrite Z.add_0_r. reflexivity.
  - cbn [Nat.add iter_up]. rewrite IH. f_equal. lia.
Qed.

Module ReduceFacts.
Import PrefixSum PrefixSumFacts Reduce.

(** ** The block tree computes the sequential fold of a monoid *)

Section Monoid.
Variable op : Z -> Z -> Z.
Variable id : Z.
Variable good : Z -> Prop.
Hypothesis good_id : good id.
Hypothesis good_op : forall a b, good a -> good b -> good (op a b).
Hypothesis op_assoc : forall a b c, op a (op b c) = op (op a b) c.
Hypothesis op_id_l : forall a, good a -> op id a = a.
Hypothesis op_id_r : forall a, good a -> op a id = a.

Lemma fold_good (a : Z -> Z) n :
  forall i acc, good acc -> (forall j, i <= j < i + Z.of_nat n -> good (a j)) ->
                good (iter_up n i (fun i r => op r (a i)) acc).
Proof.
  induction n as [|n IH]; intros i acc Hacc Ha; cbn [iter_up]; [exact Hacc|].
  apply IH; [apply good_op; [exact Hacc|apply Ha; lia]|]. intros j Hj. apply Ha. lia.
Qed.

Lemma fold_acc (a : Z -> Z) n :
  forall i acc, good acc -> (forall j, i <= j < i + Z.of_nat n -> good (a j)) ->
                iter_up n i (fun i r => op r (a i)) acc
                = op acc (iter_up n i (fun i r => op r (a i)) id).
Proof.
  induction n as [|n IH]; intros i acc Hacc Ha; cbn [iter_up].
  - symmetry. apply op_id_r. exact Hacc.
  - assert (Hai : good (a i)) by (apply Ha; lia).
    assert (Ha' : forall j, i + 1 <= j < i + 1 + Z.of_nat n -> good (a j))
      by (intros j Hj; apply Ha; lia).
    rewrite (IH (i + 1) (op acc (a i))) by auto.
    rewrite (IH (i + 1) (op id (a i))) by auto.
    rewrite (op_id_l (a i)) by exact Hai. symmetry. apply op_assoc.
Qed.

Lemma fold_app (a : Z -> Z) n n' i :
  (forall j, i <= j < i + Z.of_nat (n + n') -> good (a j)) ->
  iter_up (n + n') i (fun i r => op r (a i)) id
  = op (iter_up n i (fun i r => op r (a i)) id)
       (iter_up n' (i + Z.of_nat n) (fun i r => op r (a i)) id).
Proof.
  intros Ha. rewrite iter_up_app. apply fold_acc.
  - apply fold_good; [exact good_id|]. intros j Hj. apply Ha. lia.
  - intros j Hj. apply Ha. lia.
Qed.

(** The fold of the block results is the fold of the elements. *)
Lemma fold_blocks (a : Z -> Z) bsz size (K : nat) :
  0 < bsz -> 0 <= size ->
  (forall j, 0 <= j < size -> good (a j)) ->
  iter_up K 0
    (fun k r => op r (iter_up (Z.to_nat (Z.min ((k + 1) * bsz) size - k * bsz)) (k * bsz)
                              (fun i r => op r (a i)) id)) id
  = iter_up (Z.to_nat (Z.min (Z.of_nat K * bsz) size)) 0 (fun i r => op r (a i)) id.
Proof.
  intros Hbsz Hsize Ha. induction K as [|K IH].
  { replace (Z.to_nat (Z.min (Z.of_nat 0 * bsz) size)) with 0%nat by lia. reflexivity. }
  replace (S K) with (K + 1)%nat at 1 by lia.
  rewrite iter_up_app, IH. cbn [iter_up]. rewrite Z.add_0_l.
  set (lo := Z.min (Z.of_nat K * bsz) size).
  set (hi := Z.min (Z.of_nat (S K) * bsz) size).
  assert (Hlo : 0 <= lo <= hi /\ hi <= size) by (subst lo hi; nia).
  replace (Z.min ((Z.of_nat K + 1) * bsz) size) with hi by (subst hi; f_equal; lia).
  destruct (Z_lt_le_dec (Z.of_nat K * bsz) size) as [Hlt|Hge].
  - assert (lo = Z.of_nat K * bsz) as Elo by (subst lo; lia).
    rewrite <- Elo.
    replace (Z.to_nat hi) with (Z.to_nat lo + Z.to_nat (hi - lo))%nat by lia.
    rewrite fold_app by (intros j Hj; apply Ha; lia).
    rewrite Z.add_0_l, Z2Nat.id by lia. reflexivity.
  - assert (lo = size) as Elo by (subst lo; lia).
    assert (hi = size) as Ehi by (subst hi; nia).
    rewrite Elo, Ehi.
    replace (Z.to_nat (size - Z.of_nat K * bsz)) with 0%nat by lia.
    cbn [iter_up]. apply op_id_r. apply fold_good; [exact good_id|].
    intros j Hj. apply Ha. lia.
Qed.

Variable float_op : VarType -> ReduceOp -> Z -> Z -> Z.
Variable float_identity : VarType -> ReduceOp -> Z.
Variables ps bs : Z.
Variable cuda : VarType -> ReduceOp -> (Z -> Z) -> Z -> outcome Z.
Variable uninit : Z -> Z.
Variable type : VarType.
Variable rop : ReduceOp.
Hypothesis Hcreate :
  jitc_reduce_create float_op float_identity type rop = Ok (reduce_loop id op).
Hypothesis Hcfg : 1 < ps -> 2 <= bs < 2 ^ 32.

Lemma reduce_units (ptr : Z -> Z) size bsz n :
  0 <= bsz -> 0 <= size < 2 ^ 32 ->
  (forall idx, 0 <= idx < Z.of_nat n -> idx * bsz <= size /\ (idx + 1) * bsz < 2 ^ 32) ->
  submit_aux n 0
    (fun index target =>
       Ok (upd target index
               (reduce_loop id op ptr (u32 (index * bsz))
                            (Z.min (u32 ((index + 1) * bsz)) size)))) uninit
  = Ok (iter_up n 0
          (fun idx t =>
             upd t idx (iter_up (Z.to_nat (Z.min ((idx + 1) * bsz) size - idx * bsz))
                                (idx * bsz) (fun i r => op r (ptr i)) id)) uninit).
Proof.
  intros Hbsz Hsize Hidx. apply submit_aux_ok. intros j s' Hj.
  destruct (Hidx j ltac:(lia)) as [H1 H2].
  rewrite !u32_small by nia. unfold reduce_loop.
  rewrite for_u32_iter_up by nia. reflexivity.
Qed.

Lemma reduce_tree fuel :
  forall ptr size,
    0 <= size < 2 ^ 32 -> (1 < ps -> size + bs <= 2 ^ 32) -> size < Z.of_nat fuel ->
    (forall j, 0 <= j < size -> good (ptr j)) ->
    jitc_reduce float_op float_identity ps bs cuda uninit fuel LLVM type rop ptr size
    = Ok (iter_up (Z.to_nat size) 0 (fun i r => op r (ptr i)) id).
Proof.
  induction fuel as [|fuel IH]; intros ptr size Hsize Hovf Hfuel Hgood; [lia|].
  cbn [jitc_reduce]. unfold block_config.
  destruct (Z.ltb_spec 1 ps) as [Hps|Hps].
  - specialize (Hcfg Hps). specialize (Hovf Hps).
    rewrite u32_small by lia32. set (blocks := (size + bs - 1) / bs).
    assert (Hlo : bs * blocks <= size + bs - 1) by (apply Z.mul_div_le; lia).
    assert (Hhi : size + bs - 1 < bs * Z.succ blocks) by (apply Z.mul_succ_div_gt; lia).
    assert (Hb0 : 0 <= blocks) by (apply Z.div_pos; lia).
    rewrite Hcreate. cbn [mbind outcome_bind obind]. unfold jitc_submit_cpu.
    rewrite (reduce_units ptr size bs) by (try lia; intros idx Hidx; split; nia).
    cbn [mbind outcome_bind obind].
    set (P := fun idx => iter_up (Z.to_nat (Z.min ((idx + 1) * bs) size - idx * bs))
                                 (idx * bs) (fun i r => op r (ptr i)) id).
    destruct (iter_up_upd P (Z.to_nat (Z.max 1 blocks)) 0 uninit) as [Hval _].
    set (target := iter_up (Z.to_nat (Z.max 1 blocks)) 0 (fun idx t => upd t idx (P idx)) uninit)
      in *.
    destruct (Z.ltb_spec 1 blocks) as [Hb|Hb].
    + rewrite IH; [|lia32|intros; nia|nia|].
      * f_equal.
        rewrite (iter_up_ext _ (fun k r => op r (P k))).
        2:{ intros j s' Hj. rewrite Hval by lia. reflexivity. }
        subst P. cbv beta. rewrite (fold_blocks ptr bs size) by (try lia; assumption).
        f_equal. rewrite Z2Nat.id by lia. nia.
      * intros j Hj. rewrite Hval by lia. subst P. cbv beta.
        apply fold_good; [exact good_id|]. intros i Hi. apply Hgood. nia.
    + f_equal. rewrite Hval by lia. subst P. cbv beta.
      rewrite Z.mul_0_l. f_equal. nia.
  - change (Z.max 1 1) with 1. rewrite Hcreate. cbn [mbind outcome_bind obind].
    unfold jitc_submit_cpu.
    rewrite (reduce_units ptr size size) by (try lia; intros idx Hidx; split; nia).
    cbn [mbind outcome_bind obind]. change (1 <? 1) with false. cbv iota.
    change (Z.to_nat 1) with 1%nat. cbn [iter_up]. unfold upd. rewrite Z.eqb_refl.
    f_equal. rewrite Z.mul_0_l. f_equal. lia.
Qed.
End Monoid.

Example all_of_five_true :
  match jitc_all no_float_op no_float_identity 2 2 no_cuda garbage 5 LLVM
                 (fill garbage 0 1 1 5) 0 5 with
  | Ok (r, _) => r = true
  | _ => False
  end.
Proof. vm_compute. reflexivity. Qed.

Example all_with_one_false :
  match jitc_all no_float_op no_float_identity 2 2 no_cuda garbage 5 LLVM
                 (upd (fill garbage 0 1 1 5) 3 0) 0 5 with
  | Ok (r, _) => r = false
  | _ => False
  end.
Proof. vm_compute. reflexivity. Qed.

Example any_of_six :
  match jitc_any no_float_op no_float_identity 1 16384 no_cuda garbage 5 LLVM
                 (upd (fill garbage 0 1 0 6) 5 1) 0 6 with
  | Ok (r, _) => r = true
  | _ => False
  end.
Proof. vm_compute. reflexivity. Qed.

(** Two bytes that are non-zero but not [1]: their conjunction is zero. *)
Example all_of_1_and_2 :
  match jitc_all no_float_op no_float_identity 1 16384 no_cuda garbage 5 LLVM
                 (upd (upd garbage 0 1) 1 2) 0 2 with
  | Ok (r, _) => r = false
  | _ => False
  end.
Proof. vm_compute. reflexivity. Qed.


(** ** Words of four booleans *)

Ltac by_cases4 c :=
  destruct (c 0), (c 1), (c 2), (c 3).

Lemma bw_land c d : Z.land (bw c) (bw d) = bw (fun k => c k && d k).
Proof. unfold bw. by_cases4 c; by_cases4 d; reflexivity. Qed.

Lemma bw_lor c d : Z.lor (bw c) (bw d) = bw (fun k => c k || d k).
Proof. unfold bw. by_cases4 c; by_cases4 d; reflexivity. Qed.

Lemma bw_land_ones c : Z.land (2 ^ 32 - 1) (bw c) = bw c.
Proof. unfold bw. by_cases4 c; reflexivity. Qed.

Lemma and_of_bytes_bw c : and_of_bytes (bw c) = c 0 && c 1 && c 2 && c 3.
Proof. unfold bw. by_cases4 c; reflexivity. Qed.

Lemma or_of_bytes_bw c : or_of_bytes (bw c) = c 0 || c 1 || c 2 || c 3.
Proof. unfold bw. by_cases4 c; reflexivity. Qed.

Lemma word_bw (m : mem Z) v i :
  (forall k, 0 <= k < 4 -> m (v + 4 * i + k) = 0 \/ m (v + 4 * i + k) = 1) ->
  as_u32 m v i = bw (fun k => m (v + 4 * i + k) =? 1).
Proof.
  intros H. unfold as_u32, bw. rewrite <- (Z.add_0_r (v + 4 * i)) at 1.
  destruct (H 0 ltac:(lia)) as [-> | ->], (H 1 ltac:(lia)) as [-> | ->],
           (H 2 ltac:(lia)) as [-> | ->], (H 3 ltac:(lia)) as [-> | ->]; reflexivity.
Qed.

Section Folds.
Variable m : mem Z.
Variable v : Z.

Lemma and_fold n :
  forall i d,
    (forall i' k, i <= i' < i + Z.of_nat n -> 0 <= k < 4 ->
                  m (v + 4 * i' + k) = 0 \/ m (v + 4 * i' + k) = 1) ->
    exists c,
      iter_up n i (fun i r => Z.land r (as_u32 m v i)) (bw d) = bw c
      /\ forall k, c k = true <->
                   d k = true /\ forall i', i <= i' < i + Z.of_nat n -> m (v + 4 * i' + k) = 1.
Proof.
  induction n as [|n IH]; intros i d Hbool; cbn [iter_up].
  - exists d. split; [reflexivity|]. intros k. split; [intros H; split; [exact H|intros; lia]|tauto].
  - rewrite word_bw by (intros k Hk; apply Hbool; lia). rewrite bw_land.
    destruct (IH (i + 1) (fun k => d k && (m (v + 4 * i + k) =? 1))) as (c & Hc & Hck).
    { intros i' k Hi' Hk. apply Hbool; lia. }
    exists c. split; [exact Hc|]. intros k. rewrite Hck, andb_true_iff, Z.eqb_eq.
    split.
    + intros [[Hd Hi] Hrest]. split; [exact Hd|]. intros i' Hi'.
      destruct (Z.eq_dec i' i) as [->|Hne]; [exact Hi|apply Hrest; lia].
    + intros [Hd Hall]. split; [split; [exact Hd|apply Hall; lia]|].
      intros i' Hi'. apply Hall. lia.
Qed.

Lemma or_fold n :
  forall i d,
    (forall i' k, i <= i' < i + Z.of_nat n -> 0 <= k < 4 ->
                  m (v + 4 * i' + k) = 0 \/ m (v + 4 * i' + k) = 1) ->
    exists c,
      iter_up n i (fun i r => Z.lor r (as_u32 m v i)) (bw d) = bw c
      /\ forall k, c k = true <->
                   d k = true \/ exists i', i <= i' < i + Z.of_nat n /\ m (v + 4 * i' + k) = 1.
Proof.
  induction n as [|n IH]; intros i d Hbool; cbn [iter_up].
  - exists d. split; [reflexivity|]. intros k. split; [tauto|].
    intros [H|(i' & Hi' & _)]; [exact H|lia].
  - rewrite word_bw by (intros k Hk; apply Hbool; lia). rewrite bw_lor.
    destruct (IH (i + 1) (fun k => d k || (m (v + 4 * i + k) =? 1))) as (c & Hc & Hck).
    { intros i' k Hi' Hk. apply Hbool; lia. }
    exists c. split; [exact Hc|]. intros k. rewrite Hck, orb_true_iff, Z.eqb_eq.
    split.
    + intros [[Hd|Hi]|(i' & Hi' & Hm)]; [left; exact Hd|right; exists i; split; [lia|exact Hi]|].
      right. exists i'. split; [lia|exact Hm].
    + intros [Hd|(i' & Hi' & Hm)]; [left; left; exact Hd|].
      destruct (Z.eq_dec i' i) as [->|Hne]; [left; right; exact Hm|].
      right. exists i'. split; [lia|exact Hm].
Qed.
End Folds.


(** ** Padding *)

Lemma words_bounds n : 0 <= n -> 0 <= 4 * ((n + 3) / 4) - n <= 3.
Proof.
  intros Hn. pose proof (Z.mul_div_le (n + 3) 4 ltac:(lia)).
  pose proof (Z.mul_succ_div_gt (n + 3) 4 ltac:(lia)). lia.
Qed.

Lemma padding (m : mem Z) values n trailing filler :
  0 <= trailing -> filler = 0 \/ filler = 1 ->
  exists m',
    (if trailing =? 0 then (m, Ok tt)
     else jitc_memset_async m (values + n) trailing 1 filler) = (m', Ok tt)
    /\ forall x, m' x = if (values + n <=? x) && (x <? values + n + trailing)
                        then filler else m x.
Proof.
  intros Ht Hf. destruct (Z.eqb_spec trailing 0) as [E|E].
  - exists m. split; [reflexivity|]. intros x.
    destruct (Z.leb_spec (values + n) x), (Z.ltb_spec x (values + n + trailing));
      try reflexivity. lia.
  - unfold jitc_memset_async. cbn [Z.eqb Pos.eqb orb negb].
    destruct (Z.eqb_spec trailing 0) as [?|_]; [lia|].
    destruct Hf as [-> | ->]; cbn [Z.eqb Pos.eqb]; (eexists; split; [reflexivity|]);
      intros x; unfold fill; rewrite ?Z.mul_1_r;
      (destruct ((values + n <=? x) && (x <? values + n + trailing)); [|reflexivity]);
      rewrite Z.mod_1_r; reflexivity.
Qed.

Lemma lanes_forall (P : Z -> Prop) R :
  (forall k, 0 <= k < 4 -> forall i, 0 <= i < R -> P (4 * i + k))
  <-> (forall x, 0 <= x < 4 * R -> P x).
Proof.
  split.
  - intros H x Hx. rewrite (Z.div_mod x 4) by lia.
    apply H; [apply Z.mod_pos_bound; lia|].
    split; [apply Z.div_pos; lia|apply Z.div_lt_upper_bound; lia].
  - intros H k Hk i Hi. apply H. lia.
Qed.

Lemma lanes_exists (P : Z -> Prop) R :
  (exists k, 0 <= k < 4 /\ exists i, 0 <= i < R /\ P (4 * i + k))
  <-> (exists x, 0 <= x < 4 * R /\ P x).
Proof.
  split.
  - intros (k & Hk & i & Hi & HP). exists (4 * i + k). split; [lia|exact HP].
  - intros (x & Hx & HP). exists (x mod 4). split; [apply Z.mod_pos_bound; lia|].
    exists (x / 4). split.
    + split; [apply Z.div_pos; lia|apply Z.div_lt_upper_bound; lia].
    + rewrite <- Z.div_mod by lia. exact HP.
Qed.

(** ** The two monoids *)


Lemma good_and_op a b : good_and a -> good_and b -> good_and (Z.land a b).
Proof.
  intros [-> | [c ->]] [-> | [d ->]].
  - left. reflexivity.
  - right. exists d. apply bw_land_ones.
  - right. exists c. rewrite Z.land_comm. apply bw_land_ones.
  - right. eexists. apply bw_land.
Qed.

Lemma good_and_id_l a : good_and a -> Z.land (2 ^ 32 - 1) a = a.
Proof. intros [-> | [c ->]]; [reflexivity|apply bw_land_ones]. Qed.

Lemma good_and_id_r a : good_and a -> Z.land a (2 ^ 32 - 1) = a.
Proof. intros H. rewrite Z.land_comm. apply good_and_id_l. exact H. Qed.

Lemma good_or_op a b : good_or a -> good_or b -> good_or (Z.lor a b).
Proof. intros [c ->] [d ->]. eexists. apply bw_lor. Qed.


(** X23. For a byte array of [n] booleans (bytes 0 or 1) with
    [n + 3 < 2^32], on the host path with one worker, or with several
    workers and a worker block size [bs] with [2 <= bs < 2^32] and
    [(n + 3) / 4 + bs <= 2^32]: at most three trailing bytes, up to the next
    multiple of four, are set to 1 by [jitc_all] and to 0 by [jitc_any]; the
    [ceil (n / 4)] words of the padded array are folded with the bitwise
    and, respectively or, from the identity; the result is the test of the
    four bytes of that scalar; and [jitc_all] returns true exactly when
    every input byte is non-zero, [jitc_any] exactly when some input byte
    is. *)
Theorem all_any_boolean :
  forall fo fi ps bs cuda uninit fuel (m : mem Z) values n,
    (1 < ps -> 2 <= bs < 2 ^ 32) ->
    0 <= n -> n + 3 < 2 ^ 32 -> (1 < ps -> (n + 3) / 4 + bs <= 2 ^ 32) ->
    (n + 3) / 4 < Z.of_nat fuel ->
    (forall i, 0 <= i < n -> m (values + i) = 0 \/ m (values + i) = 1) ->
    let words := (n + 3) / 4 in
    0 <= 4 * words - n <= 3
    /\ (exists m' out,
          jitc_all fo fi ps bs cuda uninit fuel LLVM m values n = Ok (and_of_bytes out, m')
          /\ (forall x, m' x = if (values + n <=? x) && (x <? values + 4 * words)
                               then 1 else m x)
          /\ out = iter_up (Z.to_nat words) 0 (fun i r => Z.land r (as_u32 m' values i))
                           (2 ^ 32 - 1)
          /\ (and_of_bytes out = true <-> forall i, 0 <= i < n -> m (values + i) <> 0))
    /\ (exists m' out,
          jitc_any fo fi ps bs cuda uninit fuel LLVM m values n = Ok (or_of_bytes out, m')
          /\ (forall x, m' x = if (values + n <=? x) && (x <? values + 4 * words)
                               then 0 else m x)
          /\ out = iter_up (Z.to_nat words) 0 (fun i r => Z.lor r (as_u32 m' values i)) 0
          /\ (or_of_bytes out = true <-> exists i, 0 <= i < n /\ m (values + i) <> 0)).
Proof.
  intros fo fi ps bs cuda uninit fuel m values n Hcfg Hn Hmax Hovf Hfuel Hbool words.
  pose proof (words_bounds n Hn) as Hw. fold words in Hw.
  assert (Hw0 : 0 <= words) by (apply Z.div_pos; lia).
  assert (Htr : u32 (words * 4 - n) = 4 * words - n) by (rewrite u32_small by lia32; lia).
  assert (Hpad : forall filler, filler = 0 \/ filler = 1 ->
            exists m',
              (if 4 * words - n =? 0 then (m, Ok tt)
               else jitc_memset_async m (values + n) (4 * words - n) 1 filler) = (m', Ok tt)
              /\ (forall x, m' x = if (values + n <=? x) && (x <? values + 4 * words)
                                   then filler else m x)
              /\ (forall i k, 0 <= i < words -> 0 <= k < 4 ->
                              m' (values + 4 * i + k) = 0 \/ m' (values + 4 * i + k) = 1)).
  { intros filler Hf.
    destruct (padding m values n (4 * words - n) filler ltac:(lia) Hf) as (m' & Hrun & Hm').
    exists m'. split; [exact Hrun|].
    assert (Hm'' : forall x, m' x = if (values + n <=? x) && (x <? values + 4 * words)
                                    then filler else m x).
    { intros x. rewrite Hm'. replace (values + n + (4 * words - n)) with (values + 4 * words)
        by lia. reflexivity. }
    split; [exact Hm''|]. intros i k Hi Hk. rewrite Hm''.
    destruct (Z.leb_spec (values + n) (values + 4 * i + k)),
             (Z.ltb_spec (values + 4 * i + k) (values + 4 * words)); cbn [andb];
      try exact Hf; try lia.
    replace (values + 4 * i + k) with (values + (4 * i + k)) by lia. apply Hbool. lia. }
  split; [exact Hw|]. split.
  - destruct (Hpad 1 ltac:(auto)) as (m' & Hrun & Hm' & Hb').
    assert (Hall : (forall x, 0 <= x < 4 * words -> m' (values + x) = 1)
                   <-> (forall i, 0 <= i < n -> m (values + i) <> 0)).
    { split.
      - intros H i Hi. specialize (H i ltac:(lia)). rewrite Hm' in H.
        destruct (Z.leb_spec (values + n) (values + i)); [lia|]. cbn [andb] in H. lia.
      - intros H x Hx. rewrite Hm'.
        destruct (Z.leb_spec (values + n) (values + x)),
                 (Z.ltb_spec (values + x) (values + 4 * words)); cbn [andb];
          try reflexivity; try lia.
        specialize (H x ltac:(lia)). destruct (Hbool x ltac:(lia)); lia. }
    exists m'. eexists. unfold jitc_all. rewrite (u32_small (n + 3)) by lia32. fold words.
    rewrite Htr, Hrun. cbn [mbind outcome_bind obind].
    rewrite (reduce_tree Z.land (2 ^ 32 - 1) good_and (or_introl eq_refl) good_and_op
                         Z.land_assoc good_and_id_l good_and_id_r
                         fo fi ps bs cuda uninit UInt32 And eq_refl Hcfg fuel
                         (as_u32 m' values) words); try lia32; try assumption.
    2:{ intros j Hj. right. eexists. apply word_bw. intros k Hk. apply Hb'; lia. }
    cbn [mbind outcome_bind obind].
    split; [reflexivity|]. split; [exact Hm'|]. split; [reflexivity|].
    rewrite <- Hall.
    destruct (Z.to_nat words) as [|n'] eqn:En.
    + cbn [iter_up]. split; [intros _ x Hx; lia|reflexivity].
    + cbn [iter_up]. rewrite word_bw by (intros k Hk; apply Hb'; lia).
      rewrite bw_land_ones, Z.add_0_l.
      destruct (and_fold m' values n' 1 (fun k => m' (values + 4 * 0 + k) =? 1))
        as (c & -> & Hc).
      { intros i' k Hi' Hk. apply Hb'; lia. }
      rewrite and_of_bytes_bw, !andb_true_iff, !Hc, !Z.eqb_eq.
      rewrite <- (lanes_forall (fun x => m' (values + x) = 1) words).
      split.
      * intros [[[[H0 H0'] [H1 H1']] [H2 H2']] [H3 H3']] k Hk i Hi.
        replace (values + (4 * i + k)) with (values + 4 * i + k) by lia.
        destruct (Z.eq_dec i 0) as [->|Hne];
          [assert (k = 0 \/ k = 1 \/ k = 2 \/ k = 3) as [->|[->|[->| ->]]] by lia; assumption|].
        assert (k = 0 \/ k = 1 \/ k = 2 \/ k = 3) as [->|[->|[->| ->]]] by lia;
          [apply H0'|apply H1'|apply H2'|apply H3']; lia.
      * intros H.
        assert (Hk : forall k, 0 <= k < 4 ->
                       m' (values + 4 * 0 + k) = 1
                       /\ forall i', 1 <= i' < 1 + Z.of_nat n' -> m' (values + 4 * i' + k) = 1).
        { intros k Hk. split; [|intros i' Hi'].
          - replace (values + 4 * 0 + k) with (values + (4 * 0 + k)) by lia. apply H; lia.
          - replace (values + 4 * i' + k) with (values + (4 * i' + k)) by lia. apply H; lia. }
        split; [split; [split|]|]; apply Hk; lia.
  - destruct (Hpad 0 ltac:(auto)) as (m' & Hrun & Hm' & Hb').
    assert (Hany : (exists x, 0 <= x < 4 * words /\ m' (values + x) = 1)
                   <-> (exists i, 0 <= i < n /\ m (values + i) <> 0)).
    { split.
      - intros (x & Hx & H). rewrite Hm' in H.
        destruct (Z.leb_spec (values + n) (values + x)),
                 (Z.ltb_spec (values + x) (values + 4 * words)); cbn [andb] in H; try lia.
        exists x. split; lia.
      - intros (i & Hi & H). exists i. split; [lia|]. rewrite Hm'.
        destruct (Z.leb_spec (values + n) (values + i)); [lia|]. cbn [andb].
        destruct (Hbool i Hi); lia. }
    exists m'. eexists. unfold jitc_any. rewrite (u32_small (n + 3)) by lia32. fold words.
    rewrite Htr, Hrun. cbn [mbind outcome_bind obind].
    rewrite (reduce_tree Z.lor 0 good_or (ex_intro _ (fun _ => false) eq_refl) good_or_op
                         Z.lor_assoc (fun a _ => Z.lor_0_l a) (fun a _ => Z.lor_0_r a)
                         fo fi ps bs cuda uninit UInt32 Or eq_refl Hcfg fuel
                         (as_u32 m' values) words); try lia32; try assumption.
    2:{ intros j Hj. eexists. apply word_bw. intros k Hk. apply Hb'; lia. }
    cbn [mbind outcome_bind obind].
    split; [reflexivity|]. split; [exact Hm'|]. split; [reflexivity|].
    rewrite <- Hany.
    destruct (or_fold m' values (Z.to_nat words) 0 (fun _ => false)) as (c & Hfold & Hc).
    { intros i' k Hi' Hk. apply Hb'; lia. }
    change (bw (fun _ => false)) with 0 in Hfold. rewrite Hfold.
    rewrite or_of_bytes_bw, !orb_true_iff, !Hc.
    rewrite <- (lanes_exists (fun x => m' (values + x) = 1) words).
    assert (Hshape : forall k, (exists i', 0 <= i' < 0 + Z.of_nat (Z.to_nat words)
                                           /\ m' (values + 4 * i' + k) = 1)
                               <-> (exists i, 0 <= i < words /\ m' (values + (4 * i + k)) = 1)).
    { intros k. split; intros (i & Hi & H); exists i; (split; [lia|]);
        [replace (values + (4 * i + k)) with (values + 4 * i + k) by lia
        |replace (values + 4 * i + k) with (values + (4 * i + k)) by lia]; exact H. }
    rewrite !Hshape. split.
    + intros [[[[H|H]|[H|H]]|[H|H]]|[H|H]]; try discriminate H.
      * exists 0. split; [lia|exact H].
      * exists 1. split; [lia|exact H].
      * exists 2. split; [lia|exact H].
      * exists 3. split; [lia|exact H].
    + intros (k & Hk & H).
      assert (k = 0 \/ k = 1 \/ k = 2 \/ k = 3) as [->|[->|[->| ->]]] by lia; tauto.
Qed.

(** The booleans [1, 1, 0, 1, 1] on blocks of two words. *)
Lemma all_any_boolean_witness :
  0 <= 4 * ((5 + 3) / 4) - 5 <= 3
  /\ exists m' out,
      jitc_all no_float_op no_float_identity 2 2 no_cuda garbage 4 LLVM
               (upd (fill garbage 0 1 1 5) 2 0) 0 5 = Ok (and_of_bytes out, m')
      /\ (forall x, m' x = if (0 + 5 <=? x) && (x <? 0 + 4 * ((5 + 3) / 4))
                           then 1 else upd (fill garbage 0 1 1 5) 2 0 x)
      /\ out = iter_up (Z.to_nat ((5 + 3) / 4)) 0 (fun i r => Z.land r (as_u32 m' 0 i))
                       (2 ^ 32 - 1)
      /\ (and_of_bytes out = true
          <-> forall i, 0 <= i < 5 -> upd (fill garbage 0 1 1 5) 2 0 (0 + i) <> 0).
Proof.
  refine ((fun H => conj (proj1 H) (proj1 (proj2 H)))
            (all_any_boolean no_float_op no_float_identity 2 2 no_cuda garbage 4
                             (upd (fill garbage 0 1 1 5) 2 0) 0 5 _ _ _ _ _ _)).
  - intros _. split; [lia|reflexivity].
  - lia.
  - reflexivity.
  - intros _. vm_compute. discriminate.
  - vm_compute. reflexivity.
  - intros i Hi.
    assert (i = 0 \/ i = 1 \/ i = 2 \/ i = 3 \/ i = 4) as [->|[->|[->|[->| ->]]]] by lia;
      vm_compute; auto.
Defined.

(** C8. On an array of [2^32 - 1] bytes, [(size + 3) / 4] wraps to
    [2 / 4 = 0] words: one trailing byte is padded and nothing is folded,
    so that [jitc_all] returns true on bytes that are all 0 and [jitc_any]
    returns false on bytes that are all 1. *)
Lemma all_any_word_count_wraps :
  u32 (4294967295 + 3) / 4 = 0
  /\ (exists m', jitc_all no_float_op no_float_identity 1 16384 no_cuda garbage 1 LLVM
                          (fun _ => 0) 0 4294967295 = Ok (true, m'))
  /\ (exists m', jitc_any no_float_op no_float_identity 1 16384 no_cuda garbage 1 LLVM
                          (fun _ => 1) 0 4294967295 = Ok (false, m')).
Proof.
  split; [reflexivity|]. split.
  - destruct (jitc_all no_float_op no_float_identity 1 16384 no_cuda garbage 1 LLVM
                       (fun _ => 0) 0 4294967295) as [[r m']| | |] eqn:E.
    + exists m'. do 2 f_equal.
      change r with (fst (r, m')).
      apply (f_equal (fun x => match x with Ok (r, _) => r | _ => false end)) in E.
      rewrite <- E. vm_compute. reflexivity.
    + apply (f_equal is_ok) in E. vm_compute in E. discriminate E.
    + apply (f_equal is_ok) in E. vm_compute in E. discriminate E.
    + apply (f_equal is_ok) in E. vm_compute in E. discriminate E.
  - destruct (jitc_any no_float_op no_float_identity 1 16384 no_cuda garbage 1 LLVM
                       (fun _ => 1) 0 4294967295) as [[r m']| | |] eqn:E.
    + exists m'. do 2 f_equal.
      change r with (fst (r, m')).
      apply (f_equal (fun x => match x with Ok (r, _) => r | _ => true end)) in E.
      rewrite <- E. vm_compute. reflexivity.
    + apply (f_equal is_ok) in E. vm_compute in E. discriminate E.
    + apply (f_equal is_ok) in E. vm_compute in E. discriminate E.
    + apply (f_equal is_ok) in E. vm_compute in E. discriminate E.
Qed.

End ReduceFacts.

Module ScheduleFacts.
Import Schedule.

Example groups_of_five :
  order_and_group [ {| sv_size := 1; sv_index := 7 |}; {| sv_size := 10; sv_index := 9 |};
                    {| sv_size := 10; sv_index := 3 |}; {| sv_size := 4; sv_index := 5 |};
                    {| sv_size := 1; sv_index := 2 |} ]
  = Some ([ {| sv_size := 10; sv_index := 3 |}; {| sv_size := 10; sv_index := 9 |};
            {| sv_size := 4; sv_index := 5 |}; {| sv_size := 1; sv_index := 2 |};
            {| sv_size := 1; sv_index := 7 |} ],
          [ {| g_size := 10; g_start := 0; g_end := 2 |};
            {| g_size := 4; g_start := 2; g_end := 3 |};
            {| g_size := 1; g_start := 3; g_end := 5 |} ]).
Proof. reflexivity. Qed.


(** ** Sorting *)

Lemma before_ordered y x : before y x = true -> ordered y x.
Proof.
  unfold before, ordered.
  destruct (Z.ltb_spec (sv_size x) (sv_size y)); [intros _; left; lia|].
  destruct (Z.ltb_spec (sv_size y) (sv_size x)); [discriminate|].
  destruct (Z.ltb_spec (sv_index x) (sv_index y)); [discriminate|].
  destruct (Z.ltb_spec (sv_index y) (sv_index x)); [intros _; right; lia|discriminate].
Qed.

Lemma not_before_ordered y x : before y x = false -> ordered x y.
Proof.
  unfold before, ordered.
  destruct (Z.ltb_spec (sv_size x) (sv_size y)); [discriminate|].
  destruct (Z.ltb_spec (sv_size y) (sv_size x)); [intros _; left; lia|].
  destruct (Z.ltb_spec (sv_index x) (sv_index y)); [intros _; right; lia|].
  destruct (Z.ltb_spec (sv_index y) (sv_index x)); [discriminate|intros _; right; lia].
Qed.

Lemma ordered_trans a b c : ordered a b -> ordered b c -> ordered a c.
Proof. unfold ordered. lia. Qed.

Lemma insert_perm x l : Permutation (x :: l) (insert x l).
Proof.
  induction l as [|y l IH]; cbn [insert]; [reflexivity|].
  destruct (before y x); [|reflexivity].
  rewrite perm_swap. apply perm_skip. exact IH.
Qed.

Lemma sort_perm l : Permutation l (sort l).
Proof.
  induction l as [|x l IH]; cbn [sort]; [reflexivity|].
  rewrite <- insert_perm. apply perm_skip. exact IH.
Qed.

Lemma insert_sorted x l : StronglySorted ordered l -> StronglySorted ordered (insert x l).
Proof.
  induction 1 as [|y l Hl IH Hy]; cbn [insert].
  - constructor; constructor.
  - destruct (before y x) eqn:E.
    + constructor; [exact IH|].
      apply (Permutation_Forall (insert_perm x l)). constructor; [|exact Hy].
      apply before_ordered. exact E.
    + apply not_before_ordered in E. constructor; [constructor; assumption|].
      constructor; [exact E|].
      eapply Forall_impl; [exact Hy|].
      intros z Hz. apply (ordered_trans x y z); assumption.
Qed.

Lemma sort_sorted l : StronglySorted ordered (sort l).
Proof.
  induction l as [|x l IH]; cbn [sort]; [constructor|]. apply insert_sorted. exact IH.
Qed.

Lemma sorted_sizes l d :
  StronglySorted ordered l ->
  forall i j, (i <= j < length l)%nat -> sv_size (nth j l d) <= sv_size (nth i l d).
Proof.
  induction 1 as [|a l Hl IH Ha]; intros i j Hij; cbn [length] in Hij; [lia|].
  destruct i as [|i], j as [|j]; cbn [nth]; try lia.
  - assert (Hin : In (nth j l d) l) by (apply nth_In; lia).
    rewrite List.Forall_forall in Ha. specialize (Ha _ Hin). unfold ordered in Ha. lia.
  - apply IH. lia.
Qed.

(** ** Grouping *)

Lemma chain_snoc gs lo mid hi sz :
  chain gs lo mid -> mid < hi ->
  chain (gs ++ [{| g_size := sz; g_start := mid; g_end := hi |}]) lo hi.
Proof.
  revert lo. induction gs as [|g gs IH]; intros lo Hc Hlt; cbn [chain app] in *.
  - subst lo. cbn. auto.
  - destruct Hc as (H1 & H2 & H3). auto.
Qed.

Section Grouping.
Variable schedule : list ScheduledVariable.
Variable n : Z.

Lemma group_loop k :
  forall i cur gs,
    0 <= cur < i -> i + Z.of_nat k = n ->
    chain gs 0 cur -> Forall (maximal_run schedule n) gs ->
    (forall j, cur <= j < i -> size_at schedule j = size_at schedule cur) ->
    (cur = 0 \/ size_at schedule (cur - 1) <> size_at schedule cur) ->
    let r := iter_up k i (group_step schedule) (cur, gs) in
    chain (snd r ++ [{| g_size := size_at schedule (fst r); g_start := fst r; g_end := n |}]) 0 n
    /\ Forall (maximal_run schedule n)
              (snd r ++ [{| g_size := size_at schedule (fst r); g_start := fst r; g_end := n |}]).
Proof.
  induction k as [|k IH]; intros i cur gs Hcur Hk Hchain Hmax Huni Hbound r.
  - subst r. cbn [iter_up fst snd]. split; [apply chain_snoc; [exact Hchain|lia]|].
    apply Forall_app. split; [exact Hmax|]. constructor; [|constructor].
    unfold maximal_run. cbn [g_start g_end g_size]. split; [|split].
    + intros j Hj. apply Huni. lia.
    + exact Hbound.
    + left. reflexivity.
  - subst r. cbn [iter_up].
    assert (Hstep : group_step schedule i (cur, gs)
                    = if size_at schedule (i - 1) =? size_at schedule i
                      then (cur, gs)
                      else (i, gs ++ [{| g_size := size_at schedule cur;
                                         g_start := cur; g_end := i |}]))
      by reflexivity.
    rewrite Hstep. clear Hstep.
    destruct (Z.eqb_spec (size_at schedule (i - 1)) (size_at schedule i)) as [E|E].
    + apply IH; try assumption; try lia.
      intros j Hj. destruct (Z.eq_dec j i) as [->|Hne]; [|apply Huni; lia].
      rewrite <- E. apply Huni. lia.
    + assert (Hprev : size_at schedule (i - 1) = size_at schedule cur) by (apply Huni; lia).
      apply IH; try lia.
      * apply chain_snoc; [exact Hchain|lia].
      * apply Forall_app. split; [exact Hmax|]. constructor; [|constructor].
        unfold maximal_run. cbn [g_start g_end g_size]. split; [|split].
        -- intros j Hj. apply Huni. lia.
        -- exact Hbound.
        -- right. congruence.
      * intros j Hj. assert (j = i) as -> by lia. reflexivity.
Qed.
End Grouping.

Lemma partition_spec schedule :
  StronglySorted ordered schedule ->
  0 < Z.of_nat (length schedule) < 2 ^ 32 ->
  chain (partition schedule) 0 (Z.of_nat (length schedule))
  /\ Forall (maximal_run schedule (Z.of_nat (length schedule))) (partition schedule).
Proof.
  intros Hsorted Hlen. unfold partition. rewrite u32_small by lia.
  set (n := Z.of_nat (length schedule)) in *.
  destruct (Z.eqb_spec (size_at schedule 0) (size_at schedule (n - 1))) as [E|E].
  - cbn [chain g_start g_end]. split; [lia|]. constructor; [|constructor].
    unfold maximal_run. cbn [g_start g_end g_size]. split; [|auto].
    intros i Hi. unfold size_at in *.
    pose proof (sorted_sizes schedule {| sv_size := 0; sv_index := 0 |} Hsorted
                             0%nat (Z.to_nat i) ltac:(lia)) as H1.
    pose proof (sorted_sizes schedule {| sv_size := 0; sv_index := 0 |} Hsorted
                             (Z.to_nat i) (Z.to_nat (n - 1)) ltac:(lia)) as H2.
    change (Z.to_nat 0) with 0%nat in *. lia.
  - pose proof (group_loop schedule n (Z.to_nat (n - 1)) 1 0 [] ltac:(lia) ltac:(lia)
                           eq_refl (List.Forall_nil _)) as H.
    cbv zeta in H.
    destruct (iter_up (Z.to_nat (n - 1)) 1 (group_step schedule) (0, [])) as [cur groups].
    cbn [fst snd] in H. apply H.
    + intros j Hj. assert (j = 0) as -> by lia. reflexivity.
    + left. reflexivity.
Qed.

(** C4. For a non-empty schedule whose length fits [uint32_t], [jitc_eval]
    sorts it by descending size and, among equal sizes, ascending variable
    identifier (the sorted array is a permutation of the traversal's), and
    the groups it forms follow one another from the first to the last entry
    of the schedule, none is empty, and each is a maximal run of entries of
    the group's size. *)
Theorem schedule_sorted_and_grouped :
  forall schedule,
    0 < Z.of_nat (length schedule) < 2 ^ 32 ->
    exists sorted groups,
      order_and_group schedule = Some (sorted, groups)
      /\ Permutation schedule sorted
      /\ StronglySorted ordered sorted
      /\ chain groups 0 (Z.of_nat (length sorted))
      /\ Forall (maximal_run sorted (Z.of_nat (length sorted))) groups.
Proof.
  intros schedule Hlen. exists (sort schedule), (partition (sort schedule)).
  assert (Hperm := sort_perm schedule).
  assert (Hl : length (sort schedule) = length schedule)
    by (symmetry; apply Permutation_length; exact Hperm).
  split; [destruct schedule; [cbn in Hlen; lia|reflexivity]|].
  split; [exact Hperm|]. split; [apply sort_sorted|].
  apply partition_spec; [apply sort_sorted|]. rewrite Hl. exact Hlen.
Qed.

Lemma schedule_sorted_and_grouped_witness :
  exists sorted groups,
    order_and_group [ {| sv_size := 1; sv_index := 7 |}; {| sv_size := 10; sv_index := 9 |};
                      {| sv_size := 10; sv_index := 3 |} ] = Some (sorted, groups)
    /\ Permutation [ {| sv_size := 1; sv_index := 7 |}; {| sv_size := 10; sv_index := 9 |};
                     {| sv_size := 10; sv_index := 3 |} ] sorted
    /\ StronglySorted ordered sorted
    /\ chain groups 0 (Z.of_nat (length sorted))
    /\ Forall (maximal_run sorted (Z.of_nat (length sorted))) groups.
Proof.
  apply schedule_sorted_and_grouped. cbn. split; reflexivity.
Defined.

End ScheduleFacts.

Module AssembleFacts.
Import Schedule Assemble.

(** The four classes in one group, on both backends. *)
Example registers_of_four_llvm :
  match jitc_assemble sizes bump sample_schedule LLVM (sample_vars LLVM) false
                      {| g_size := 10; g_start := 0; g_end := 4 |} with
  | Ok st => List.map (fun i => (param_type <$> variables st !! i, reg_index <$> variables st !! i))
                      [11; 12; 13; 14]
             = [(Some Input, Some 1); (Some Output, Some 2);
                (Some Input, Some 3); (Some Register, Some 4)]
  | _ => False
  end.
Proof. vm_compute. reflexivity. Qed.

Example registers_of_four_cuda :
  match jitc_assemble sizes bump sample_schedule CUDA (sample_vars CUDA) false
                      {| g_size := 10; g_start := 0; g_end := 4 |} with
  | Ok st => List.map (fun i => (param_type <$> variables st !! i, reg_index <$> variables st !! i))
                      [11; 12; 13; 14]
             = [(Some Input, Some 4); (Some Output, Some 5);
                (Some Input, Some 6); (Some Register, Some 7)]
  | _ => False
  end.
Proof. vm_compute. reflexivity. Qed.

Lemma sticky_error {St : Type} (body : Z -> St -> outcome St) n :
  forall i (e : outcome St),
    is_ok e = false -> iter_up n i (fun i s => s ≫= body i) e = e.
Proof.
  induction n as [|n IH]; intros i e He; cbn [iter_up]; [reflexivity|].
  destruct e; try discriminate He; apply IH; reflexivity.
Qed.

Section Numbering.
Variable type_size : VarType -> Z.
Variable jitc_malloc : JitBackend -> Z -> Z.
Variable schedule : list ScheduledVariable.
Variable b : JitBackend.
Variable group_size : Z.

(** One iteration: the variable of this position gets the current counter,
    the counter advances, and no other variable changes. *)
Lemma step_total group_index st v :
  variables st !! index_at schedule group_index = Some v ->
  sanity_checks b group_size v = Ok tt ->
  exists st',
    assemble_step type_size jitc_malloc schedule b group_size group_index st = Ok st'
    /\ n_regs st' = u32 (n_regs st + 1)
    /\ (exists v', variables st' !! index_at schedule group_index = Some v'
                   /\ reg_index v' = n_regs st)
    /\ (forall id, id <> index_at schedule group_index ->
                   variables st' !! id = variables st !! id).
Proof.
  intros Hv Hchecks. unfold assemble_step, jitc_var. rewrite Hv.
  cbn [mbind outcome_bind obind]. rewrite Hchecks. cbn [mbind outcome_bind obind].
  set (index := index_at schedule group_index).
  destruct (negb (data v =? 0)); [|destruct (output_flag v && (size v =? group_size));
                                   [|destruct (literal v && VarType_eqb (type v) Pointer)]];
    cbn [mbind outcome_bind obind variables put_var];
    rewrite ?lookup_insert_eq; cbn [mbind outcome_bind obind variables n_regs];
    rewrite ?lookup_insert_eq; cbn [mbind outcome_bind obind variables n_regs];
    (eexists; split; [reflexivity|]); cbn [variables n_regs];
    (split; [reflexivity|]); (split; [eexists; split; [apply lookup_insert_eq|reflexivity]|]);
    intros id Hid; rewrite !lookup_insert_ne by congruence; reflexivity.
Qed.

Lemma assemble_loop n :
  forall i st,
    (forall k, 0 <= k < Z.of_nat n ->
               exists v, variables st !! index_at schedule (i + k) = Some v
                         /\ sanity_checks b group_size v = Ok tt) ->
    (forall k k', 0 <= k < k' -> k' < Z.of_nat n ->
                  index_at schedule (i + k) <> index_at schedule (i + k')) ->
    n_regs st + Z.of_nat n < 2 ^ 32 -> 0 <= n_regs st ->
    exists st',
      iter_up n i (fun group_index st =>
                     st ≫= assemble_step type_size jitc_malloc schedule b group_size group_index)
              (Ok st) = Ok st'
      /\ n_regs st' = n_regs st + Z.of_nat n
      /\ (forall k, 0 <= k < Z.of_nat n ->
                    exists v, variables st' !! index_at schedule (i + k) = Some v
                              /\ reg_index v = n_regs st + k)
      /\ (forall id, (forall k, 0 <= k < Z.of_nat n -> index_at schedule (i + k) <> id) ->
                     variables st' !! id = variables st !! id).
Proof.
  induction n as [|n IH]; intros i st Hvars Hdistinct Hmax Hregs.
  - exists st. cbn [iter_up]. split; [reflexivity|]. split; [lia|].
    split; [intros k Hk; lia|reflexivity].
  - cbn [iter_up]. change (Ok st ≫= ?f) with (f st).
    destruct (Hvars 0 ltac:(lia)) as (v & Hv & Hchecks). rewrite Z.add_0_r in Hv.
    destruct (step_total i st v Hv Hchecks) as (st1 & -> & Hregs1 & (v1 & Hv1 & Hr1) & Hframe1).
    rewrite u32_small in Hregs1 by lia32.
    destruct (IH (i + 1) st1) as (st' & Hrun & Hregs' & Hk' & Hframe'); try lia.
    { intros k Hk. destruct (Hvars (k + 1) ltac:(lia)) as (w & Hw & Hcw).
      exists w. split; [|exact Hcw].
      replace (i + 1 + k) with (i + (k + 1)) by lia. rewrite Hframe1; [exact Hw|].
      rewrite <- (Z.add_0_r i) at 2. intros E. apply (Hdistinct 0 (k + 1)); lia. }
    { intros k k' Hk Hk'. replace (i + 1 + k) with (i + (k + 1)) by lia.
      replace (i + 1 + k') with (i + (k' + 1)) by lia. apply Hdistinct; lia. }
    exists st'. split; [exact Hrun|]. split; [lia|]. split.
    + intros k Hk. destruct (Z.eq_dec k 0) as [->|Hne].
      * rewrite Z.add_0_r. exists v1. split; [|lia].
        rewrite Hframe'; [exact Hv1|].
        intros j Hj. replace (i + 1 + j) with (i + (j + 1)) by lia.
        rewrite <- (Z.add_0_r i) at 2. intros E. apply (Hdistinct 0 (j + 1)); lia.
      * destruct (Hk' (k - 1) ltac:(lia)) as (w & Hw & Hrw). exists w.
        replace (i + 1 + (k - 1)) with (i + k) in Hw by lia. split; [exact Hw|lia].
    + intros id Hid. rewrite Hframe'.
      * apply Hframe1. specialize (Hid 0 ltac:(lia)). rewrite Z.add_0_r in Hid. congruence.
      * intros k Hk. replace (i + 1 + k) with (i + (k + 1)) by lia. apply Hid. lia.
Qed.
End Numbering.

(** C7. When the variables of a scheduled group exist, pass the sanity
    checks and are pairwise distinct, [jitc_assemble] completes its loop,
    the counter having started at the reserved base of the backend (4 on
    CUDA, 1 on LLVM), and the variable at position [k] of the group has
    [reg_index = base + k], whatever its classification; the counter ends at
    the base plus the size of the group. *)
Theorem register_numbering :
  forall type_size jitc_malloc schedule b vars optix0 group,
    0 <= g_start group <= g_end group -> g_end group < 2 ^ 32 ->
    reserved b + (g_end group - g_start group) < 2 ^ 32 ->
    (forall k, 0 <= k < g_end group - g_start group ->
               exists v, vars !! index_at schedule (g_start group + k) = Some v
                         /\ sanity_checks b (g_size group) v = Ok tt) ->
    (forall k k', 0 <= k < k' -> k' < g_end group - g_start group ->
                  index_at schedule (g_start group + k)
                  <> index_at schedule (g_start group + k')) ->
    exists st,
      jitc_assemble type_size jitc_malloc schedule b vars optix0 group = Ok st
      /\ reserved b = match b with CUDA => 4 | LLVM => 1 end
      /\ n_regs st = reserved b + (g_end group - g_start group)
      /\ forall k, 0 <= k < g_end group - g_start group ->
                   exists v, variables st !! index_at schedule (g_start group + k) = Some v
                             /\ reg_index v = reserved b + k.
Proof.
  intros type_size jitc_malloc schedule b vars optix0 group Hrange Hmax Hregmax Hvars Hdistinct.
  unfold jitc_assemble. rewrite for_u32_iter_up by lia.
  assert (Hres : 0 <= reserved b <= 4) by (destruct b; cbn; lia).
  edestruct (assemble_loop type_size jitc_malloc schedule b (g_size group)
                           (Z.to_nat (g_end group - g_start group)) (g_start group))
    as (st & Hrun & Hregs & Hk & _); cycle 4.
  - exists st. split; [exact Hrun|]. split; [destruct b; reflexivity|].
    cbn [n_regs] in Hregs, Hk. split; [lia|].
    intros k Hk'. apply Hk. lia.
  - cbn [variables]. intros k Hk. apply Hvars. lia.
  - intros k k' Hk Hk'. apply Hdistinct; lia.
  - cbn [n_regs]. lia32.
  - cbn [n_regs]. lia.
Qed.

Lemma register_numbering_witness :
  exists st,
    jitc_assemble sizes bump sample_schedule CUDA (sample_vars CUDA) false
                  {| g_size := 10; g_start := 0; g_end := 4 |} = Ok st
    /\ reserved CUDA = 4
    /\ n_regs st = reserved CUDA + (4 - 0)
    /\ forall k, 0 <= k < 4 - 0 ->
                 exists v, variables st !! index_at sample_schedule (0 + k) = Some v
                           /\ reg_index v = reserved CUDA + k.
Proof.
  apply (register_numbering sizes bump sample_schedule CUDA (sample_vars CUDA) false
                            {| g_size := 10; g_start := 0; g_end := 4 |}).
  - cbn. lia.
  - reflexivity.
  - reflexivity.
  - cbn [g_start g_end g_size]. intros k Hk.
    assert (k = 0 \/ k = 1 \/ k = 2 \/ k = 3) as [->|[->|[->| ->]]] by lia;
      eexists; split; vm_compute; reflexivity.
  - cbn [g_start g_end g_size]. intros k k' Hk Hk'.
    assert (k = 0 \/ k = 1 \/ k = 2) as [->|[->| ->]] by lia;
      assert (k' = 1 \/ k' = 2 \/ k' = 3) as [->|[->| ->]] by lia;
      try lia; vm_compute; discriminate.
Defined.

End AssembleFacts.

Module LoopFacts.
Import LoopBuilder.

(** [Loop loop ("MyLoop", x, y); loop.cond (m); loop.cond (m')] on the sample:
    true, then false and one loop node, then a fault. *)
Example two_conds :
  let '(l1, w1, r1) := run_init sample_loop sample_world in
  let '(l2, w2, r2) := run_cond 7 l1 w1 in
  let '(l3, w3, r3) := run_cond 8 l2 w2 in
  let '(l4, w4, r4) := run_cond 9 l3 w3 in
  (r1, r2, r3, r4) = (Ok tt, Ok true, Ok false, Raise invalid_state)
  /\ m_index_body l2 = [12; 13]
  /\ List.map ln_body (emitted w3) = [[12; 13]]
  /\ (slots w3 !! 100, slots w3 !! 104) = (Some 14, Some 15)
  /\ postpone_side_effects w2 = 1 /\ postpone_side_effects w3 = 0.
Proof. vm_compute. repeat split; reflexivity. Qed.


Section Protocol.
Context {J : Type}.
Variable jit_var_new_placeholder : Z -> J -> Z * J.
Variable jit_var_dec_ref_ext : Z -> J -> J.
Variable jit_var_loop : LoopNode -> J -> list Z * J.
Variable jit_side_effects_scheduled : J -> Z.
Variable jit_side_effects_rollback : Z -> J -> J.
Variable jit_var_mask_pop : J -> J.
Variable cond_wavefront : Z -> Loop -> World J -> result J bool.

Lemma step_keeps ps :
  forall w : World J,
    postpone_side_effects (fold_left (step_one jit_var_new_placeholder jit_var_dec_ref_ext) ps w)
    = postpone_side_effects w
    /\ emitted (fold_left (step_one jit_var_new_placeholder jit_var_dec_ref_ext) ps w)
       = emitted w
    /\ warnings (fold_left (step_one jit_var_new_placeholder jit_var_dec_ref_ext) ps w)
       = warnings w.
Proof.
  induction ps as [|p ps IH]; intros w; cbn [fold_left]; [auto|].
  destruct (IH (step_one jit_var_new_placeholder jit_var_dec_ref_ext w p)) as (H1 & H2 & H3).
  rewrite H1, H2, H3. unfold step_one.
  destruct (jit_var_new_placeholder (slot w p) (jit w)). auto.
Qed.


Lemma write_back_other ps out p :
  forall i (w : World J),
    ~ In p ps -> slots (write_back jit_var_dec_ref_ext ps out i w) !! p = slots w !! p.
Proof.
  induction ps as [|q ps IH]; intros i w Hp; [reflexivity|].
  cbn [write_back]. rewrite IH by (intros H; apply Hp; right; exact H).
  cbn [set_slot slots]. apply lookup_insert_ne. intros ->. apply Hp. left. reflexivity.
Qed.







Lemma init_spec l (w : World J) l1 w1 r1 :
  m_record l = true -> m_state l = 0 ->
  init jit_var_new_placeholder jit_var_dec_ref_ext jit_side_effects_scheduled l w = (l1, w1, r1) ->
  r1 = Ok tt
  /\ w1 = set_flag (step jit_var_new_placeholder jit_var_dec_ref_ext l w) 1
                   (jit (step jit_var_new_placeholder jit_var_dec_ref_ext l w))
  /\ m_state l1 = 1 /\ m_record l1 = true /\ m_index_p l1 = m_index_p l
  /\ m_index_body l1 = m_index_body l /\ m_index_out l1 = m_index_out l
  /\ m_se_flag l1 = postpone_side_effects (step jit_var_new_placeholder jit_var_dec_ref_ext l w)
  /\ m_se_offset l1
     = jit_side_effects_scheduled (jit (step jit_var_new_placeholder jit_var_dec_ref_ext l w)).
Proof.
  intros Hrec Hstate. unfold init. rewrite Hstate, Hrec. cbn [Z.eqb negb].
  intros H. injection H as <- <- <-. repeat split; reflexivity.
Qed.

Lemma first_cond_spec c l (w : World J) l2 w2 r2 :
  m_record l = true -> m_state l = 1 ->
  cond jit_var_new_placeholder jit_var_dec_ref_ext jit_var_loop cond_wavefront c l w
  = (l2, w2, r2) ->
  r2 = Ok true
  /\ w2 = fold_left (step_one jit_var_new_placeholder jit_var_dec_ref_ext) (m_index_p l) w
  /\ m_state l2 = 2 /\ m_record l2 = true /\ m_cond l2 = c /\ m_name l2 = m_name l
  /\ m_index_p l2 = m_index_p l
  /\ m_index_body l2 = m_index_body l ++ List.map (slot w2) (m_index_p l)
  /\ m_index_out l2 = m_index_out l
  /\ m_se_flag l2 = m_se_flag l /\ m_se_offset l2 = m_se_offset l.
Proof.
  intros Hrec Hstate. unfold cond, cond_record. rewrite Hrec, Hstate.
  change (u32 (1 + 1)) with 2. cbn [Z.eqb Pos.eqb].
  intros H. injection H as <- <- <-. repeat split; try reflexivity. exact Hrec.
Qed.


End Protocol.




End LoopFacts.

Module ErrorFacts.
Import PrefixSum Compress Reduce Block Mkperm LoopBuilder.

(** A loop whose first variable has ten entries. *)
Example ten_entries :
  m_size (fst (fst (run_put 100 10 (new_loop "MyLoop" true) sample_world))) = 10.
Proof. reflexivity. Qed.

(** A raising [jitc_reduce_create] makes the host path of [jitc_reduce]
    raise, whatever the size. *)
Lemma reduce_raises fop fid ps bs cuda uninit fuel type op ptr size msg :
  jitc_reduce_create fop fid type op = Raise msg ->
  jitc_reduce fop fid ps bs cuda uninit (S fuel) LLVM type op ptr size = Raise msg.
Proof.
  intros H. cbn [jitc_reduce].
  destruct (block_config ps bs size) as [block_size blocks].
  rewrite H. reflexivity.
Qed.

(** The host path of [jitc_reduce] on an empty array: one work unit over
    the empty range. *)
Lemma reduce_empty fop fid ps bs cuda uninit fuel type op ptr r :
  (1 < ps -> 0 < bs <= 2 ^ 32) ->
  jitc_reduce_create fop fid type op = Ok r ->
  jitc_reduce fop fid ps bs cuda uninit (S fuel) LLVM type op ptr 0 = Ok (r ptr 0 0).
Proof.
  intros Hbs H. cbn [jitc_reduce]. unfold block_config.
  destruct (Z.ltb_spec 1 ps) as [Hps|Hps].
  - specialize (Hbs Hps). rewrite H. cbn [mbind outcome_bind obind].
    replace (u32 (0 + bs - 1) / bs) with 0.
    2:{ rewrite u32_small by lia32. symmetry. apply Z.div_small. lia. }
    change (Z.max 1 0) with 1. change (1 <? 0) with false.
    unfold jitc_submit_cpu. change (Z.to_nat 1) with 1%nat.
    cbn [submit_aux mbind outcome_bind obind]. unfold upd. cbn [Z.eqb].
    replace ((0 + 1) * bs) with bs by lia.
    change (u32 (0 * bs)) with 0.
    replace (Z.min (u32 bs) 0) with 0 by (pose proof (u32_range bs); lia).
    reflexivity.
  - rewrite H. reflexivity.
Qed.

Lemma block_copy_unsupported ps bs tsz cpy cuda type in_ out size block_size m :
  block_size <> 0 -> block_size <> 1 ->
  Block.supported (make_int_type_unsigned type) = false ->
  jitc_block_copy ps bs tsz cpy cuda LLVM type in_ out size block_size m
  = Raise copy_unsupported.
Proof.
  intros H0 H1 Hs. unfold jitc_block_copy.
  destruct (Z.eqb_spec block_size 0) as [?|_]; [contradiction|].
  destruct (Z.eqb_spec block_size 1) as [?|_]; [contradiction|].
  destruct type; try discriminate Hs; unfold block_copy_run;
    destruct (block_config ps bs size); reflexivity.
Qed.

Lemma block_sum_unsupported ps bs tsz cpy cuda type in_ out size block_size m :
  block_size <> 0 -> block_size <> 1 ->
  Block.supported (make_int_type_unsigned type) = false ->
  jitc_block_sum ps bs tsz cpy cuda LLVM type in_ out size block_size m
  = Raise sum_unsupported.
Proof.
  intros H0 H1 Hs. unfold jitc_block_sum.
  destruct (Z.eqb_spec block_size 0) as [?|_]; [contradiction|].
  destruct (Z.eqb_spec block_size 1) as [?|_]; [contradiction|].
  destruct type; try discriminate Hs; unfold block_sum_run;
    destruct (block_config ps bs size); reflexivity.
Qed.

Lemma prefix_sum_unsupported ps bs cuda uninit fuel vt exclusive in_ size out m :
  (1 < ps -> 2 <= bs) ->
  0 < size < 2 ^ 32 -> (1 < ps -> size + bs <= 2 ^ 32) ->
  PrefixSum.supported (normalised vt) = false ->
  jitc_prefix_sum ps bs cuda uninit (S fuel) LLVM vt exclusive in_ size out m
  = Raise not_supported.
Proof.
  intros Hcfg Hsize Hovf Hs.
  destruct vt; try discriminate Hs; unfold jitc_prefix_sum;
    apply PrefixSumFacts.body_raises; auto; intros; reflexivity.
Qed.

Lemma prefix_sum_empty ps bs cuda uninit fuel backend vt exclusive in_ out m :
  jitc_prefix_sum ps bs cuda uninit (S fuel) backend vt exclusive in_ 0 out m = Ok m.
Proof. destruct vt; reflexivity. Qed.

(** C1, as stated, fails: a call of [jitc_prefix_sum], of [jitc_compress]
    or of [jitc_mkperm] on zero elements returns at once, without any
    fault. *)
Lemma zero_size_is_not_rejected :
  is_raise (jitc_prefix_sum 1 16384 PrefixSum.no_cuda zeroed 1 LLVM UInt32 true 0 0 0
                            (zeroed UInt32)) = false
  /\ is_raise (jitc_compress 1 16384 PrefixSum.no_cuda Compress.no_cuda zeroed 1 LLVM
                             (bytes []) 0 (zeroed UInt32)) = false
  /\ is_raise (snd (jitc_mkperm no_run LLVM 0 0 4 0 0 (zeroed UInt32))) = false.
Proof. repeat split. Qed.

(** C1, amended. An element count of zero is no fault: [jitc_prefix_sum],
    [jitc_compress] and [jitc_mkperm] return at once, the memory untouched
    and the count zero, and the host path of [jitc_reduce] stores the
    result of the reduction over the empty range. What is rejected with a
    raised fault is a block size of zero in [jitc_block_copy] and
    [jitc_block_sum], and, on the host paths, an unsupported combination:
    a type or an operation [jitc_reduce_create] has no case for (for every
    size), a type other than UInt32, UInt64, Float32, Float64 after the
    Int32 conversion in [jitc_prefix_sum] on a non-empty array whose size
    plus the worker block size stays within [2^32] when several workers
    run, and a type other than UInt8/16/32/64, Float32, Float64 after
    [make_int_type_unsigned] in the block operations with a block size
    above one. With several workers, the worker block size is between 2
    and [2^32]. *)
Theorem primitive_guards :
  forall ps bs,
    (1 < ps -> 2 <= bs <= 2 ^ 32) ->
    (forall cuda uninit fuel backend vt exclusive in_ out m,
        jitc_prefix_sum ps bs cuda uninit (S fuel) backend vt exclusive in_ 0 out m = Ok m)
    /\ (forall cuda_ps cuda_c uninit fuel backend in_ out,
           jitc_compress ps bs cuda_ps cuda_c uninit fuel backend in_ 0 out = Ok (0, out))
    /\ (forall (St : Type) (run : JitBackend -> Z -> Z -> Z -> Z -> Z -> St -> St * outcome Z)
               backend ptr bucket_count perm offsets s,
           jitc_mkperm run backend ptr 0 bucket_count perm offsets s = (s, Ok 0))
    /\ (forall fop fid cuda uninit fuel type op ptr r,
           jitc_reduce_create fop fid type op = Ok r ->
           jitc_reduce fop fid ps bs cuda uninit (S fuel) LLVM type op ptr 0
           = Ok (r ptr 0 0))
    /\ (forall tsz cpy cuda backend type in_ out size m,
           jitc_block_copy ps bs tsz cpy cuda backend type in_ out size 0 m
           = Raise copy_zero)
    /\ (forall tsz cpy cuda backend type in_ out size m,
           jitc_block_sum ps bs tsz cpy cuda backend type in_ out size 0 m
           = Raise sum_zero)
    /\ (forall fop fid cuda uninit fuel type op ptr size,
           (type = Void \/ type = Bool \/ type = Pointer ->
            jitc_reduce fop fid ps bs cuda uninit (S fuel) LLVM type op ptr size
            = Raise unsupported_type)
           /\ (type <> Void -> type <> Bool -> type <> Pointer -> op = RNone ->
               jitc_reduce fop fid ps bs cuda uninit (S fuel) LLVM type op ptr size
               = Raise unsupported_op))
    /\ (forall cuda uninit fuel vt exclusive in_ size out m,
           0 < size < 2 ^ 32 -> (1 < ps -> size + bs <= 2 ^ 32) ->
           PrefixSum.supported (normalised vt) = false ->
           jitc_prefix_sum ps bs cuda uninit (S fuel) LLVM vt exclusive in_ size out m
           = Raise not_supported)
    /\ (forall tsz cpy cuda type in_ out size block_size m,
           block_size <> 0 -> block_size <> 1 ->
           Block.supported (make_int_type_unsigned type) = false ->
           jitc_block_copy ps bs tsz cpy cuda LLVM type in_ out size block_size m
           = Raise copy_unsupported
           /\ jitc_block_sum ps bs tsz cpy cuda LLVM type in_ out size block_size m
              = Raise sum_unsupported).
Proof.
  intros ps bs Hcfg.
  split; [intros; apply prefix_sum_empty|].
  split; [reflexivity|].
  split; [reflexivity|].
  split; [intros; apply reduce_empty; [intros Hps; specialize (Hcfg Hps); lia|assumption]|].
  split; [reflexivity|].
  split; [reflexivity|].
  split.
  { intros fop fid cuda uninit fuel type op ptr size. split.
    - intros [->|[->| ->]]; apply reduce_raises; reflexivity.
    - intros H1 H2 H3 ->. apply reduce_raises.
      destruct type; try congruence; reflexivity. }
  split.
  { intros. apply prefix_sum_unsupported; try assumption.
    intros Hps. specialize (Hcfg Hps). lia. }
  intros. split; [apply block_copy_unsupported|apply block_sum_unsupported]; assumption.
Qed.

(** One worker: a Bool array of three elements in [jitc_prefix_sum], a
    Bool reduction of five elements, a block copy of Bool with blocks of
    two, and the sum of an empty UInt32 array. *)
Lemma primitive_guards_witness :
  jitc_prefix_sum 1 16384 PrefixSum.no_cuda zeroed 1 LLVM Bool true 0 3 0 (zeroed Bool)
  = Raise not_supported
  /\ jitc_reduce no_float_op no_float_identity 1 16384 Reduce.no_cuda garbage 1 LLVM
                 Bool Add garbage 5 = Raise unsupported_type
  /\ jitc_block_copy 1 16384 Block.sizes no_memcpy Block.no_cuda LLVM Bool 0 8 4 2
                     (zeroed Bool) = Raise copy_unsupported
  /\ jitc_reduce no_float_op no_float_identity 1 16384 Reduce.no_cuda garbage 1 LLVM
                 UInt32 Add garbage 0 = Ok 0.
Proof.
  assert (Hcfg : 1 < 1 -> 2 <= 16384 <= 2 ^ 32) by (intros H; lia).
  destruct (primitive_guards 1 16384 Hcfg)
    as (_ & _ & _ & Hempty & _ & _ & Hreduce & Hprefix & Hblock).
  split.
  { apply Hprefix; [lia32|intros H; lia|reflexivity]. }
  split.
  { apply (proj1 (Hreduce no_float_op no_float_identity Reduce.no_cuda garbage 0%nat
                          Bool Add garbage 5)).
    right. left. reflexivity. }
  split.
  { apply (Hblock Block.sizes no_memcpy Block.no_cuda Bool 0 8 4 2 (zeroed Bool));
      [discriminate|discriminate|reflexivity]. }
  apply (Hempty no_float_op no_float_identity Reduce.no_cuda garbage 0%nat UInt32 Add garbage
                (reduce_loop 0 (fun a b => (a + b) mod 2 ^ 32))).
  reflexivity.
Defined.

(** C6, as stated, fails for [Loop::put]: the call that raises has already
    appended the variable to [m_index_p] and [m_index_in]. *)
Lemma put_failure_leaves_variable :
  snd (run_put 104 5 (fst (fst (run_put 100 10 (new_loop "MyLoop" true) sample_world)))
               sample_world) = Raise inconsistent_sizes
  /\ fst (fst (run_put 104 5 (fst (fst (run_put 100 10 (new_loop "MyLoop" true) sample_world)))
                       sample_world))
     <> fst (fst (run_put 100 10 (new_loop "MyLoop" true) sample_world)).
Proof.
  split; [reflexivity|].
  intros H. apply (f_equal m_index_p) in H. vm_compute in H. discriminate H.
Qed.

(** C6, amended. Each of the three contract violations ends the faulty call
    at once with its message: [Loop::put] with a size that is neither one
    nor the size of the loop raises, having appended the slot and the
    identifier of the variable to [m_index_p] and [m_index_in] and nothing
    else: the other members and the world are as before;
    [jitc_memset_async] with an element size other than 1, 2, 4, 8 raises
    and leaves the memory as it was; [jitc_mkperm] on a non-empty array with
    a bucket count of zero fails fatally and leaves the state as it was. *)
Theorem contract_violations_fail :
  (forall (J : Type) p size l (w : World J),
      m_size l <> 0 -> size <> 1 -> size <> m_size l ->
      put p size l w
      = ({| m_name := m_name l; m_index_in := m_index_in l ++ [slot w p];
            m_index_body := m_index_body l; m_index_out := m_index_out l;
            m_index_p := m_index_p l ++ [p]; m_cond := m_cond l;
            m_state := m_state l; m_se_offset := m_se_offset l;
            m_se_flag := m_se_flag l; m_size := m_size l; m_record := m_record l |},
         w, Raise inconsistent_sizes))
  /\ (forall m ptr size_ isize src,
         isize <> 1 -> isize <> 2 -> isize <> 4 -> isize <> 8 ->
         jitc_memset_async m ptr size_ isize src = (m, Raise invalid_element_size))
  /\ (forall (St : Type) (run : JitBackend -> Z -> Z -> Z -> Z -> Z -> St -> St * outcome Z)
             backend ptr size perm offsets s,
         size <> 0 ->
         jitc_mkperm run backend ptr size 0 perm offsets s = (s, Fail bucket_count_zero)).
Proof.
  split; [|split].
  - intros J p size l w H0 H1 H2. unfold put.
    destruct (Z.eqb_spec (m_size l) 0) as [?|_]; [contradiction|].
    destruct (Z.eqb_spec size 1) as [?|_]; [contradiction|].
    destruct (Z.eqb_spec size (m_size l)) as [?|_]; [contradiction|].
    reflexivity.
  - intros m ptr size_ isize src H1 H2 H4 H8. unfold jitc_memset_async.
    destruct (Z.eqb_spec isize 1) as [?|_]; [contradiction|].
    destruct (Z.eqb_spec isize 2) as [?|_]; [contradiction|].
    destruct (Z.eqb_spec isize 4) as [?|_]; [contradiction|].
    destruct (Z.eqb_spec isize 8) as [?|_]; [contradiction|].
    reflexivity.
  - intros St run backend ptr size perm offsets s Hsize. unfold jitc_mkperm.
    destruct (Z.eqb_spec size 0) as [?|_]; [contradiction|]. reflexivity.
Qed.

(** A second variable of five entries for a loop of ten, an element size of
    three, and no buckets for four elements. *)
Lemma contract_violations_fail_witness :
  snd (run_put 104 5 (fst (fst (run_put 100 10 (new_loop "MyLoop" true) sample_world)))
               sample_world) = Raise inconsistent_sizes
  /\ jitc_memset_async garbage 0 4 3 1 = (garbage, Raise invalid_element_size)
  /\ jitc_mkperm no_run LLVM 0 4 0 0 0 (zeroed UInt32)
     = (zeroed UInt32, Fail bucket_count_zero).
Proof.
  destruct contract_violations_fail as (Hput & Hmemset & Hmkperm).
  split.
  { unfold run_put. rewrite Hput; [reflexivity|discriminate|discriminate|discriminate]. }
  split.
  { apply Hmemset; discriminate. }
  apply Hmkperm. discriminate.
Defined.

End ErrorFacts.

Module RunFacts.
Import Run.

Example out_of_memory_once :
  jitc_run_load scripted no_trim {| driver := [2; 0]; calls := [] |}
  = ({| driver := []; calls := [ModuleLoadData 2; MallocTrim; ModuleLoadData 0] |}, Ok tt).
Proof. reflexivity. Qed.

Example out_of_memory_twice :
  jitc_run_load scripted no_trim {| driver := [2; 2; 0]; calls := [] |}
  = ({| driver := [0]; calls := [ModuleLoadData 2; MallocTrim; ModuleLoadData 2] |},
     Fail "cuda_check(): API error").
Proof. reflexivity. Qed.

Lemma cuda_check_error r : r <> CUDA_SUCCESS -> is_fail (cuda_check r) = true.
Proof.
  intros H. unfold cuda_check. destruct (Z.eqb_spec r CUDA_SUCCESS); [contradiction|reflexivity].
Qed.

(** C9. The module is loaded once; when that load returns out-of-memory,
    and only then, the allocator is trimmed once and the module is loaded a
    second time, and no further call follows. The call returns normally
    when the last load succeeded; an error of the first load other than
    out-of-memory, and any error of the second load, is fatal. *)
Theorem module_load_retries_once :
  forall (D : Type) (cuModuleLoadData : D -> CUresult * D)
         (jitc_malloc_trim : bool -> bool -> D -> D) (w : world D),
  exists w' r r1,
    jitc_run_load cuModuleLoadData jitc_malloc_trim w = (w', r)
    /\ r1 = fst (cuModuleLoadData (driver w))
    /\ (r1 <> CUDA_ERROR_OUT_OF_MEMORY ->
        calls w' = calls w ++ [ModuleLoadData r1]
        /\ driver w' = snd (cuModuleLoadData (driver w))
        /\ (r1 = CUDA_SUCCESS -> r = Ok tt)
        /\ (r1 <> CUDA_SUCCESS -> is_fail r = true))
    /\ (r1 = CUDA_ERROR_OUT_OF_MEMORY ->
        exists r2,
          r2 = fst (cuModuleLoadData
                      (jitc_malloc_trim true true (snd (cuModuleLoadData (driver w)))))
          /\ calls w' = calls w ++ [ModuleLoadData r1; MallocTrim; ModuleLoadData r2]
          /\ (r2 = CUDA_SUCCESS -> r = Ok tt)
          /\ (r2 <> CUDA_SUCCESS -> is_fail r = true)).
Proof.
  intros D cuModuleLoadData jitc_malloc_trim w.
  unfold jitc_run_load, load, trim.
  destruct (cuModuleLoadData (driver w)) as [r1 d1] eqn:E1. cbn [fst snd driver calls].
  destruct (Z.eqb_spec r1 CUDA_ERROR_OUT_OF_MEMORY) as [Hoom|Hoom].
  - destruct (cuModuleLoadData (jitc_malloc_trim true true d1)) as [r2 d2] eqn:E2.
    eexists _, _, r1. split; [reflexivity|]. split; [reflexivity|].
    split; [intros H; contradiction|]. intros _. exists r2. cbn [calls fst].
    split; [reflexivity|]. split.
    { rewrite <- !app_assoc. reflexivity. }
    split; [intros ->; reflexivity|apply cuda_check_error].
  - eexists _, _, r1. split; [reflexivity|]. split; [reflexivity|].
    split; [|intros H; contradiction]. intros _. cbn [calls driver].
    split; [reflexivity|]. split; [reflexivity|].
    split; [intros ->; reflexivity|apply cuda_check_error].
Qed.

(** A driver that is out of memory once, and one that stays so. *)
Lemma module_load_retries_once_witness :
  calls (fst (jitc_run_load scripted no_trim {| driver := [2; 0]; calls := [] |}))
  = [ModuleLoadData 2; MallocTrim; ModuleLoadData 0]
  /\ snd (jitc_run_load scripted no_trim {| driver := [2; 0]; calls := [] |}) = Ok tt
  /\ is_fail (snd (jitc_run_load scripted no_trim {| driver := [2; 2]; calls := [] |})) = true.
Proof.
  destruct (module_load_retries_once (list CUresult) scripted no_trim
                                     {| driver := [2; 0]; calls := [] |})
    as (w' & r & r1 & Hrun & Hr1 & _ & Hoom).
  cbn in Hr1. destruct (Hoom Hr1) as (r2 & Hr2 & Hcalls & Hok & _).
  cbn in Hr2. rewrite Hrun. cbn [fst snd].
  split; [rewrite Hcalls, Hr1, Hr2; reflexivity|].
  split; [apply Hok; rewrite Hr2; reflexivity|].
  destruct (module_load_retries_once (list CUresult) scripted no_trim
                                     {| driver := [2; 2]; calls := [] |})
    as (w'' & r' & r1' & Hrun' & Hr1' & _ & Hoom').
  cbn in Hr1'. destruct (Hoom' Hr1') as (r2' & Hr2' & _ & _ & Hfail).
  rewrite Hrun'. cbn [snd]. apply Hfail. rewrite Hr2'. discriminate.
Defined.

End RunFacts.

Module ScanFacts.
Import PrefixSum.

(** The output of the host path for unsigned integers of [w] bits, cell by
    cell, and the cells it leaves alone. *)
Lemma unsigned_scan w ps bs cuda uninit fuel exclusive in_ size out (m : mem Z) :
  0 <= w ->
  (1 < ps -> 2 <= bs) ->
  0 < size < 2 ^ 32 -> (1 < ps -> size + bs <= 2 ^ 32) -> size <= Z.of_nat fuel ->
  (out = in_ \/ out + size <= in_ \/ in_ + size <= out) ->
  exists s,
    prefix_sum_body ps bs
      (fun s e i idx m sc => Ok (sum_reduce_1_T (modular_arith w) s e i idx m sc))
      (fun s e i o idx sc ex m => Ok (sum_reduce_2_T (modular_arith w) s e i o idx sc ex m))
      cuda uninit fuel LLVM exclusive in_ size out m = Ok s
    /\ (forall i, 0 <= i < size ->
                  s (out + i) = scan w exclusive (fun j => m (in_ + j)) i)
    /\ (forall x, ~ (out <= x < out + size) -> s x = m x).
Proof.
  intros Hw Hcfg Hsize Hovf Hfuel Halias.
  exact (PrefixSumFacts.body_spec w Hw ps bs cuda uninit Hcfg fuel exclusive in_ size out m
                                  Hsize Hovf Hfuel Halias).
Qed.

(** X1. On the host path, for a non-empty array of UInt32, Int32 or UInt64
    and an output that is the input itself or disjoint from it, with one
    worker, or with several workers and a worker block size [bs >= 2] such
    that [size + bs <= 2^32]: cell [i] of the output of [jitc_prefix_sum]
    is the sum of the inputs before [i] (exclusive) or up to and including
    [i] (inclusive), reduced modulo [2^32], respectively [2^64]; every cell
    outside the output range keeps its value. *)
Theorem prefix_sum_values :
  forall ps bs cuda uninit fuel exclusive in_ size out (m : mem Z),
    (1 < ps -> 2 <= bs) ->
    0 < size < 2 ^ 32 -> (1 < ps -> size + bs <= 2 ^ 32) -> size <= Z.of_nat fuel ->
    (out = in_ \/ out + size <= in_ \/ in_ + size <= out) ->
    (exists s, jitc_prefix_sum ps bs cuda uninit fuel LLVM UInt32 exclusive in_ size out m = Ok s
               /\ (forall i, 0 <= i < size ->
                             s (out + i)
                             = rsum (fun j => m (in_ + j)) 0
                                    (Z.to_nat (if exclusive then i else i + 1)) mod 2 ^ 32)
               /\ (forall x, ~ (out <= x < out + size) -> s x = m x))
    /\ (exists s, jitc_prefix_sum ps bs cuda uninit fuel LLVM Int32 exclusive in_ size out m = Ok s
                  /\ (forall i, 0 <= i < size ->
                                s (out + i)
                                = rsum (fun j => m (in_ + j)) 0
                                       (Z.to_nat (if exclusive then i else i + 1)) mod 2 ^ 32)
                  /\ (forall x, ~ (out <= x < out + size) -> s x = m x))
    /\ (exists s, jitc_prefix_sum ps bs cuda uninit fuel LLVM UInt64 exclusive in_ size out m = Ok s
                  /\ (forall i, 0 <= i < size ->
                                s (out + i)
                                = rsum (fun j => m (in_ + j)) 0
                                       (Z.to_nat (if exclusive then i else i + 1)) mod 2 ^ 64)
                  /\ (forall x, ~ (out <= x < out + size) -> s x = m x)).
Proof.
  intros ps bs cuda uninit fuel exclusive in_ size out m Hcfg Hsize Hovf Hfuel Halias.
  split; [|split].
  - apply (unsigned_scan 32 ps bs (cuda UInt32) (uninit UInt32)); auto; lia.
  - apply (unsigned_scan 32 ps bs (cuda UInt32) (uninit UInt32)); auto; lia.
  - apply (unsigned_scan 64 ps bs (cuda UInt64) (uninit UInt64)); auto; lia.
Qed.

(** The inclusive scan of [5, 6, 7] into the three cells that follow it, on
    blocks of two elements. *)
Lemma prefix_sum_values_witness :
  exists s, jitc_prefix_sum 4 2 no_cuda zeroed 3 LLVM UInt32 false 0 3 3 (of_list 0 [5; 6; 7])
            = Ok s
            /\ (forall i, 0 <= i < 3 ->
                          s (3 + i)
                          = rsum (fun j => of_list 0 [5; 6; 7] (0 + j)) 0
                                 (Z.to_nat (if false then i else i + 1)) mod 2 ^ 32)
            /\ (forall x, ~ (3 <= x < 3 + 3) -> s x = of_list 0 [5; 6; 7] x).
Proof.
  refine (proj1 (prefix_sum_values 4 2 no_cuda zeroed 3 false 0 3 3 (of_list 0 [5; 6; 7])
                                   _ _ _ _ _)).
  - intros _. lia.
  - split; [lia|reflexivity].
  - intros _. vm_compute. discriminate.
  - lia.
  - right. right. lia.
Defined.

End ScanFacts.

Module CompactionFacts.
Import PrefixSum Compress.
Import PrefixSumFacts CompressFacts.

(** The output of the host path of [jitc_compress]: the index of a set byte
    is stored at the position given by the number of set bytes before
    it. *)
Lemma compress_rank ps bs cuda_ps cuda_c uninit fuel (b : Z -> Z) size out :
  (1 < ps -> 2 <= bs) ->
  0 < size < 2 ^ 32 -> (1 < ps -> size + bs <= 2 ^ 32) -> size <= Z.of_nat fuel ->
  (forall i, 0 <= i < size -> b i = 0 \/ b i = 1) ->
  exists out',
    jitc_compress ps bs cuda_ps cuda_c uninit fuel LLVM b size out
    = Ok (rsum b 0 (Z.to_nat size), out')
    /\ (forall j, 0 <= j < size -> b j = 1 -> out' (rsum b 0 (Z.to_nat j)) = j)
    /\ (forall x, ~ (0 <= x < rsum b 0 (Z.to_nat size)) -> out' x = out x).
Proof.
  intros Hcfg Hsize Hovf Hfuel Hb.
  unfold jitc_compress. destruct (Z.eqb_spec size 0) as [?|_]; [lia|].
  destruct (block_geometry ps bs size Hcfg Hsize Hovf)
    as (bsz & blocks & -> & Hbsz & Hlast & Hcover & Hmax & Hb1 & Hb2).
  set (c := fun j => rsum b 0 (Z.to_nat j)).
  assert (Hfinish : forall scratch : option (mem Z),
             (forall k, 0 <= k < blocks ->
                        match scratch with Some sc => sc k | None => 0 end = c (k * bsz)) ->
             exists out',
               (r ← jitc_submit_cpu
                      (fun index s =>
                         let '(start, end_) := block_range bsz size index in
                         Ok (write_block b size start end_ index scratch s))
                      blocks (out, 0);
                Ok (snd r, fst r)) = Ok (c size, out')
               /\ (forall j, 0 <= j < size -> b j = 1 -> out' (c j) = j)
               /\ (forall x, ~ (0 <= x < c size) -> out' x = out x)).
  { intros scratch Hbase. unfold jitc_submit_cpu.
    rewrite (submit_aux_ok _ (fun index s =>
                                write_block b size (fst (block_range bsz size index))
                                            (snd (block_range bsz size index))
                                            index scratch s)).
    2:{ intros j s' _. destruct (block_range bsz size j). reflexivity. }
    cbn [mbind outcome_bind obind].
    destruct (write_blocks b size Hsize Hb bsz blocks scratch (Z.to_nat blocks)
                           Hbsz Hlast Hcover Hmax Hbase 0 out 0 ltac:(lia) ltac:(lia))
      as (H1 & H2 & H3).
    eexists. split; [rewrite H3 by lia; reflexivity|]. split.
    - intros j Hj Hbj. apply H1; [lia|exact Hbj].
    - intros x Hx. apply H2. rewrite Z.mul_0_l, Z.min_l by lia.
      change (rsum b 0 (Z.to_nat 0)) with 0. exact Hx. }
  destruct (Z.ltb_spec 1 blocks) as [Hblocks|Hblocks].
  - destruct (Hb2 Hblocks) as [Hlt ->].
    set (val := fun idx => rsum b (idx * bs)
                             (Z.to_nat (Z.min (idx * bs + bs) size - idx * bs)) mod 2 ^ 32).
    set (sc := iter_up (Z.to_nat blocks) 0 (fun idx sc => upd sc idx (val idx)) (uninit UInt32)).
    assert (Hp1 : jitc_submit_cpu
                    (fun index sc0 =>
                       let '(start, end_) := block_range bs size index in
                       Ok (count_block b start end_ index sc0)) blocks (uninit UInt32)
                  = Ok sc).
    { unfold jitc_submit_cpu. apply submit_aux_ok.
      intros j s' Hj. assert (0 <= j * bs < size) by nia.
      assert (j * bs + bs <= blocks * bs) by nia.
      rewrite block_range_spec by lia32. unfold count_block.
      rewrite for_u32_iter_up by lia32.
      rewrite (accumulate_range 32 ltac:(lia) b) by lia32. reflexivity. }
    rewrite Hp1. cbn [mbind outcome_bind obind].
    destruct (body_spec 32 ltac:(lia) ps bs (cuda_ps UInt32) (uninit UInt32) Hcfg fuel
                        true 0 blocks 0 sc) as (sc' & Hrec & Hsc' & _);
      [lia32|intros; lia|lia|lia|].
    change (jitc_prefix_sum ps bs cuda_ps uninit fuel LLVM UInt32 true 0 blocks 0 sc)
      with (prefix_sum_body ps bs
              (fun s e i idx m sc => Ok (sum_reduce_1_T (modular_arith 32) s e i idx m sc))
              (fun s e i o idx sc ex m =>
                 Ok (sum_reduce_2_T (modular_arith 32) s e i o idx sc ex m))
              (cuda_ps UInt32) (uninit UInt32) fuel LLVM true 0 blocks 0 sc).
    rewrite Hrec. cbn [mbind outcome_bind obind].
    apply Hfinish. intros k Hk.
    rewrite <- (Z.add_0_l k) at 1. rewrite Hsc' by lia. unfold scan.
    transitivity (rsum b 0 (Z.to_nat (Z.of_nat (Z.to_nat k) * bs)) mod 2 ^ 32).
    + apply block_sums; [lia|lia|].
      intros k' Hk'. cbv beta. rewrite Z.add_0_l. subst sc.
      destruct (iter_up_upd val (Z.to_nat blocks) 0 (uninit UInt32)) as [Hval _].
      rewrite Hval by lia. subst val. cbv beta.
      rewrite Z.mod_mod by lia.
      replace (Z.min (k' * bs + bs) size - k' * bs) with bs by nia. reflexivity.
    + rewrite Z2Nat.id by lia. apply Z.mod_small.
      pose proof (c_bounds b size Hb (k * bs) ltac:(nia)) as Hcb.
      subst c. cbv beta in *. assert (k * bs <= size) by nia. lia32.
  - cbn [mbind outcome_bind obind]. apply Hfinish.
    intros k Hk. assert (k = 0) as -> by lia. reflexivity.
Qed.

(** X2. On the host path, for a non-empty mask of bytes 0 or 1, with one
    worker, or with several workers and a worker block size [bs >= 2] such
    that [size + bs <= 2^32], [jitc_compress] keeps every set byte and its
    order: the index [j] of a set byte is stored at position "number of set
    bytes before [j]", so it occurs in the output within the returned
    count; and the cells of [out] at and beyond the returned count keep
    their value. *)
Theorem compress_complete :
  forall ps bs cuda_ps cuda_c uninit fuel (b : Z -> Z) size out,
    (1 < ps -> 2 <= bs) ->
    0 < size < 2 ^ 32 -> (1 < ps -> size + bs <= 2 ^ 32) -> size <= Z.of_nat fuel ->
    (forall i, 0 <= i < size -> b i = 0 \/ b i = 1) ->
    exists count out',
      jitc_compress ps bs cuda_ps cuda_c uninit fuel LLVM b size out = Ok (count, out')
      /\ 0 <= count <= size
      /\ (forall j, 0 <= j < size -> b j = 1 ->
                    0 <= rsum b 0 (Z.to_nat j) < count /\ out' (rsum b 0 (Z.to_nat j)) = j)
      /\ (forall x, ~ (0 <= x < count) -> out' x = out x).
Proof.
  intros ps bs cuda_ps cuda_c uninit fuel b size out Hcfg Hsize Hovf Hfuel Hb.
  destruct (compress_rank ps bs cuda_ps cuda_c uninit fuel b size out Hcfg Hsize Hovf Hfuel Hb)
    as (out' & Hrun & Hrank & Hframe).
  exists (rsum b 0 (Z.to_nat size)), out'. split; [exact Hrun|].
  split; [apply (c_bounds b size Hb size); lia|].
  split; [|exact Hframe].
  intros j Hj Hbj. split; [|apply Hrank; assumption].
  pose proof (c_bounds b size Hb j ltac:(lia)) as H0.
  pose proof (c_succ b j ltac:(lia)) as H1.
  pose proof (c_mono b size Hb (j + 1) size ltac:(lia) ltac:(lia)) as H2.
  cbv beta in *. lia.
Qed.

(** The mask [0, 1, 1, 0, 1] on blocks of two bytes. *)
Lemma compress_complete_witness :
  exists count out',
    jitc_compress 2 2 PrefixSum.no_cuda Compress.no_cuda zeroed 5 LLVM
                  (bytes [0; 1; 1; 0; 1]) 5 (zeroed UInt32) = Ok (count, out')
    /\ 0 <= count <= 5
    /\ (forall j, 0 <= j < 5 -> bytes [0; 1; 1; 0; 1] j = 1 ->
                  0 <= rsum (bytes [0; 1; 1; 0; 1]) 0 (Z.to_nat j) < count
                  /\ out' (rsum (bytes [0; 1; 1; 0; 1]) 0 (Z.to_nat j)) = j)
    /\ (forall x, ~ (0 <= x < count) -> out' x = zeroed UInt32 x).
Proof.
  apply (compress_complete 2 2 PrefixSum.no_cuda Compress.no_cuda zeroed 5
                           (bytes [0; 1; 1; 0; 1]) 5 (zeroed UInt32)).
  - intros _. lia.
  - split; [lia|reflexivity].
  - intros _. vm_compute. discriminate.
  - lia.
  - intros i Hi.
    assert (i = 0 \/ i = 1 \/ i = 2 \/ i = 3 \/ i = 4) as [->|[->|[->|[->| ->]]]] by lia;
      vm_compute; auto.
Defined.

End CompactionFacts.

Module FoldFacts.
Import Reduce ReduceKinds.

Lemma int_kind_width type signed w : int_kind type = Some (signed, w) -> 8 <= w <= 64.
Proof. destruct type; intros H; inversion H; lia. Qed.

Lemma int_kind_create fo fi type signed w op :
  int_kind type = Some (signed, w) ->
  jitc_reduce_create fo fi type op = jitc_reduce_create_T fo fi (Integral signed) w op.
Proof. destruct type; intros H; inversion H; reflexivity. Qed.

Lemma half_power w : 1 <= w -> 2 ^ w = 2 * 2 ^ (w - 1) /\ 0 < 2 ^ (w - 1).
Proof.
  intros Hw. split; [|apply Z.pow_pos_nonneg; lia].
  replace w with (Z.succ (w - 1)) at 1 by lia. apply Z.pow_succ_r. lia.
Qed.

Lemma int_lt_key w signed a b : int_lt w signed a b = (key signed w a <? key signed w b).
Proof. destruct signed; reflexivity. Qed.

Lemma key_inj w signed a b :
  1 <= w -> in_range w a -> in_range w b -> key signed w a = key signed w b -> a = b.
Proof.
  intros Hw Ha Hb. unfold in_range in *. destruct (half_power w Hw) as [H2 Hp].
  destruct signed; cbn [key]; [|auto]. unfold sval.
  destruct (Z.ltb_spec a (2 ^ (w - 1))), (Z.ltb_spec b (2 ^ (w - 1))); lia.
Qed.

Lemma key_bounds w signed a :
  1 <= w -> in_range w a ->
  key signed w (lowest signed w) <= key signed w a <= key signed w (highest signed w).
Proof.
  intros Hw Ha. unfold in_range in *. destruct (half_power w Hw) as [H2 Hp].
  destruct signed; cbn [key lowest highest]; [|lia]. unfold sval.
  destruct (Z.ltb_spec a (2 ^ (w - 1))), (Z.ltb_spec (2 ^ (w - 1)) (2 ^ (w - 1))),
    (Z.ltb_spec (2 ^ (w - 1) - 1) (2 ^ (w - 1))); lia.
Qed.

Lemma lowest_range w signed : 1 <= w -> in_range w (lowest signed w).
Proof.
  intros Hw. unfold in_range. destruct (half_power w Hw) as [H2 Hp].
  destruct signed; cbn [lowest]; lia.
Qed.

Lemma highest_range w signed : 1 <= w -> in_range w (highest signed w).
Proof.
  intros Hw. unfold in_range. destruct (half_power w Hw) as [H2 Hp].
  destruct signed; cbn [highest]; lia.
Qed.

Lemma create_int fo fi signed w op :
  op <> RNone ->
  jitc_reduce_create_T fo fi (Integral signed) w op
  = Ok (reduce_loop (int_id signed w op) (int_op signed w op)).
Proof. destruct op; intros H; try congruence; destruct signed; reflexivity. Qed.

Lemma land_range w a b : 0 <= w -> in_range w a -> in_range w b -> in_range w (Z.land a b).
Proof.
  unfold in_range. intros Hw Ha Hb.
  assert (H : Z.land a b mod 2 ^ w = Z.land a b).
  { rewrite <- Z.land_ones by lia. rewrite <- Z.land_assoc.
    rewrite (Z.land_ones b) by lia. rewrite (Z.mod_small b) by lia. reflexivity. }
  rewrite <- H. apply Z.mod_pos_bound. apply Z.pow_pos_nonneg; lia.
Qed.

Lemma lor_range w a b : 0 <= w -> in_range w a -> in_range w b -> in_range w (Z.lor a b).
Proof.
  unfold in_range. intros Hw Ha Hb.
  assert (H : Z.lor a b mod 2 ^ w = Z.lor a b).
  { rewrite <- Z.land_ones by lia. rewrite Z.land_lor_distr_l.
    rewrite !Z.land_ones by lia. rewrite !Z.mod_small by lia. reflexivity. }
  rewrite <- H. apply Z.mod_pos_bound. apply Z.pow_pos_nonneg; lia.
Qed.

Lemma land_all_ones w a : 0 <= w -> in_range w a -> Z.land (2 ^ w - 1) a = a.
Proof.
  unfold in_range. intros Hw Ha. rewrite Z.land_comm.
  replace (2 ^ w - 1) with (Z.ones w) by (rewrite Z.ones_equiv; lia).
  rewrite Z.land_ones by lia. apply Z.mod_small. lia.
Qed.

Section Laws.
Variables (signed : bool) (w : Z) (op : ReduceOp).
Hypothesis Hw : 1 <= w.
Hypothesis Hop : op <> RNone.

Lemma int_id_range : in_range w (int_id signed w op).
Proof.
  destruct (half_power w Hw) as [H2 Hp].
  destruct op; try congruence; cbn [int_id];
    try apply lowest_range; try apply highest_range; try lia; unfold in_range; lia.
Qed.

Lemma int_op_range a b :
  in_range w a -> in_range w b -> in_range w (int_op signed w op a b).
Proof.
  intros Ha Hb. assert (0 < 2 ^ w) by (apply Z.pow_pos_nonneg; lia).
  destruct op; try congruence; cbn [int_op].
  - apply Z.mod_pos_bound. lia.
  - apply Z.mod_pos_bound. lia.
  - destruct (int_lt w signed b a); assumption.
  - destruct (int_lt w signed a b); assumption.
  - apply land_range; [lia|assumption|assumption].
  - apply lor_range; [lia|assumption|assumption].
Qed.

Lemma int_op_assoc a b c :
  int_op signed w op a (int_op signed w op b c) = int_op signed w op (int_op signed w op a b) c.
Proof.
  assert (0 < 2 ^ w) by (apply Z.pow_pos_nonneg; lia).
  destruct op; try congruence; cbn [int_op].
  - rewrite Z.add_mod_idemp_r, Z.add_mod_idemp_l by lia. f_equal. lia.
  - rewrite Z.mul_mod_idemp_r, Z.mul_mod_idemp_l by lia. f_equal. lia.
  - rewrite !int_lt_key.
    destruct (Z.ltb_spec (key signed w c) (key signed w b));
      destruct (Z.ltb_spec (key signed w b) (key signed w a));
      rewrite ?int_lt_key;
      repeat match goal with
             | |- context [?x <? ?y] => destruct (Z.ltb_spec x y)
             end; try reflexivity; lia.
  - rewrite !int_lt_key.
    destruct (Z.ltb_spec (key signed w b) (key signed w c));
      destruct (Z.ltb_spec (key signed w a) (key signed w b));
      rewrite ?int_lt_key;
      repeat match goal with
             | |- context [?x <? ?y] => destruct (Z.ltb_spec x y)
             end; try reflexivity; lia.
  - apply Z.land_assoc.
  - apply Z.lor_assoc.
Qed.

Lemma int_op_id_l a : in_range w a -> int_op signed w op (int_id signed w op) a = a.
Proof.
  intros Ha. pose proof Ha as Ha'. unfold in_range in Ha'.
  destruct op; try congruence; cbn [int_op int_id].
  - rewrite Z.add_0_l. apply Z.mod_small. lia.
  - rewrite Z.mul_1_l. apply Z.mod_small. lia.
  - rewrite int_lt_key.
    destruct (Z.ltb_spec (key signed w a) (key signed w (highest signed w))); [reflexivity|].
    apply (key_inj w signed); auto using highest_range.
    pose proof (key_bounds w signed a Hw Ha). lia.
  - rewrite int_lt_key.
    destruct (Z.ltb_spec (key signed w (lowest signed w)) (key signed w a)); [reflexivity|].
    apply (key_inj w signed); auto using lowest_range.
    pose proof (key_bounds w signed a Hw Ha). lia.
  - apply land_all_ones; [lia|exact Ha].
  - apply Z.lor_0_l.
Qed.

Lemma int_op_id_r a : in_range w a -> int_op signed w op a (int_id signed w op) = a.
Proof.
  intros Ha. pose proof Ha as Ha'. unfold in_range in Ha'.
  destruct op; try congruence; cbn [int_op int_id].
  - rewrite Z.add_0_r. apply Z.mod_small. lia.
  - rewrite Z.mul_1_r. apply Z.mod_small. lia.
  - rewrite int_lt_key.
    destruct (Z.ltb_spec (key signed w (highest signed w)) (key signed w a)); [|reflexivity].
    pose proof (key_bounds w signed a Hw Ha). lia.
  - rewrite int_lt_key.
    destruct (Z.ltb_spec (key signed w a) (key signed w (lowest signed w))); [|reflexivity].
    pose proof (key_bounds w signed a Hw Ha). lia.
  - rewrite Z.land_comm. apply land_all_ones; [lia|exact Ha].
  - apply Z.lor_0_r.
Qed.
End Laws.

(** The host path of [jitc_reduce] on an integer type returns what the loop
    of the reduction computes over the whole array. *)
Lemma reduce_sequential fo fi ps bs cuda uninit fuel type signed w op ptr size :
  int_kind type = Some (signed, w) -> op <> RNone ->
  (1 < ps -> 2 <= bs < 2 ^ 32) ->
  0 <= size < 2 ^ 32 -> (1 < ps -> size + bs <= 2 ^ 32) -> size < Z.of_nat fuel ->
  (forall j, 0 <= j < size -> 0 <= ptr j < 2 ^ w) ->
  jitc_reduce fo fi ps bs cuda uninit fuel LLVM type op ptr size
  = Ok (iter_up (Z.to_nat size) 0 (fun i r => int_op signed w op r (ptr i))
                (int_id signed w op)).
Proof.
  intros Hk Hop Hcfg Hsize Hovf Hfuel Hptr.
  pose proof (int_kind_width type signed w Hk) as Hw.
  apply (ReduceFacts.reduce_tree (int_op signed w op) (int_id signed w op) (in_range w)).
  - apply int_id_range; [lia|exact Hop].
  - apply int_op_range; [lia|exact Hop].
  - apply int_op_assoc; [lia|exact Hop].
  - apply int_op_id_l; [lia|exact Hop].
  - apply int_op_id_r; [lia|exact Hop].
  - rewrite (int_kind_create fo fi type signed w op Hk). apply create_int. exact Hop.
  - exact Hcfg.
  - exact Hsize.
  - exact Hovf.
  - exact Hfuel.
  - exact Hptr.
Qed.


Lemma sequential_loop id f (ptr : Z -> Z) size :
  0 <= size < 2 ^ 32 ->
  reduce_loop id f ptr 0 size = iter_up (Z.to_nat size) 0 (fun i r => f r (ptr i)) id.
Proof.
  intros Hsize. unfold reduce_loop. rewrite for_u32_iter_up by lia.
  rewrite Z.sub_0_r. reflexivity.
Qed.

(** X3. On an integer element type, with one worker, or with several
    workers and a worker block size [bs] with [2 <= bs < 2^32] and
    [size + bs <= 2^32], the result of the host path of [jitc_reduce] is
    the same for every such configuration: it is what the loop of the
    reduction returns when it runs once over the whole array, for each of
    the six operations. *)
Theorem reduce_any_workers :
  forall fo fi ps bs cuda uninit fuel type signed w op r (ptr : Z -> Z) size,
    int_kind type = Some (signed, w) ->
    jitc_reduce_create fo fi type op = Ok r ->
    (1 < ps -> 2 <= bs < 2 ^ 32) ->
    0 <= size < 2 ^ 32 -> (1 < ps -> size + bs <= 2 ^ 32) -> size < Z.of_nat fuel ->
    (forall j, 0 <= j < size -> 0 <= ptr j < 2 ^ w) ->
    jitc_reduce fo fi ps bs cuda uninit fuel LLVM type op ptr size = Ok (r ptr 0 size).
Proof.
  intros fo fi ps bs cuda uninit fuel type signed w op r ptr size Hk Hr Hcfg Hsize Hovf
         Hfuel Hptr.
  assert (Hop : op <> RNone).
  { intros ->. rewrite (int_kind_create fo fi type signed w RNone Hk) in Hr. discriminate Hr. }
  rewrite (reduce_sequential fo fi ps bs cuda uninit fuel type signed w op ptr size)
    by assumption.
  rewrite (int_kind_create fo fi type signed w op Hk), (create_int fo fi signed w op Hop) in Hr.
  injection Hr as <-. rewrite sequential_loop by exact Hsize. reflexivity.
Qed.

(** The maximum of the Int16 values [3, -2, 7, 5, -9] on four workers with
    blocks of two elements. *)
Lemma reduce_any_workers_witness :
  jitc_reduce no_float_op no_float_identity 4 2 Reduce.no_cuda garbage 6 LLVM Int16 Max
              (PrefixSum.of_list 0 [3; 65534; 7; 5; 65527]) 5
  = Ok (reduce_loop (2 ^ 15) (fun a b => if int_lt 16 true a b then b else a)
                    (PrefixSum.of_list 0 [3; 65534; 7; 5; 65527]) 0 5).
Proof.
  apply (reduce_any_workers no_float_op no_float_identity 4 2 Reduce.no_cuda garbage 6%nat
                            Int16 true 16 Max).
  - reflexivity.
  - reflexivity.
  - intros _. lia.
  - lia.
  - intros _. lia.
  - lia.
  - intros j Hj.
    assert (j = 0 \/ j = 1 \/ j = 2 \/ j = 3 \/ j = 4) as [->|[->|[->|[->| ->]]]] by lia;
      vm_compute; split; discriminate || reflexivity.
Defined.

Lemma sum_loop w (a : Z -> Z) n :
  0 <= w ->
  iter_up n 0 (fun i r => int_op false w Add r (a i)) 0 = PrefixSum.rsum a 0 n mod 2 ^ w.
Proof.
  intros Hw.
  assert (Hacc : 0 <= 0 < 2 ^ w) by (split; [lia|apply Z.pow_pos_nonneg; lia]).
  exact (PrefixSumFacts.accumulate_range w Hw a n 0 0 Hacc).
Qed.

(** X4. On the host path, with one worker, or with several workers and a
    worker block size [bs] with [2 <= bs < 2^32] and [size + bs <= 2^32],
    [ReduceOp::Add] over an integer type of [w] bits returns the sum of the
    elements modulo [2^w] (0 for an empty array), signed or unsigned alike
    on the bit patterns. *)
Theorem reduce_add_is_sum :
  forall fo fi ps bs cuda uninit fuel type signed w (ptr : Z -> Z) size,
    int_kind type = Some (signed, w) ->
    (1 < ps -> 2 <= bs < 2 ^ 32) ->
    0 <= size < 2 ^ 32 -> (1 < ps -> size + bs <= 2 ^ 32) -> size < Z.of_nat fuel ->
    (forall j, 0 <= j < size -> 0 <= ptr j < 2 ^ w) ->
    jitc_reduce fo fi ps bs cuda uninit fuel LLVM type Add ptr size
    = Ok (PrefixSum.rsum ptr 0 (Z.to_nat size) mod 2 ^ w).
Proof.
  intros fo fi ps bs cuda uninit fuel type signed w ptr size Hk Hcfg Hsize Hovf Hfuel Hptr.
  pose proof (int_kind_width type signed w Hk) as Hw.
  rewrite (reduce_sequential fo fi ps bs cuda uninit fuel type signed w Add ptr size)
    by (assumption || discriminate).
  f_equal. rewrite <- (sum_loop w ptr) by lia. reflexivity.
Qed.

(** The sum of the UInt8 values [200, 100, 7] is 307 - 256 = 51. *)
Lemma reduce_add_is_sum_witness :
  jitc_reduce no_float_op no_float_identity 1 16384 Reduce.no_cuda garbage 4 LLVM UInt8 Add
              (PrefixSum.of_list 0 [200; 100; 7]) 3
  = Ok (PrefixSum.rsum (PrefixSum.of_list 0 [200; 100; 7]) 0 (Z.to_nat 3) mod 2 ^ 8).
Proof.
  apply (reduce_add_is_sum no_float_op no_float_identity 1 16384 Reduce.no_cuda garbage 4%nat
                           UInt8 false 8).
  - reflexivity.
  - intros H. lia.
  - lia.
  - intros H. lia.
  - lia.
  - intros j Hj.
    assert (j = 0 \/ j = 1 \/ j = 2) as [->|[->| ->]] by lia;
      vm_compute; split; discriminate || reflexivity.
Defined.

Lemma max_loop w signed (a : Z -> Z) n :
  forall i acc,
    let r := iter_up n i (fun i r => int_op signed w Max r (a i)) acc in
    key signed w acc <= key signed w r
    /\ (forall j, i <= j < i + Z.of_nat n -> key signed w (a j) <= key signed w r)
    /\ (r = acc \/ exists j, i <= j < i + Z.of_nat n /\ r = a j).
Proof.
  induction n as [|n IH]; intros i acc; cbn [iter_up].
  - split; [lia|]. split; [intros j Hj; lia|left; reflexivity].
  - destruct (IH (i + 1) (int_op signed w Max acc (a i))) as (H1 & H2 & H3).
    cbv zeta. cbn [int_op] in *. rewrite int_lt_key in *.
    set (r := iter_up n (i + 1) _ _) in *.
    destruct (Z.ltb_spec (key signed w acc) (key signed w (a i))) as [Hlt|Hge].
    + split; [lia|]. split.
      * intros j Hj. destruct (Z.eq_dec j i) as [->|Hne]; [exact H1|apply H2; lia].
      * right. destruct H3 as [->|(j & Hj & ->)]; [exists i|exists j]; split; (lia || reflexivity).
    + split; [lia|]. split.
      * intros j Hj. destruct (Z.eq_dec j i) as [->|Hne]; [lia|apply H2; lia].
      * destruct H3 as [->|(j & Hj & ->)]; [left; reflexivity|right; exists j].
        split; [lia|reflexivity].
Qed.

Lemma min_loop w signed (a : Z -> Z) n :
  forall i acc,
    let r := iter_up n i (fun i r => int_op signed w Min r (a i)) acc in
    key signed w r <= key signed w acc
    /\ (forall j, i <= j < i + Z.of_nat n -> key signed w r <= key signed w (a j))
    /\ (r = acc \/ exists j, i <= j < i + Z.of_nat n /\ r = a j).
Proof.
  induction n as [|n IH]; intros i acc; cbn [iter_up].
  - split; [lia|]. split; [intros j Hj; lia|left; reflexivity].
  - destruct (IH (i + 1) (int_op signed w Min acc (a i))) as (H1 & H2 & H3).
    cbv zeta. cbn [int_op] in *. rewrite int_lt_key in *.
    set (r := iter_up n (i + 1) _ _) in *.
    destruct (Z.ltb_spec (key signed w (a i)) (key signed w acc)) as [Hlt|Hge].
    + split; [lia|]. split.
      * intros j Hj. destruct (Z.eq_dec j i) as [->|Hne]; [exact H1|apply H2; lia].
      * right. destruct H3 as [->|(j & Hj & ->)]; [exists i|exists j]; split; (lia || reflexivity).
    + split; [lia|]. split.
      * intros j Hj. destruct (Z.eq_dec j i) as [->|Hne]; [lia|apply H2; lia].
      * destruct H3 as [->|(j & Hj & ->)]; [left; reflexivity|right; exists j].
        split; [lia|reflexivity].
Qed.

(** X5. On the host path, with one worker, or with several workers and a
    worker block size [bs] with [2 <= bs < 2^32] and [size + bs <= 2^32],
    [ReduceOp::Max] over an integer type returns an element of the array
    that no element exceeds in the order of the type (signed types compare
    as two's complement values), and [ReduceOp::Min] one that exceeds none;
    on an empty array they return the smallest, respectively the largest,
    value of the type. *)
Theorem reduce_max_min :
  forall fo fi ps bs cuda uninit fuel type signed w (ptr : Z -> Z) size,
    int_kind type = Some (signed, w) ->
    (1 < ps -> 2 <= bs < 2 ^ 32) ->
    0 <= size < 2 ^ 32 -> (1 < ps -> size + bs <= 2 ^ 32) -> size < Z.of_nat fuel ->
    (forall j, 0 <= j < size -> 0 <= ptr j < 2 ^ w) ->
    (exists r,
        jitc_reduce fo fi ps bs cuda uninit fuel LLVM type Max ptr size = Ok r
        /\ (forall j, 0 <= j < size -> key signed w (ptr j) <= key signed w r)
        /\ (0 < size -> exists j, 0 <= j < size /\ r = ptr j)
        /\ (size = 0 -> r = lowest signed w))
    /\ (exists r,
           jitc_reduce fo fi ps bs cuda uninit fuel LLVM type Min ptr size = Ok r
           /\ (forall j, 0 <= j < size -> key signed w r <= key signed w (ptr j))
           /\ (0 < size -> exists j, 0 <= j < size /\ r = ptr j)
           /\ (size = 0 -> r = highest signed w)).
Proof.
  intros fo fi ps bs cuda uninit fuel type signed w ptr size Hk Hcfg Hsize Hovf Hfuel Hptr.
  pose proof (int_kind_width type signed w Hk) as Hw.
  split.
  - rewrite (reduce_sequential fo fi ps bs cuda uninit fuel type signed w Max ptr size)
      by (assumption || discriminate).
    eexists. split; [reflexivity|].
    destruct (max_loop w signed ptr (Z.to_nat size) 0 (int_id signed w Max)) as (H1 & H2 & H3).
    cbv zeta in *. cbn [int_id] in *. split; [|split].
    + intros j Hj. apply H2. lia.
    + intros Hpos. destruct H3 as [H3|(j & Hj & H3)]; [|exists j; split; [lia|exact H3]].
      exists 0. split; [lia|]. rewrite H3 in *.
      apply (key_inj w signed); [lia|apply lowest_range; lia|apply Hptr; lia|].
      pose proof (H2 0 ltac:(lia)).
      pose proof (key_bounds w signed (ptr 0) ltac:(lia) (Hptr 0 ltac:(lia))). lia.
    + intros ->. reflexivity.
  - rewrite (reduce_sequential fo fi ps bs cuda uninit fuel type signed w Min ptr size)
      by (assumption || discriminate).
    eexists. split; [reflexivity|].
    destruct (min_loop w signed ptr (Z.to_nat size) 0 (int_id signed w Min)) as (H1 & H2 & H3).
    cbv zeta in *. cbn [int_id] in *. split; [|split].
    + intros j Hj. apply H2. lia.
    + intros Hpos. destruct H3 as [H3|(j & Hj & H3)]; [|exists j; split; [lia|exact H3]].
      exists 0. split; [lia|]. rewrite H3 in *.
      apply (key_inj w signed); [lia|apply highest_range; lia|apply Hptr; lia|].
      pose proof (H2 0 ltac:(lia)).
      pose proof (key_bounds w signed (ptr 0) ltac:(lia) (Hptr 0 ltac:(lia))). lia.
    + intros ->. reflexivity.
Qed.

(** The Int8 values [5, -3, 100] on four workers with blocks of two. *)
Lemma reduce_max_min_witness :
  exists r,
    jitc_reduce no_float_op no_float_identity 4 2 Reduce.no_cuda garbage 4 LLVM Int8 Max
                (PrefixSum.of_list 0 [5; 253; 100]) 3 = Ok r
    /\ (forall j, 0 <= j < 3 ->
                  key true 8 (PrefixSum.of_list 0 [5; 253; 100] j) <= key true 8 r)
    /\ (0 < 3 -> exists j, 0 <= j < 3 /\ r = PrefixSum.of_list 0 [5; 253; 100] j)
    /\ (3 = 0 -> r = lowest true 8).
Proof.
  refine (proj1 (reduce_max_min no_float_op no_float_identity 4 2 Reduce.no_cuda garbage 4%nat
                                Int8 true 8 (PrefixSum.of_list 0 [5; 253; 100]) 3
                                _ _ _ _ _ _)).
  - reflexivity.
  - intros _. lia.
  - lia.
  - intros _. lia.
  - lia.
  - intros j Hj.
    assert (j = 0 \/ j = 1 \/ j = 2) as [->|[->| ->]] by lia;
      vm_compute; split; discriminate || reflexivity.
Defined.

Lemma and_loop (a : Z -> Z) k n :
  0 <= k ->
  forall i acc,
    Z.testbit (iter_up n i (fun i r => Z.land r (a i)) acc) k = true
    <-> Z.testbit acc k = true /\ forall j, i <= j < i + Z.of_nat n -> Z.testbit (a j) k = true.
Proof.
  intros Hk. induction n as [|n IH]; intros i acc; cbn [iter_up].
  - split; [intros H; split; [exact H|intros j Hj; lia]|intros [H _]; exact H].
  - rewrite IH, Z.land_spec, andb_true_iff. split.
    + intros [[H1 H2] H3]. split; [exact H1|].
      intros j Hj. destruct (Z.eq_dec j i) as [->|Hne]; [exact H2|apply H3; lia].
    + intros [H1 H2]. split; [split; [exact H1|apply H2; lia]|].
      intros j Hj. apply H2. lia.
Qed.

Lemma or_loop (a : Z -> Z) k n :
  0 <= k ->
  forall i acc,
    Z.testbit (iter_up n i (fun i r => Z.lor r (a i)) acc) k = true
    <-> Z.testbit acc k = true \/ exists j, i <= j < i + Z.of_nat n /\ Z.testbit (a j) k = true.
Proof.
  intros Hk. induction n as [|n IH]; intros i acc; cbn [iter_up].
  - split; [intros H; left; exact H|intros [H|(j & Hj & _)]; [exact H|lia]].
  - rewrite IH, Z.lor_spec, orb_true_iff. split.
    + intros [[H|H]|(j & Hj & H)].
      * left. exact H.
      * right. exists i. split; [lia|exact H].
      * right. exists j. split; [lia|exact H].
    + intros [H|(j & Hj & H)].
      * left. left. exact H.
      * destruct (Z.eq_dec j i) as [->|Hne]; [left; right; exact H|].
        right. exists j. split; [lia|exact H].
Qed.

(** X6. On the host path, with one worker, or with several workers and a
    worker block size [bs] with [2 <= bs < 2^32] and [size + bs <= 2^32],
    [ReduceOp::And] and [ReduceOp::Or] over an integer type of [w] bits
    work bit by bit: bit [k < w] of the result of [And] is set exactly
    when it is set in every element, and that of [Or] exactly when it is
    set in some element. *)
Theorem reduce_bitwise :
  forall fo fi ps bs cuda uninit fuel type signed w (ptr : Z -> Z) size,
    int_kind type = Some (signed, w) ->
    (1 < ps -> 2 <= bs < 2 ^ 32) ->
    0 <= size < 2 ^ 32 -> (1 < ps -> size + bs <= 2 ^ 32) -> size < Z.of_nat fuel ->
    (forall j, 0 <= j < size -> 0 <= ptr j < 2 ^ w) ->
    (exists r,
        jitc_reduce fo fi ps bs cuda uninit fuel LLVM type And ptr size = Ok r
        /\ forall k, 0 <= k < w ->
                     (Z.testbit r k = true
                      <-> forall j, 0 <= j < size -> Z.testbit (ptr j) k = true))
    /\ (exists r,
           jitc_reduce fo fi ps bs cuda uninit fuel LLVM type Or ptr size = Ok r
           /\ forall k, 0 <= k < w ->
                        (Z.testbit r k = true
                         <-> exists j, 0 <= j < size /\ Z.testbit (ptr j) k = true)).
Proof.
  intros fo fi ps bs cuda uninit fuel type signed w ptr size Hk Hcfg Hsize Hovf Hfuel Hptr.
  pose proof (int_kind_width type signed w Hk) as Hw.
  split.
  - rewrite (reduce_sequential fo fi ps bs cuda uninit fuel type signed w And ptr size)
      by (assumption || discriminate).
    eexists. split; [reflexivity|]. intros k Hkw. cbn [int_op int_id].
    rewrite and_loop by lia.
    replace (2 ^ w - 1) with (Z.ones w) by (rewrite Z.ones_equiv; lia).
    rewrite Z.ones_spec_low by lia. split.
    + intros [_ H] j Hj. apply H. lia.
    + intros H. split; [reflexivity|]. intros j Hj. apply H. lia.
  - rewrite (reduce_sequential fo fi ps bs cuda uninit fuel type signed w Or ptr size)
      by (assumption || discriminate).
    eexists. split; [reflexivity|]. intros k Hkw. cbn [int_op int_id].
    rewrite or_loop by lia. rewrite Z.bits_0. split.
    + intros [H|(j & Hj & H)]; [discriminate H|]. exists j. split; [lia|exact H].
    + intros (j & Hj & H). right. exists j. split; [lia|exact H].
Qed.

(** The UInt16 values [12, 10, 14] on one worker. *)
Lemma reduce_bitwise_witness :
  exists r,
    jitc_reduce no_float_op no_float_identity 1 16384 Reduce.no_cuda garbage 4 LLVM UInt16 And
                (PrefixSum.of_list 0 [12; 10; 14]) 3 = Ok r
    /\ forall k, 0 <= k < 16 ->
                 (Z.testbit r k = true
                  <-> forall j, 0 <= j < 3 ->
                                Z.testbit (PrefixSum.of_list 0 [12; 10; 14] j) k = true).
Proof.
  refine (proj1 (reduce_bitwise no_float_op no_float_identity 1 16384 Reduce.no_cuda garbage
                                4%nat UInt16 false 16 (PrefixSum.of_list 0 [12; 10; 14]) 3
                                _ _ _ _ _ _)).
  - reflexivity.
  - intros H. lia.
  - lia.
  - intros H. lia.
  - lia.
  - intros j Hj.
    assert (j = 0 \/ j = 1 \/ j = 2) as [->|[->| ->]] by lia;
      vm_compute; split; discriminate || reflexivity.
Defined.

End FoldFacts.

Module MemsetFacts.
Import Reduce.

Lemma fill_inside m ptr isize v n k b :
  0 < isize -> 0 <= k < n -> 0 <= b < isize ->
  fill m ptr isize v n (ptr + k * isize + b) = (v / 2 ^ (8 * b)) mod 256.
Proof.
  intros Hi Hk Hb. unfold fill.
  assert (Hk1 : (k + 1) * isize <= n * isize) by (apply Z.mul_le_mono_nonneg_r; lia).
  assert (Hk0 : 0 <= k * isize) by (apply Z.mul_nonneg_nonneg; lia).
  destruct (Z.leb_spec ptr (ptr + k * isize + b)); [|lia].
  destruct (Z.ltb_spec (ptr + k * isize + b) (ptr + n * isize)); [|lia].
  cbn [andb]. replace (ptr + k * isize + b - ptr) with (b + k * isize) by lia.
  rewrite Z.mod_add by lia. rewrite (Z.mod_small b isize) by lia. reflexivity.
Qed.

Lemma fill_outside m ptr isize v n x :
  ~ (ptr <= x < ptr + n * isize) -> fill m ptr isize v n x = m x.
Proof.
  intros Hx. unfold fill.
  destruct (Z.leb_spec ptr x), (Z.ltb_spec x (ptr + n * isize)); cbn [andb]; try reflexivity.
  lia.
Qed.

(** X7. [jitc_memset_async] with an element size of 1, 2, 4 or 8 bytes and
    a value that fits the element stores the value, little-endian, in each
    of the [size] elements from [ptr] on, and changes no byte outside them;
    this holds on the path that turns an all-zero value into a byte-wise
    memset of [size * isize] bytes as on the general path. *)
Theorem memset_stores_value :
  forall (m : mem Z) ptr size_ isize src,
    isize = 1 \/ isize = 2 \/ isize = 4 \/ isize = 8 ->
    0 <= size_ -> 0 <= src < 2 ^ (8 * isize) ->
    exists m',
      jitc_memset_async m ptr size_ isize src = (m', Ok tt)
      /\ (forall k b, 0 <= k < size_ -> 0 <= b < isize ->
                      m' (ptr + k * isize + b) = (src / 2 ^ (8 * b)) mod 256)
      /\ (forall x, ~ (ptr <= x < ptr + size_ * isize) -> m' x = m x).
Proof.
  intros m ptr size_ isize src Hisize Hsize Hsrc. unfold jitc_memset_async.
  assert (Hvalid : negb ((isize =? 1) || (isize =? 2) || (isize =? 4) || (isize =? 8)) = false).
  { destruct Hisize as [->|[->|[->| ->]]]; reflexivity. }
  rewrite Hvalid.
  destruct (Z.eqb_spec size_ 0) as [->|Hne].
  { exists m. split; [reflexivity|]. split; [intros k b Hk; lia|reflexivity]. }
  destruct (Z.eqb_spec src 0) as [->|Hsrc0].
  - exists (fill m ptr 1 0 (size_ * isize)).
    split; [destruct Hisize as [->|[->|[->| ->]]]; reflexivity|]. split.
    + intros k b Hk Hb.
      replace (ptr + k * isize + b) with (ptr + (k * isize + b) * 1 + 0) by lia.
      rewrite fill_inside by nia. rewrite !Z.div_0_l by (apply Z.pow_nonzero; lia).
      reflexivity.
    + intros x Hx. apply fill_outside. lia.
  - exists (fill m ptr isize src size_). split.
    + destruct Hisize as [->|[->|[->| ->]]]; cbn [Z.eqb Pos.eqb];
        rewrite ?Z.mod_small by (change (8 * 1) with 8 in Hsrc; change (8 * 2) with 16 in Hsrc;
                                 change (8 * 4) with 32 in Hsrc; lia);
        reflexivity.
    + split.
      * intros k b Hk Hb. apply fill_inside; lia.
      * intros x Hx. apply fill_outside. exact Hx.
Qed.

(** Three elements of four bytes with the value [0x01020304]. *)
Lemma memset_stores_value_witness :
  exists m',
    jitc_memset_async garbage 16 3 4 16909060 = (m', Ok tt)
    /\ (forall k b, 0 <= k < 3 -> 0 <= b < 4 ->
                    m' (16 + k * 4 + b) = (16909060 / 2 ^ (8 * b)) mod 256)
    /\ (forall x, ~ (16 <= x < 16 + 3 * 4) -> m' x = garbage x).
Proof.
  apply (memset_stores_value garbage 16 3 4 16909060).
  - right. right. left. reflexivity.
  - lia.
  - split; [lia|reflexivity].
Defined.

End MemsetFacts.

Module GroupFacts.
Import Schedule.

Lemma chain_bounds gs :
  forall lo hi, chain gs lo hi ->
                lo <= hi /\ Forall (fun g => lo <= g_start g /\ g_start g < g_end g <= hi) gs.
Proof.
  induction gs as [|g rest IH]; intros lo hi H; cbn [chain] in H.
  - split; [lia|constructor].
  - destruct H as (Hs & Hlt & Hrest). destruct (IH _ _ Hrest) as [Hle Hall].
    split; [lia|]. constructor; [lia|].
    eapply Forall_impl; [exact Hall|]. cbv beta. intros g' Hg'. lia.
Qed.

Lemma chain_cover gs :
  forall lo hi i, chain gs lo hi -> lo <= i < hi ->
                  exists g, In g gs /\ g_start g <= i < g_end g.
Proof.
  induction gs as [|g rest IH]; intros lo hi i H Hi; cbn [chain] in H.
  - lia.
  - destruct H as (Hs & Hlt & Hrest).
    destruct (Z_lt_le_dec i (g_end g)) as [Hin|Hout].
    + exists g. split; [left; reflexivity|lia].
    + destruct (IH _ _ i Hrest ltac:(lia)) as (g' & Hg' & Hi').
      exists g'. split; [right; exact Hg'|exact Hi'].
Qed.

Section Sorted.
Variable sorted : list ScheduledVariable.
Hypothesis Hsorted : StronglySorted ordered sorted.

Lemma size_at_mono i j :
  0 <= i <= j -> j < Z.of_nat (length sorted) -> size_at sorted j <= size_at sorted i.
Proof.
  intros Hi Hj. unfold size_at.
  apply ScheduleFacts.sorted_sizes; [exact Hsorted|lia].
Qed.

Lemma chain_decreasing gs :
  forall lo,
    0 <= lo -> chain gs lo (Z.of_nat (length sorted)) ->
    Forall (maximal_run sorted (Z.of_nat (length sorted))) gs ->
    StronglySorted (fun g g' => g_size g' < g_size g) gs
    /\ Forall (fun g => g_size g <= size_at sorted lo) gs.
Proof.
  induction gs as [|g rest IH]; intros lo Hlo Hchain Hmax.
  - split; constructor.
  - cbn [chain] in Hchain. destruct Hchain as (Hs & Hlt & Hrest).
    inversion Hmax as [|? ? Hg Hmax']; subst.
    destruct (chain_bounds _ _ _ Hrest) as [Hend Hb].
    destruct (IH (g_end g) ltac:(lia) Hrest Hmax') as [Hdec Hle].
    destruct Hg as (Hrun & _ & Hstop).
    assert (Hsz : size_at sorted (g_start g) = g_size g) by (apply Hrun; lia).
    split.
    + constructor; [exact Hdec|].
      destruct rest as [|g' rest']; [constructor|].
      assert (Hne : g_end g <> Z.of_nat (length sorted)).
      { inversion Hb as [|? ? Hg' _]; subst. cbn [chain] in Hrest. lia. }
      destruct Hstop as [?|Hstop]; [contradiction|].
      pose proof (size_at_mono (g_start g) (g_end g) ltac:(lia) ltac:(lia)).
      eapply Forall_impl; [exact Hle|]. cbv beta. intros g0 Hg0. lia.
    + constructor; [lia|].
      destruct rest as [|g' rest']; [constructor|].
      assert (Hne : g_end g < Z.of_nat (length sorted)).
      { inversion Hb as [|? ? Hg' _]; subst. cbn [chain] in Hrest. lia. }
      pose proof (size_at_mono (g_start g) (g_end g) ltac:(lia) ltac:(lia)).
      eapply Forall_impl; [exact Hle|]. cbv beta. intros g0 Hg0. lia.
Qed.
End Sorted.

Lemma size_at_In (l : list ScheduledVariable) i :
  0 <= i < Z.of_nat (length l) -> exists v, In v l /\ sv_size v = size_at l i.
Proof.
  intros Hi. exists (nth (Z.to_nat i) l {| sv_size := 0; sv_index := 0 |}).
  split; [apply nth_In; lia|reflexivity].
Qed.

Lemma In_size_at (l : list ScheduledVariable) v :
  In v l -> exists i, 0 <= i < Z.of_nat (length l) /\ size_at l i = sv_size v.
Proof.
  intros Hv. destruct (In_nth l v {| sv_size := 0; sv_index := 0 |} Hv) as (k & Hk & Hnth).
  exists (Z.of_nat k). split; [lia|]. unfold size_at. rewrite Nat2Z.id, Hnth. reflexivity.
Qed.

(** X8. [jitc_eval] launches one kernel per distinct size: the sizes of the
    groups it forms strictly decrease from one group to the next, every
    scheduled variable has a group of its size, and every group has the
    size of some scheduled variable. *)
Theorem one_group_per_size :
  forall schedule,
    0 < Z.of_nat (length schedule) < 2 ^ 32 ->
    exists sorted groups,
      order_and_group schedule = Some (sorted, groups)
      /\ StronglySorted (fun g g' => g_size g' < g_size g) groups
      /\ (forall v, In v schedule -> exists g, In g groups /\ g_size g = sv_size v)
      /\ (forall g, In g groups -> exists v, In v schedule /\ sv_size v = g_size g).
Proof.
  intros schedule Hlen. unfold order_and_group.
  destruct schedule as [|x l] eqn:E; [cbn in Hlen; lia|]. rewrite <- E in *. clear E x l.
  pose proof (ScheduleFacts.sort_perm schedule) as Hperm.
  pose proof (ScheduleFacts.sort_sorted schedule) as Hsorted.
  assert (Hlen' : length (sort schedule) = length schedule)
    by (symmetry; apply Permutation_length; exact Hperm).
  destruct (ScheduleFacts.partition_spec (sort schedule) Hsorted ltac:(rewrite Hlen'; exact Hlen))
    as [Hchain Hmax].
  exists (sort schedule), (partition (sort schedule)). split; [reflexivity|].
  destruct (chain_decreasing (sort schedule) Hsorted _ 0 ltac:(lia) Hchain Hmax) as [Hdec _].
  split; [exact Hdec|]. split.
  - intros v Hv.
    assert (Hv' : In v (sort schedule)) by (eapply Permutation_in; [exact Hperm|exact Hv]).
    destruct (In_size_at _ _ Hv') as (i & Hi & Hsz).
    destruct (chain_cover _ _ _ i Hchain Hi) as (g & Hg & Hgi).
    exists g. split; [exact Hg|].
    rewrite List.Forall_forall in Hmax. destruct (Hmax g Hg) as (Hrun & _).
    rewrite <- Hsz. symmetry. apply Hrun. exact Hgi.
  - intros g Hg.
    destruct (chain_bounds _ _ _ Hchain) as [_ Hb].
    rewrite List.Forall_forall in Hb, Hmax. specialize (Hb g Hg).
    destruct (Hmax g Hg) as (Hrun & _).
    destruct (size_at_In (sort schedule) (g_start g) ltac:(lia)) as (v & Hv & Hsz).
    exists v. split.
    + eapply Permutation_in; [apply Permutation_sym; exact Hperm|exact Hv].
    + rewrite Hsz. apply Hrun. lia.
Qed.

(** Two variables of size 10 and one of size 1. *)
Lemma one_group_per_size_witness :
  exists sorted groups,
    order_and_group [ {| sv_size := 1; sv_index := 7 |}; {| sv_size := 10; sv_index := 9 |};
                      {| sv_size := 10; sv_index := 3 |} ] = Some (sorted, groups)
    /\ StronglySorted (fun g g' => g_size g' < g_size g) groups
    /\ (forall v, In v [ {| sv_size := 1; sv_index := 7 |}; {| sv_size := 10; sv_index := 9 |};
                         {| sv_size := 10; sv_index := 3 |} ] ->
                  exists g, In g groups /\ g_size g = sv_size v)
    /\ (forall g, In g groups ->
                  exists v, In v [ {| sv_size := 1; sv_index := 7 |};
                                   {| sv_size := 10; sv_index := 9 |};
                                   {| sv_size := 10; sv_index := 3 |} ] /\ sv_size v = g_size g).
Proof.
  apply (one_group_per_size [ {| sv_size := 1; sv_index := 7 |};
                              {| sv_size := 10; sv_index := 9 |};
                              {| sv_size := 10; sv_index := 3 |} ]).
  split; [reflexivity|reflexivity].
Defined.

End GroupFacts.

Module ParamFacts.
Import Schedule Assemble Params AssembleTail.


Section Table.
Variable type_size : VarType -> Z.
Variable jitc_malloc : JitBackend -> Z -> Z.
Variable schedule : list ScheduledVariable.
Variable b : JitBackend.
Variable group_size : Z.

End Table.


Section TableLoop.
Variable type_size : VarType -> Z.
Variable jitc_malloc : JitBackend -> Z -> Z.
Variable schedule : list ScheduledVariable.
Variable b : JitBackend.
Variable group_size : Z.



End TableLoop.



(** A failing step ends the loop with its failure. *)
Lemma failing_step {St : Type} (body : Z -> St -> outcome St) n i (st : St) :
  is_ok (body i st) = false ->
  iter_up (S n) i (fun i s => s ≫= body i) (Ok st) = body i st.
Proof.
  intros H. cbn [iter_up]. change (Ok st ≫= body i) with (body i st).
  apply AssembleFacts.sticky_error. exact H.
Qed.

(** X10. [jitc_assemble] stops at the first variable of the group that
    fails a sanity check and reports that failure: when the variables
    before position [k] pass the checks and the one at position [k] does
    not, the call ends with the exception, respectively the fatal error, of
    that check. *)
Theorem assemble_first_failure :
  forall type_size jitc_malloc schedule b vars optix0 group k v,
    0 <= g_start group <= g_end group -> g_end group < 2 ^ 32 ->
    reserved b + (g_end group - g_start group) < 2 ^ 32 ->
    0 <= k < g_end group - g_start group ->
    (forall j, 0 <= j < k ->
               exists u, vars !! index_at schedule (g_start group + j) = Some u
                         /\ sanity_checks b (g_size group) u = Ok tt) ->
    (forall j j', 0 <= j < j' -> j' <= k ->
                  index_at schedule (g_start group + j)
                  <> index_at schedule (g_start group + j')) ->
    vars !! index_at schedule (g_start group + k) = Some v ->
    (forall msg, sanity_checks b (g_size group) v = Raise msg ->
                 jitc_assemble type_size jitc_malloc schedule b vars optix0 group = Raise msg)
    /\ (forall msg, sanity_checks b (g_size group) v = Fail msg ->
                    jitc_assemble type_size jitc_malloc schedule b vars optix0 group = Fail msg).
Proof.
  intros type_size jitc_malloc schedule b vars optix0 group k v Hrange Hmax Hregs Hk Hvars
         Hdistinct Hv.
  assert (Hrun : forall r : outcome unit,
             sanity_checks b (g_size group) v = r -> is_ok r = false ->
             jitc_assemble type_size jitc_malloc schedule b vars optix0 group
             = (r ≫= fun _ => Ok {| variables := vars; kernel_params := [];
                                    n_params_in := 0; n_params_out := 0;
                                    n_side_effects := 0; n_regs := 0;
                                    uses_optix := false |})).
  { intros r Hr Hfail. unfold jitc_assemble. rewrite for_u32_iter_up by lia.
    replace (Z.to_nat (g_end group - g_start group))
      with (Z.to_nat k + S (Z.to_nat (g_end group - g_start group - k - 1)))%nat by lia.
    rewrite iter_up_app.
    edestruct (AssembleFacts.assemble_loop type_size jitc_malloc schedule b (g_size group)
                 (Z.to_nat k) (g_start group))
      as (st & -> & _ & _ & Hframe).
    - intros j Hj. apply Hvars. lia.
    - intros j j' Hj Hj'. apply Hdistinct; lia.
    - cbn [n_regs]. lia.
    - cbn [n_regs]. destruct b; cbn; lia.
    - rewrite Z2Nat.id by lia.
      assert (Hstep : assemble_step type_size jitc_malloc schedule b (g_size group)
                                    (g_start group + k) st
                      = (r ≫= fun _ => Ok {| variables := vars; kernel_params := [];
                                             n_params_in := 0; n_params_out := 0;
                                             n_side_effects := 0; n_regs := 0;
                                             uses_optix := false |})).
      { unfold assemble_step, jitc_var. rewrite Hframe.
        - cbn [variables]. rewrite Hv. cbn [mbind outcome_bind obind]. rewrite Hr.
          destruct r as [[]| | |]; try reflexivity. discriminate Hfail.
        - intros j Hj. apply Hdistinct; lia. }
      rewrite failing_step; [exact Hstep|]. rewrite Hstep.
      destruct r as [[]| | |]; try reflexivity. discriminate Hfail. }
  split; intros msg Hmsg; rewrite (Hrun _ Hmsg); reflexivity.
Qed.

(** The second variable of the group is dirty ([ref_count_se = 1]). *)
Lemma assemble_first_failure_witness :
  jitc_assemble sizes bump sample_schedule LLVM
                (<[12 := {| backend := LLVM; ref_count_int := 0; ref_count_ext := 1;
                            ref_count_se := 1; size := 10; data := 0; literal := false;
                            has_stmt := true; type := Float32; value := 0;
                            output_flag := true; side_effect := false; optix := false;
                            param_offset := 0; param_type := Register; reg_index := 0 |}]>
                   (sample_vars LLVM)) false
                {| g_size := 10; g_start := 0; g_end := 4 |}
  = Fail "jit_assemble(): dirty variable r%u encountered!".
Proof.
  refine (proj2 (assemble_first_failure sizes bump sample_schedule LLVM _ false
                   {| g_size := 10; g_start := 0; g_end := 4 |} 1 _ _ _ _ _ _ _ _) _ _).
  - cbn. lia.
  - reflexivity.
  - reflexivity.
  - cbn. lia.
  - cbn [g_start g_end g_size]. intros j Hj. assert (j = 0) as -> by lia.
    eexists; split; vm_compute; reflexivity.
  - cbn [g_start g_end g_size]. intros j j' Hj Hj'.
    assert (j = 0) as -> by lia. assert (j' = 1) as -> by lia. vm_compute. discriminate.
  - vm_compute. reflexivity.
  - vm_compute. reflexivity.
Defined.

End ParamFacts.

Module LoopCtorFacts.
Import LoopBuilder LoopCtor.

Section Puts.
Context {J : Type}.

Lemma put_ok p size l (w : World J) l' w' :
  put p size l w = (l', w', Ok tt) ->
  w' = w /\ same_rest l l'
  /\ m_index_p l' = m_index_p l ++ [p] /\ m_index_in l' = m_index_in l ++ [slot w p]
  /\ m_size l' = Z.max (m_size l) size
  /\ (m_size l = 0 \/ size = 1 \/ size = m_size l).
Proof.
  unfold put.
  destruct (Z.eqb_spec (m_size l) 0) as [H0|H0]; cbn [negb andb].
  - intros H. injection H as <- <-. unfold same_rest. cbn.
    repeat split; try reflexivity; try (left; exact H0).
    destruct (Z.ltb_spec (m_size l) size); lia.
  - destruct (Z.eqb_spec size 1) as [H1|H1]; cbn [negb andb].
    + intros H. injection H as <- <-. unfold same_rest. cbn.
      repeat split; try reflexivity; try (right; left; exact H1).
      destruct (Z.ltb_spec (m_size l) size); lia.
    + destruct (Z.eqb_spec size (m_size l)) as [H2|H2]; cbn [negb andb].
      * intros H. injection H as <- <-. unfold same_rest. cbn.
        repeat split; try reflexivity; try (right; right; exact H2).
        destruct (Z.ltb_spec (m_size l) size); lia.
      * intros H. discriminate H.
Qed.

Lemma put_all_lists vars :
  forall l (w : World J) l' w',
    put_all vars l w = (l', w', Ok tt) ->
    w' = w /\ same_rest l l'
    /\ m_index_p l' = m_index_p l ++ List.map fst vars
    /\ m_index_in l' = m_index_in l ++ List.map (fun v => slot w (fst v)) vars.
Proof.
  induction vars as [|[p size] rest IH]; intros l w l' w' H; cbn [put_all] in H.
  - injection H as <- <-. unfold same_rest. cbn. rewrite !app_nil_r.
    repeat split; reflexivity.
  - destruct (put p size l w) as [[l1 w1] r] eqn:Hput.
    destruct r as [[]| | |]; try discriminate H.
    destruct (put_ok p size l w l1 w1 Hput) as (-> & Hrest1 & Hp1 & Hin1 & _).
    destruct (IH l1 w l' w' H) as (-> & Hrest & Hp & Hin).
    split; [reflexivity|]. split.
    { unfold same_rest in *. intuition congruence. }
    cbn [List.map fst].
    split; [rewrite Hp, Hp1, <- app_assoc; reflexivity|].
    rewrite Hin, Hin1, <- app_assoc. reflexivity.
Qed.

(** Once the loop has a size, it keeps it: further variables have one entry
    or that size. *)
Lemma put_all_sized vars :
  forall l (w : World J) l' w',
    0 < m_size l ->
    put_all vars l w = (l', w', Ok tt) ->
    m_size l' = m_size l /\ Forall (fun v => snd v = 1 \/ snd v = m_size l) vars.
Proof.
  induction vars as [|[p size] rest IH]; intros l w l' w' Hl H; cbn [put_all] in H.
  - injection H as <- <-. split; [reflexivity|constructor].
  - destruct (put p size l w) as [[l1 w1] r] eqn:Hput.
    destruct r as [[]| | |]; try discriminate H.
    destruct (put_ok p size l w l1 w1 Hput) as (_ & _ & _ & _ & Hs1 & Hacc).
    assert (Hsame : m_size l1 = m_size l) by lia.
    destruct (IH l1 w1 l' w' ltac:(lia) H) as (Hs & Hall). rewrite Hsame in *.
    split; [exact Hs|]. constructor; [cbn [snd]; lia|exact Hall].
Qed.

Lemma put_all_sizes vars :
  forall l (w : World J) l' w',
    m_size l = 0 -> Forall (fun v => 0 <= snd v) vars ->
    put_all vars l w = (l', w', Ok tt) ->
    m_size l' = fold_right Z.max 0 (List.map snd vars)
    /\ Forall (fun v => snd v = 0 \/ snd v = 1 \/ snd v = m_size l') vars.
Proof.
  induction vars as [|[p size] rest IH]; intros l w l' w' Hl Hpos H.
  - cbn [put_all] in H. injection H as <- <-. split; [exact Hl|constructor].
  - pose proof H as Hall. cbn [put_all] in H.
    destruct (put p size l w) as [[l1 w1] r] eqn:Hput.
    destruct r as [[]| | |]; try discriminate H.
    inversion Hpos as [|? ? Hsz Hpos']; subst. cbn [snd] in Hsz.
    destruct (put_ok p size l w l1 w1 Hput) as (_ & _ & _ & _ & Hs1 & _).
    cbn [List.map snd fold_right].
    destruct (Z.eq_dec size 0) as [->|Hnz].
    + destruct (IH l1 w1 l' w' ltac:(lia) Hpos' H) as (Hs & Hrest).
      split; [rewrite Hs; pose proof (proj1 (Z.max_r_iff 0 (fold_right Z.max 0 (List.map snd rest))))
             ; assert (0 <= fold_right Z.max 0 (List.map snd rest))
                 by (clear; induction (List.map snd rest); cbn [fold_right]; lia); lia|].
      constructor; [left; reflexivity|exact Hrest].
    + destruct (put_all_sized rest l1 w1 l' w' ltac:(lia) H) as (Hs & Hrest).
      assert (Hmax : fold_right Z.max 0 (List.map snd rest) <= size).
      { rewrite Hs1, Hl in Hrest. replace (Z.max 0 size) with size in Hrest by lia.
        clear - Hrest Hsz Hnz. induction rest as [|v rest IHr]; cbn [List.map fold_right]; [lia|].
        inversion Hrest; subst. specialize (IHr ltac:(assumption)). cbv beta in *. lia. }
      split; [lia|].
      constructor; [cbn [snd]; lia|].
      eapply Forall_impl; [exact Hrest|]. cbv beta. intros v Hv. lia.
Qed.
End Puts.


(** X11. When the constructor of [Loop] has registered its variables
    without an exception, [m_index_p] lists their slots and [m_index_in]
    their identifiers in the order of the arguments, [m_size] is the
    largest of their sizes, every variable has no entry, one entry or
    [m_size] entries, and the loop is still in state 0; the world is as
    before. *)
Theorem constructor_registers :
  forall (J : Type) name record vars (w : World J) l' w',
    Forall (fun v => 0 <= snd v) vars ->
    put_all vars (new_loop name record) w = (l', w', Ok tt) ->
    w' = w
    /\ m_index_p l' = List.map fst vars
    /\ m_index_in l' = List.map (fun v => slot w (fst v)) vars
    /\ m_size l' = fold_right Z.max 0 (List.map snd vars)
    /\ Forall (fun v => snd v = 0 \/ snd v = 1 \/ snd v = m_size l') vars
    /\ m_state l' = 0.
Proof.
  intros J name record vars w l' w' Hpos H.
  destruct (put_all_lists vars _ w l' w' H) as (-> & Hrest & Hp & Hin).
  destruct (put_all_sizes vars (new_loop name record) w l' w eq_refl Hpos H) as (Hs & Hall).
  split; [reflexivity|]. split; [exact Hp|]. split; [exact Hin|]. split; [exact Hs|].
  split; [exact Hall|]. unfold same_rest in Hrest. cbn in Hrest. tauto.
Qed.

(** An array of ten entries and a scalar. *)
Lemma constructor_registers_witness :
  exists l',
    put_all [(100, 10); (104, 1)] (new_loop "MyLoop" true) sample_world
    = (l', sample_world, Ok tt)
    /\ m_index_p l' = [100; 104] /\ m_size l' = 10.
Proof.
  destruct (put_all [(100, 10); (104, 1)] (new_loop "MyLoop" true) sample_world)
    as [[l' w'] r] eqn:E.
  assert (Hr : r = Ok tt) by (apply (f_equal snd) in E; vm_compute in E; congruence).
  subst r.
  destruct (constructor_registers Z "MyLoop" true [(100, 10); (104, 1)] sample_world l' w')
    as (-> & Hp & _ & Hs & _).
  - repeat constructor; cbn; lia.
  - exact E.
  - exists l'. split; [reflexivity|]. split; [exact Hp|exact Hs].
Defined.

Lemma put_accepts {J : Type} p size l (w : World J) :
  m_size l = 0 \/ size = 1 \/ size = m_size l ->
  exists l', put p size l w = (l', w, Ok tt) /\ m_size l' = Z.max (m_size l) size.
Proof.
  intros Hacc. destruct (put p size l w) as [[l' w'] r] eqn:E.
  assert (Hr : r = Ok tt).
  { unfold put in E.
    destruct (Z.eqb_spec (m_size l) 0), (Z.eqb_spec size 1), (Z.eqb_spec size (m_size l));
      cbn [negb andb] in E; try (injection E as <- <- <-; reflexivity); lia. }
  subst r. destruct (put_ok p size l w l' w' E) as (-> & _ & _ & _ & Hs & _).
  exists l'. split; [reflexivity|exact Hs].
Qed.

Lemma put_rejects {J : Type} p size l (w : World J) :
  m_size l <> 0 -> size <> 1 -> size <> m_size l ->
  snd (put p size l w) = Raise inconsistent_sizes.
Proof.
  intros H0 H1 H2. unfold put.
  destruct (Z.eqb_spec (m_size l) 0), (Z.eqb_spec size 1), (Z.eqb_spec size (m_size l));
    try contradiction. reflexivity.
Qed.

(** X12. The order of registration matters: a loop whose first variable
    has one entry rejects every later variable that has more than one, with
    the inconsistent-sizes exception, while the same two variables in the
    opposite order are accepted. *)
Theorem scalar_first_rejects_array :
  forall (J : Type) name record (w : World J) p q n,
    1 < n ->
    snd (put_all [(p, 1); (q, n)] (new_loop name record) w) = Raise inconsistent_sizes
    /\ snd (put_all [(q, n); (p, 1)] (new_loop name record) w) = Ok tt.
Proof.
  intros J name record w p q n Hn. cbn [put_all]. split.
  - destruct (put_accepts p 1 (new_loop name record) w) as (l1 & -> & Hs1);
      [left; reflexivity|].
    cbn [new_loop m_size] in Hs1.
    pose proof (put_rejects q n l1 w ltac:(lia) ltac:(lia) ltac:(lia)) as Hrej.
    destruct (put q n l1 w) as [[l2 w2] r]. cbn [snd] in *. subst r. reflexivity.
  - destruct (put_accepts q n (new_loop name record) w) as (l1 & -> & Hs1);
      [left; reflexivity|].
    destruct (put_accepts p 1 l1 w) as (l2 & -> & _); [right; left; reflexivity|].
    reflexivity.
Qed.

Lemma scalar_first_rejects_array_witness :
  snd (put_all [(100, 1); (104, 10)] (new_loop "MyLoop" true) sample_world)
  = Raise inconsistent_sizes
  /\ snd (put_all [(104, 10); (100, 1)] (new_loop "MyLoop" true) sample_world) = Ok tt.
Proof.
  apply (scalar_first_rejects_array Z "MyLoop" true sample_world 100 104 10). lia.
Defined.

Lemma put_keeps {J : Type} p size l (w : World J) :
  same_rest l (fst (fst (put p size l w))) /\ snd (fst (put p size l w)) = w.
Proof.
  unfold put. destruct (negb _ && negb _ && negb _); cbn [fst snd]; unfold same_rest; cbn;
    repeat split; reflexivity.
Qed.

Lemma put_all_keeps {J : Type} vars :
  forall l (w : World J),
    same_rest l (fst (fst (put_all vars l w))) /\ snd (fst (put_all vars l w)) = w.
Proof.
  induction vars as [|[p size] rest IH]; intros l w; cbn [put_all].
  - cbn [fst snd]. unfold same_rest. repeat split; reflexivity.
  - destruct (put_keeps p size l w) as [Hrest Hw].
    destruct (put p size l w) as [[l1 w1] r]. cbn [fst snd] in Hrest, Hw. subst w1.
    destruct r as [[]| | |]; cbn [fst snd]; try (split; [exact Hrest|reflexivity]).
    destruct (IH l1 w) as [Hrest' Hw']. split; [|exact Hw'].
    unfold same_rest in *. intuition congruence.
Qed.

(** X13. A loop that was never initialised is destroyed without any effect:
    whether its variables were registered or their registration raised,
    the destructor rolls nothing back, pops no mask and logs no warning. *)
Theorem destroy_uninitialised :
  forall (J : Type) (jit_var_dec_ref_ext : Z -> J -> J)
         (jit_side_effects_rollback : Z -> J -> J) (jit_var_mask_pop : J -> J)
         name record vars (w : World J) l' w' r,
    put_all vars (new_loop name record) w = (l', w', r) ->
    w' = w
    /\ destroy jit_var_dec_ref_ext jit_side_effects_rollback jit_var_mask_pop l' w' = w'.
Proof.
  intros J dec rollback pop name record vars w l' w' r H.
  destruct (put_all_keeps vars (new_loop name record) w) as [Hrest Hw].
  rewrite H in Hrest, Hw. cbn [fst snd] in Hrest, Hw. subst w'.
  split; [reflexivity|].
  destruct Hrest as (_ & _ & Hout & _ & Hstate & Hoff & _ & _).
  cbn [new_loop m_index_out m_state m_se_offset] in Hout, Hstate, Hoff.
  unfold destroy. rewrite Hout, Hstate, Hoff. rewrite Z.eqb_refl.
  cbn [negb andb length Z.of_nat Z.ltb Z.compare Z.eqb]. rewrite !andb_false_r.
  reflexivity.
Qed.

Section Life.
Context {J : Type}.
Variable jit_var_new_placeholder : Z -> J -> Z * J.
Variable jit_var_dec_ref_ext : Z -> J -> J.
Variable jit_var_loop : LoopNode -> J -> list Z * J.
Variable jit_side_effects_scheduled : J -> Z.
Variable jit_side_effects_rollback : Z -> J -> J.
Variable jit_var_mask_pop : J -> J.
Variable cond_wavefront : Z -> Loop -> World J -> result J bool.

Lemma step_other ps p :
  forall w : World J,
    ~ In p ps ->
    slots (fold_left (step_one jit_var_new_placeholder jit_var_dec_ref_ext) ps w) !! p
    = slots w !! p.
Proof.
  induction ps as [|q ps IH]; intros w Hp; cbn [fold_left]; [reflexivity|].
  rewrite IH by (intros H; apply Hp; right; exact H).
  unfold step_one. destruct (jit_var_new_placeholder (slot w q) (jit w)) as [next j].
  cbn [set_slot slots]. apply lookup_insert_ne. intros ->. apply Hp. left. reflexivity.
Qed.

(** What the second recorded call of [cond] keeps of the loop, and the
    slots it leaves alone. *)
Lemma second_cond_keeps c l (w : World J) l3 w3 r3 :
  m_record l = true -> m_state l = 2 ->
  cond jit_var_new_placeholder jit_var_dec_ref_ext jit_var_loop cond_wavefront c l w
  = (l3, w3, r3) ->
  m_se_offset l3 = m_se_offset l /\ m_se_flag l3 = m_se_flag l /\ m_index_p l3 = m_index_p l
  /\ (forall p, ~ In p (m_index_p l) -> slots w3 !! p = slots w !! p).
Proof.
  intros Hrec Hstate. unfold cond, cond_record. rewrite Hrec, Hstate.
  change (u32 (2 + 1)) with 3. cbn [Z.eqb Pos.eqb].
  match goal with
  | |- (let '(out, j) := jit_var_loop ?nd ?j0 in _) = _ -> _ =>
      destruct (jit_var_loop nd j0) as [out j]
  end.
  intros H. injection H as <- <- <-.
  cbn [set_state m_se_offset m_se_flag m_index_p set_flag slots].
  split; [reflexivity|]. split; [reflexivity|]. split; [reflexivity|].
  intros p Hp. rewrite (LoopFacts.write_back_other jit_var_dec_ref_ext) by exact Hp.
  reflexivity.
Qed.

(** X14. After a complete recording (init, then two calls of cond) the
    destructor logs no warning and leaves the slots as they are, but it
    still rolls the side effects back to the watermark taken by [init]
    (unless that is [(uint32_t) -1]) and sets the postponement flag to its
    value before [init]. *)
Theorem destroy_after_recording :
  forall (l0 : Loop) (w0 : World J) (c c' : Z),
    m_record l0 = true -> m_state l0 = 0 ->
    forall l1 w1 r1 l2 w2 r2 l3 w3 r3,
      init jit_var_new_placeholder jit_var_dec_ref_ext jit_side_effects_scheduled l0 w0
      = (l1, w1, r1) ->
      cond jit_var_new_placeholder jit_var_dec_ref_ext jit_var_loop cond_wavefront c l1 w1
      = (l2, w2, r2) ->
      cond jit_var_new_placeholder jit_var_dec_ref_ext jit_var_loop cond_wavefront c' l2 w2
      = (l3, w3, r3) ->
      let w4 := destroy jit_var_dec_ref_ext jit_side_effects_rollback jit_var_mask_pop l3 w3 in
      warnings w4 = warnings w3 /\ slots w4 = slots w3 /\ emitted w4 = emitted w3
      /\ postpone_side_effects w4 = postpone_side_effects w0
      /\ jit w4 = if m_se_offset l1 =? 2 ^ 32 - 1 then jit w3
                  else jit_side_effects_rollback (m_se_offset l1) (jit w3).
Proof.
  intros l0 w0 c c' Hrec Hstate l1 w1 r1 l2 w2 r2 l3 w3 r3 Hinit Hc1 Hc2.
  destruct (LoopFacts.init_spec _ _ _ l0 w0 l1 w1 r1 Hrec Hstate Hinit)
    as (_ & Hw1 & Hs1 & Hr1 & _ & _ & _ & Hf1 & _).
  destruct (LoopFacts.first_cond_spec _ _ jit_var_loop cond_wavefront c l1 w1 l2 w2 r2 Hr1 Hs1 Hc1)
    as (_ & _ & Hs2 & Hr2 & _ & _ & Hp2 & _ & _ & Hf2 & Hoff2).
  destruct (second_cond_keeps c' l2 w2 l3 w3 r3 Hr2 Hs2 Hc2) as (Hoff3 & Hf3 & _ & _).
  assert (Hl3 : m_state l3 = 3 /\ m_record l3 = true /\ postpone_side_effects w3 = m_se_flag l2).
  { revert Hc2. unfold cond, cond_record. rewrite Hr2, Hs2.
    change (u32 (2 + 1)) with 3. cbn [Z.eqb Pos.eqb].
    match goal with
    | |- (let '(out, j) := jit_var_loop ?nd ?j0 in _) = _ -> _ =>
        destruct (jit_var_loop nd j0) as [out j]
    end.
    intros H. injection H as <- <- <-. cbn [set_state m_state m_record set_flag
                                                    postpone_side_effects m_se_flag].
    split; [reflexivity|]. split; [exact Hr2|reflexivity]. }
  destruct Hl3 as (Hs3 & Hr3 & Hflag3).
  destruct (LoopFacts.step_keeps jit_var_new_placeholder jit_var_dec_ref_ext (m_index_p l0) w0)
    as (Hpa & _ & _).
  fold (step jit_var_new_placeholder jit_var_dec_ref_ext l0 w0) in Hpa.
  assert (Hflag : m_se_flag l3 = postpone_side_effects w0) by congruence.
  cbv zeta. unfold destroy. rewrite Hr3, Hs3, Hoff3, Hoff2, Hflag.
  cbn [negb andb Z.eqb Pos.eqb].
  destruct (Z.eqb_spec (m_se_offset l1) (2 ^ 32 - 1)) as [E|E]; cbn [negb].
  - repeat split; try reflexivity. congruence.
  - cbn [set_flag warnings slots emitted postpone_side_effects jit].
    repeat split; reflexivity.
Qed.

(** X15. Recording touches the registered slots only: a slot that was not
    passed to [put] holds the same identifier after init and both calls of
    cond as before. *)
Theorem recording_keeps_other_slots :
  forall (l0 : Loop) (w0 : World J) (c c' : Z) (p : Z),
    m_record l0 = true -> m_state l0 = 0 -> ~ In p (m_index_p l0) ->
    forall l1 w1 r1 l2 w2 r2 l3 w3 r3,
      init jit_var_new_placeholder jit_var_dec_ref_ext jit_side_effects_scheduled l0 w0
      = (l1, w1, r1) ->
      cond jit_var_new_placeholder jit_var_dec_ref_ext jit_var_loop cond_wavefront c l1 w1
      = (l2, w2, r2) ->
      cond jit_var_new_placeholder jit_var_dec_ref_ext jit_var_loop cond_wavefront c' l2 w2
      = (l3, w3, r3) ->
      slots w1 !! p = slots w0 !! p /\ slots w2 !! p = slots w0 !! p
      /\ slots w3 !! p = slots w0 !! p.
Proof.
  intros l0 w0 c c' p Hrec Hstate Hp l1 w1 r1 l2 w2 r2 l3 w3 r3 Hinit Hc1 Hc2.
  destruct (LoopFacts.init_spec _ _ _ l0 w0 l1 w1 r1 Hrec Hstate Hinit)
    as (_ & Hw1 & Hs1 & Hr1 & Hp1 & _).
  destruct (LoopFacts.first_cond_spec _ _ jit_var_loop cond_wavefront c l1 w1 l2 w2 r2 Hr1 Hs1 Hc1)
    as (_ & Hw2 & Hs2 & Hr2 & _ & _ & Hp2 & _).
  destruct (second_cond_keeps c' l2 w2 l3 w3 r3 Hr2 Hs2 Hc2) as (_ & _ & _ & Hother).
  assert (H1 : slots w1 !! p = slots w0 !! p).
  { rewrite Hw1. cbn [set_flag slots]. unfold step. apply step_other. exact Hp. }
  assert (H2 : slots w2 !! p = slots w0 !! p).
  { rewrite Hw2, step_other by (rewrite Hp1; exact Hp). exact H1. }
  split; [exact H1|]. split; [exact H2|].
  rewrite Hother by (rewrite Hp2, Hp1; exact Hp). exact H2.
Qed.
End Life.

Lemma destroy_uninitialised_witness :
  destroy keep rollback (fun j : Z => j)
          (fst (fst (put_all [(100, 10); (104, 5)] (new_loop "MyLoop" true) sample_world)))
          sample_world
  = sample_world.
Proof.
  destruct (put_all [(100, 10); (104, 5)] (new_loop "MyLoop" true) sample_world)
    as [[l' w'] r] eqn:E.
  destruct (destroy_uninitialised Z keep rollback (fun j : Z => j) "MyLoop" true
                                  [(100, 10); (104, 5)] sample_world l' w' r E) as [-> H].
  exact H.
Defined.

Lemma triple_eta {A B C : Type} (t : A * B * C) : t = (fst (fst t), snd (fst t), snd t).
Proof. destruct t as [[a b] c]. reflexivity. Qed.

(** The loop of two variables, recorded with the masks 7 and 8. *)
Lemma destroy_after_recording_witness :
  warnings (run_destroy (fst (fst recorded)) (snd (fst recorded)))
  = warnings (snd (fst recorded))
  /\ postpone_side_effects (run_destroy (fst (fst recorded)) (snd (fst recorded)))
     = postpone_side_effects sample_world.
Proof.
  destruct (destroy_after_recording fresh_placeholder keep fresh_loop scheduled rollback
              (fun j : Z => j) no_wavefront sample_loop sample_world 7 8
              eq_refl eq_refl _ _ _ _ _ _ _ _ _
              (triple_eta initialised) (triple_eta entered) (triple_eta recorded))
    as (Hw & _ & _ & Hf & _).
  split; [exact Hw|exact Hf].
Defined.

(** The slot at address 200 was not registered. *)
Lemma recording_keeps_other_slots_witness :
  slots (snd (fst recorded)) !! 200 = slots sample_world !! 200.
Proof.
  assert (Hp : ~ In 200 (m_index_p sample_loop)).
  { change (m_index_p sample_loop) with [100; 104]. intros [H|[H|[]]]; discriminate H. }
  destruct (recording_keeps_other_slots fresh_placeholder keep fresh_loop scheduled
              no_wavefront sample_loop sample_world 7 8 200
              eq_refl eq_refl Hp _ _ _ _ _ _ _ _ _
              (triple_eta initialised) (triple_eta entered) (triple_eta recorded))
    as (_ & _ & H3).
  exact H3.
Defined.

End LoopCtorFacts.

Module BlockFacts.
Import PrefixSum Block.

Section Copy.
Context {T : Type}.

(** The inner loop of the copy: [block_size] cells from [outp] on get
    [value]. *)
Lemma copy_inner (value : T) n :
  forall j outp (m : mem T),
    let r := iter_up n j (fun (_ : Z) '(outp, m) => (outp + 1, upd m outp value)) (outp, m) in
    fst r = outp + Z.of_nat n
    /\ (forall x, snd r x = if (outp <=? x) && (x <? outp + Z.of_nat n) then value else m x).
Proof.
  induction n as [|n IH]; intros j outp m; cbn [iter_up].
  - cbn [fst snd]. split; [lia|]. intros x.
    destruct (Z.leb_spec outp x), (Z.ltb_spec x (outp + Z.of_nat 0)); cbn [andb];
      try reflexivity; lia.
  - destruct (IH (j + 1) (outp + 1) (upd m outp value)) as [H1 H2]. cbv zeta in *.
    split; [rewrite H1; lia|]. intros x. rewrite H2. unfold upd.
    destruct (Z.leb_spec (outp + 1) x), (Z.ltb_spec x (outp + 1 + Z.of_nat n)),
      (Z.leb_spec outp x), (Z.ltb_spec x (outp + Z.of_nat (S n))), (Z.eqb_spec x outp);
      cbn [andb]; try reflexivity; lia.
Qed.

(** The outer loop of the copy from element [i] on, when the cells it
    reads are none of those it writes. *)
Lemma copy_outer in_ out_ bs n :
  0 <= bs < 2 ^ 32 ->
  forall i (m : mem T),
    (forall k x, i <= k < i + Z.of_nat n ->
                 out_ + i * bs <= x < out_ + (i + Z.of_nat n) * bs -> x <> in_ + k) ->
    let r := iter_up n i
               (fun (_ : Z) '(inp, outp, m) =>
                  let value := m inp in
                  let '(outp', m') :=
                    for_u32 0 bs (fun (_ : Z) '(outp, m) => (outp + 1, upd m outp value))
                            (outp, m) in
                  (inp + 1, outp', m'))
               (in_ + i, out_ + i * bs, m) in
    (forall k j, i <= k < i + Z.of_nat n -> 0 <= j < bs ->
                 snd r (out_ + k * bs + j) = m (in_ + k))
    /\ (forall x, ~ (out_ + i * bs <= x < out_ + (i + Z.of_nat n) * bs) -> snd r x = m x).
Proof.
  intros Hbs.
  match goal with |- context [iter_up _ _ ?f _] => set (body := f) end.
  induction n as [|n IH]; intros i m Hdis; cbn [iter_up].
  - cbn [snd]. split; [intros k j Hk; lia|reflexivity].
  - assert (Hstep : exists m1,
               body i (in_ + i, out_ + i * bs, m) = (in_ + (i + 1), out_ + (i + 1) * bs, m1)
               /\ forall x, m1 x = if (out_ + i * bs <=? x) && (x <? out_ + i * bs + bs)
                                   then m (in_ + i) else m x).
    { subst body. cbv beta iota zeta. rewrite for_u32_iter_up by lia. rewrite Z.sub_0_r.
      destruct (iter_up _ _ _ _) as [outp1 m1] eqn:E.
      assert (He : fst (outp1, m1) = out_ + i * bs + Z.of_nat (Z.to_nat bs)
                   /\ forall x, snd (outp1, m1) x
                                = if (out_ + i * bs <=? x)
                                     && (x <? out_ + i * bs + Z.of_nat (Z.to_nat bs))
                                  then m (in_ + i) else m x)
        by (rewrite <- E; exact (copy_inner (m (in_ + i)) (Z.to_nat bs) 0 (out_ + i * bs) m)).
      destruct He as [H1 H2]. cbn [fst snd] in H1, H2. rewrite Z2Nat.id in H1, H2 by lia.
      exists m1. split; [|exact H2]. f_equal. f_equal; nia. }
    destruct Hstep as (m1 & -> & H2).
    destruct (IH (i + 1) m1) as [H3 H4].
    { intros k x Hk Hx. apply Hdis; [lia|]. nia. }
    cbv zeta in H3, H4 |- *. split.
    + intros k j Hk Hj. destruct (Z.eq_dec k i) as [->|Hne].
      * rewrite H4 by nia. rewrite H2.
        destruct (Z.leb_spec (out_ + i * bs) (out_ + i * bs + j)); [|lia].
        destruct (Z.ltb_spec (out_ + i * bs + j) (out_ + i * bs + bs)); [|lia].
        reflexivity.
      * rewrite H3 by lia. rewrite H2.
        destruct (Z.leb_spec (out_ + i * bs) (in_ + k)),
          (Z.ltb_spec (in_ + k) (out_ + i * bs + bs)); cbn [andb]; try reflexivity.
        exfalso. apply (Hdis k (in_ + k)); [lia| |reflexivity]. nia.
    + intros x Hx. rewrite H4 by nia. rewrite H2.
      destruct (Z.leb_spec (out_ + i * bs) x), (Z.ltb_spec x (out_ + i * bs + bs));
        cbn [andb]; try reflexivity. exfalso. apply Hx. nia.
Qed.

(** [block_copy_T] on the elements [start .. end). *)
Lemma block_copy_range in_ out_ start end_ bs (m : mem T) :
  0 <= bs < 2 ^ 32 -> 0 <= start <= end_ -> end_ < 2 ^ 32 -> start * bs < 2 ^ 32 ->
  (forall k x, start <= k < end_ -> out_ + start * bs <= x < out_ + end_ * bs -> x <> in_ + k) ->
  (forall k j, start <= k < end_ -> 0 <= j < bs ->
               block_copy_T in_ out_ start end_ bs m (out_ + k * bs + j) = m (in_ + k))
  /\ (forall x, ~ (out_ + start * bs <= x < out_ + end_ * bs) ->
                block_copy_T in_ out_ start end_ bs m x = m x).
Proof.
  intros Hbs Hrange Hend Hmul Hdis. unfold block_copy_T.
  rewrite for_u32_iter_up by lia. rewrite (u32_small (start * bs)) by nia.
  destruct (copy_outer in_ out_ bs (Z.to_nat (end_ - start)) Hbs start m) as [H1 H2].
  { intros k x Hk Hx. apply Hdis; [lia|]. rewrite Z2Nat.id in Hx by lia.
    replace (start + (end_ - start)) with end_ in Hx by lia. exact Hx. }
  cbv zeta in H1, H2. rewrite Z2Nat.id in H1, H2 by lia.
  replace (start + (end_ - start)) with end_ in H1, H2 by lia.
  split; [exact H1|exact H2].
Qed.

(** The work units [k .. blocks) of the host path, each running the copy on
    its range. *)
Lemma copy_units in_ out_ size bs wus blocks n :
  0 <= bs < 2 ^ 32 -> 0 < size -> size * bs < 2 ^ 32 ->
  0 < wus -> (blocks - 1) * wus < size -> size <= blocks * wus -> blocks * wus < 2 ^ 32 ->
  (forall i x, 0 <= i < size -> out_ <= x < out_ + size * bs -> x <> in_ + i) ->
  forall k (m : mem T),
    0 <= k -> k + Z.of_nat n = blocks ->
    let r := iter_up n k
               (fun index m =>
                  block_copy_T in_ out_ (fst (block_range wus size index))
                               (snd (block_range wus size index)) bs m) m in
    (forall i j, k * wus <= i < size -> 0 <= j < bs -> r (out_ + i * bs + j) = m (in_ + i))
    /\ (forall x, ~ (out_ + Z.min (k * wus) size * bs <= x < out_ + size * bs) -> r x = m x).
Proof.
  intros Hbs Hsize Hmul Hwus Hlast Hcover Hmax Hdis.
  induction n as [|n IH]; intros k m Hk Hn; cbn [iter_up].
  - split; [intros i j Hi; nia|reflexivity].
  - assert (Hk1 : k * wus < size) by nia.
    assert (Hk2 : k * wus + wus <= blocks * wus) by nia.
    rewrite PrefixSumFacts.block_range_spec by lia32. cbn [fst snd].
    set (e := Z.min (k * wus + wus) size).
    assert (He : k * wus < e <= size) by (subst e; lia).
    assert (Hkb : 0 <= k * wus * bs /\ k * wus * bs <= e * bs /\ e * bs <= size * bs) by nia.
    destruct (block_copy_range in_ out_ (k * wus) e bs m) as [H1 H2]; try lia.
    { intros i x Hi Hx. apply Hdis; [nia|nia]. }
    set (m1 := block_copy_T in_ out_ (k * wus) e bs m) in *.
    destruct (IH (k + 1) m1 ltac:(lia) ltac:(lia)) as [H3 H4]. cbv zeta in *.
    assert (Hmin : Z.min ((k + 1) * wus) size = e) by (subst e; f_equal; lia).
    rewrite Hmin in H4.
    assert (Hin : forall i, 0 <= i < size -> m1 (in_ + i) = m (in_ + i)).
    { intros i Hi. apply H2. intros Hx. apply (Hdis i (in_ + i)); [lia|nia|reflexivity]. }
    split.
    + intros i j Hi Hj. destruct (Z_lt_le_dec i e) as [Hlt|Hge].
      * assert (Hie : i * bs + bs <= e * bs) by (clear - Hlt Hbs; nia).
        rewrite H4 by lia. apply H1; lia.
      * rewrite H3 by lia. apply Hin. lia.
    + intros x Hx. rewrite Z.min_l in Hx by lia.
      rewrite H4 by nia. apply H2. nia.
Qed.

(** The host path of [jitc_block_copy] from [BlockOp op] on, for the
    operation [block_copy_T]. *)
Lemma copy_run ps bsz in_ out_ size bs (m : mem T) :
  (1 < ps -> 2 <= bsz) -> 0 < size < 2 ^ 32 -> (1 < ps -> size + bsz <= 2 ^ 32) ->
  0 <= bs -> size * bs < 2 ^ 32 ->
  (in_ + size <= out_ \/ out_ + size * bs <= in_) ->
  exists m',
    (let '(work_unit_size, work_units) := block_config ps bsz size in
     jitc_submit_cpu
       (fun index m =>
          let '(start, end_) := block_range work_unit_size size index in
          Ok (block_copy_T in_ out_ start end_ bs m))
       work_units m) = Ok m'
    /\ (forall i j, 0 <= i < size -> 0 <= j < bs -> m' (out_ + i * bs + j) = m (in_ + i))
    /\ (forall x, ~ (out_ <= x < out_ + size * bs) -> m' x = m x).
Proof.
  intros Hcfg Hsize Hovf Hbs Hmul Hdis.
  destruct (PrefixSumFacts.block_geometry ps bsz size Hcfg Hsize Hovf)
    as (wus & blocks & -> & Hwus & Hlast & Hcover & Hmax & Hb1 & _).
  unfold jitc_submit_cpu.
  rewrite (submit_aux_ok _ (fun index m =>
                              block_copy_T in_ out_ (fst (block_range wus size index))
                                           (snd (block_range wus size index)) bs m)).
  2:{ intros j s' _. destruct (block_range wus size j). reflexivity. }
  assert (Hbs' : 0 <= bs < 2 ^ 32) by nia.
  destruct (copy_units in_ out_ size bs wus blocks (Z.to_nat blocks) Hbs' ltac:(lia) Hmul
                       Hwus Hlast Hcover Hmax) with (k := 0) (m := m) as [H1 H2];
    try lia.
  eexists. split; [reflexivity|]. cbv zeta in *. split.
  - intros i j Hi Hj. apply H1; lia.
  - intros x Hx. apply H2. rewrite Z.mul_0_l, Z.min_l by lia. lia.
Qed.
End Copy.

(** X16. On the host path, [jitc_block_copy] with a block size of at least
    two and an element type it supports (a signed integer type is treated
    as the unsigned type of its width) returns normally and replicates:
    each of the [block_size] output cells of element [i] holds input
    element [i], whatever the number of workers, and no cell outside the
    output is changed. The input and the output must not overlap,
    [size * block_size] must fit [uint32_t], and with several workers the
    worker block size [bsz] is at least two with [size + bsz <= 2^32]. *)
Theorem block_copy_replicates :
  forall ps bsz tsz cpy cuda type in_ out_ size block_size (m : mem (elt type)),
    (1 < ps -> 2 <= bsz) -> 0 < size < 2 ^ 32 -> (1 < ps -> size + bsz <= 2 ^ 32) ->
    2 <= block_size -> size * block_size < 2 ^ 32 ->
    Block.supported (make_int_type_unsigned type) = true ->
    (in_ + size <= out_ \/ out_ + size * block_size <= in_) ->
    exists m',
      jitc_block_copy ps bsz tsz cpy cuda LLVM type in_ out_ size block_size m = Ok m'
      /\ (forall i j, 0 <= i < size -> 0 <= j < block_size ->
                      m' (out_ + i * block_size + j) = m (in_ + i))
      /\ (forall x, ~ (out_ <= x < out_ + size * block_size) -> m' x = m x).
Proof.
  intros ps bsz tsz cpy cuda type in_ out_ size block_size m Hcfg Hsize Hovf Hbs Hmul
         Hsup Hdis.
  unfold jitc_block_copy.
  destruct (Z.eqb_spec block_size 0) as [?|_]; [lia|].
  destruct (Z.eqb_spec block_size 1) as [?|_]; [lia|].
  destruct type; try discriminate Hsup; unfold block_copy_run;
    cbn [jitc_block_copy_create mbind outcome_bind obind];
    apply copy_run; assumption || lia.
Qed.

(** Three UInt16 values, each replicated twice, on blocks of two
    elements. *)
Lemma block_copy_replicates_witness :
  exists m',
    jitc_block_copy 2 2 Block.sizes no_memcpy Block.no_cuda LLVM UInt16 0 8 3 2
                    (of_list 0 [7; 8; 9]) = Ok m'
    /\ (forall i j, 0 <= i < 3 -> 0 <= j < 2 -> m' (8 + i * 2 + j) = of_list 0 [7; 8; 9] (0 + i))
    /\ (forall x, ~ (8 <= x < 8 + 3 * 2) -> m' x = of_list 0 [7; 8; 9] x).
Proof.
  apply (block_copy_replicates 2 2 Block.sizes no_memcpy Block.no_cuda UInt16 0 8 3 2
                               (of_list 0 [7; 8; 9])).
  - intros _. lia.
  - split; [lia|reflexivity].
  - intros _. vm_compute. discriminate.
  - lia.
  - reflexivity.
  - reflexivity.
  - left. lia.
Defined.

End BlockFacts.

Module BlockSumFacts.
Import PrefixSum Block BlockSpec.

Section Sum.
Context {T : Type} (A : arith T).

Lemma sum_inner (m : mem T) n :
  forall j inp acc,
    iter_up n j (fun (_ : Z) '(inp, sum) => (inp + 1, add A sum (m inp))) (inp, acc)
    = (inp + Z.of_nat n, iter_up n inp (fun j sum => add A sum (m j)) acc).
Proof.
  induction n as [|n IH]; intros j inp acc; cbn [iter_up].
  - f_equal. lia.
  - rewrite IH. f_equal. lia.
Qed.

Lemma total_ext (m m' : mem T) base n :
  (forall x, base <= x < base + Z.of_nat n -> m' x = m x) -> total A m' base n = total A m base n.
Proof.
  intros H. unfold total. apply iter_up_ext. intros j s Hj. rewrite H by lia. reflexivity.
Qed.

Lemma sum_outer in_ out_ bs n :
  0 <= bs < 2 ^ 32 ->
  forall i (m : mem T),
    0 <= i ->
    (forall k x, i <= k < i + Z.of_nat n ->
                 in_ + i * bs <= x < in_ + (i + Z.of_nat n) * bs -> x <> out_ + k) ->
    let r := iter_up n i
               (fun (_ : Z) '(inp, outp, m) =>
                  let '(inp', sum) :=
                    for_u32 0 bs (fun (_ : Z) '(inp, sum) => (inp + 1, add A sum (m inp)))
                            (inp, zero A) in
                  (inp', outp + 1, upd m outp sum))
               (in_ + i * bs, out_ + i, m) in
    (forall k, i <= k < i + Z.of_nat n ->
               snd r (out_ + k) = total A m (in_ + k * bs) (Z.to_nat bs))
    /\ (forall x, ~ (out_ + i <= x < out_ + i + Z.of_nat n) -> snd r x = m x).
Proof.
  intros Hbs.
  match goal with |- context [iter_up _ _ ?f _] => set (body := f) end.
  induction n as [|n IH]; intros i m Hi Hdis; cbn [iter_up].
  - cbn [snd]. split; [intros k Hk; lia|reflexivity].
  - assert (Hstep : body i (in_ + i * bs, out_ + i, m)
                    = (in_ + (i + 1) * bs, out_ + (i + 1),
                       upd m (out_ + i) (total A m (in_ + i * bs) (Z.to_nat bs)))).
    { subst body. cbv beta iota zeta. rewrite for_u32_iter_up by lia. rewrite Z.sub_0_r.
      rewrite sum_inner. rewrite Z2Nat.id by lia. unfold total. f_equal. f_equal; nia. }
    rewrite Hstep.
    set (m1 := upd m (out_ + i) (total A m (in_ + i * bs) (Z.to_nat bs))).
    assert (Hm1 : forall x, x <> out_ + i -> m1 x = m x).
    { intros x Hx. subst m1. unfold upd. destruct (Z.eqb_spec x (out_ + i)); congruence. }
    destruct (IH (i + 1) m1 ltac:(lia)) as [H3 H4].
    { intros k x Hk Hx. apply Hdis; [lia|]. nia. }
    cbv zeta in H3, H4 |- *. split.
    + intros k Hk. destruct (Z.eq_dec k i) as [->|Hne].
      * rewrite H4 by lia. subst m1. unfold upd. rewrite Z.eqb_refl. reflexivity.
      * rewrite H3 by lia. apply total_ext. intros x Hx. apply Hm1.
        rewrite Z2Nat.id in Hx by lia. apply Hdis; [lia|]. nia.
    + intros x Hx. rewrite H4 by lia. apply Hm1. lia.
Qed.

(** [block_sum_T] on the elements [start .. end). *)
Lemma block_sum_range in_ out_ start end_ bs (m : mem T) :
  0 <= bs < 2 ^ 32 -> 0 <= start <= end_ -> end_ < 2 ^ 32 -> start * bs < 2 ^ 32 ->
  (forall k x, start <= k < end_ -> in_ + start * bs <= x < in_ + end_ * bs -> x <> out_ + k) ->
  (forall k, start <= k < end_ ->
             block_sum_T A in_ out_ start end_ bs m (out_ + k)
             = total A m (in_ + k * bs) (Z.to_nat bs))
  /\ (forall x, ~ (out_ + start <= x < out_ + end_) ->
                block_sum_T A in_ out_ start end_ bs m x = m x).
Proof.
  intros Hbs Hrange Hend Hmul Hdis. unfold block_sum_T.
  rewrite for_u32_iter_up by lia. rewrite (u32_small (start * bs)) by nia.
  destruct (sum_outer in_ out_ bs (Z.to_nat (end_ - start)) Hbs start m ltac:(lia))
    as [H1 H2].
  { intros k x Hk Hx. apply Hdis; [lia|]. rewrite Z2Nat.id in Hx by lia.
    replace (start + (end_ - start)) with end_ in Hx by lia. exact Hx. }
  cbv zeta in H1, H2. rewrite Z2Nat.id in H1, H2 by lia.
  split; [intros k Hk; apply H1; lia|intros x Hx; apply H2; lia].
Qed.

Lemma sum_units in_ out_ size bs wus blocks n :
  0 <= bs < 2 ^ 32 -> 0 < size -> size * bs < 2 ^ 32 ->
  0 < wus -> (blocks - 1) * wus < size -> size <= blocks * wus -> blocks * wus < 2 ^ 32 ->
  (forall i x, 0 <= i < size -> in_ <= x < in_ + size * bs -> x <> out_ + i) ->
  forall k (m : mem T),
    0 <= k -> k + Z.of_nat n = blocks ->
    let r := iter_up n k
               (fun index m =>
                  block_sum_T A in_ out_ (fst (block_range wus size index))
                              (snd (block_range wus size index)) bs m) m in
    (forall i, k * wus <= i < size -> r (out_ + i) = total A m (in_ + i * bs) (Z.to_nat bs))
    /\ (forall x, ~ (out_ + Z.min (k * wus) size <= x < out_ + size) -> r x = m x).
Proof.
  intros Hbs Hsize Hmul Hwus Hlast Hcover Hmax Hdis.
  induction n as [|n IH]; intros k m Hk Hn; cbn [iter_up].
  - split; [intros i Hi; nia|reflexivity].
  - assert (Hk1 : k * wus < size) by nia.
    assert (Hk2 : k * wus + wus <= blocks * wus) by nia.
    rewrite PrefixSumFacts.block_range_spec by lia32. cbn [fst snd].
    set (e := Z.min (k * wus + wus) size).
    assert (He : k * wus < e <= size) by (subst e; lia).
    assert (Hkb : 0 <= k * wus * bs /\ k * wus * bs <= e * bs /\ e * bs <= size * bs) by nia.
    destruct (block_sum_range in_ out_ (k * wus) e bs m Hbs ltac:(lia) ltac:(lia32)
                              ltac:(lia32)) as [H1 H2].
    { intros i x Hi Hx. apply Hdis; [nia|nia]. }
    set (m1 := block_sum_T A in_ out_ (k * wus) e bs m) in *.
    destruct (IH (k + 1) m1 ltac:(lia) ltac:(lia)) as [H3 H4]. cbv zeta in *.
    assert (Hmin : Z.min ((k + 1) * wus) size = e) by (subst e; f_equal; lia).
    rewrite Hmin in H4.
    assert (Hin : forall i, 0 <= i < size ->
                            total A m1 (in_ + i * bs) (Z.to_nat bs)
                            = total A m (in_ + i * bs) (Z.to_nat bs)).
    { intros i Hi. apply total_ext. intros x Hx. rewrite Z2Nat.id in Hx by lia.
      apply H2. intros Hy.
      assert (Hib : 0 <= i * bs /\ i * bs + bs <= size * bs) by (clear - Hi Hbs; nia).
      assert (Hx' : in_ <= x < in_ + size * bs) by lia.
      apply (Hdis (x - out_) x); [lia|exact Hx'|lia]. }
    split.
    + intros i Hi. destruct (Z_lt_le_dec i e) as [Hlt|Hge].
      * rewrite H4 by lia. apply H1; lia.
      * rewrite H3 by lia. apply Hin. lia.
    + intros x Hx. rewrite Z.min_l in Hx by lia.
      rewrite H4 by lia. apply H2. lia.
Qed.

Lemma sum_run ps bsz in_ out_ size bs (m : mem T) :
  (1 < ps -> 2 <= bsz) -> 0 < size < 2 ^ 32 -> (1 < ps -> size + bsz <= 2 ^ 32) ->
  0 <= bs -> size * bs < 2 ^ 32 ->
  (out_ + size <= in_ \/ in_ + size * bs <= out_) ->
  exists m',
    (let '(work_unit_size, work_units) := block_config ps bsz size in
     jitc_submit_cpu
       (fun index m =>
          let '(start, end_) := block_range work_unit_size size index in
          Ok (block_sum_T A in_ out_ start end_ bs m))
       work_units m) = Ok m'
    /\ (forall i, 0 <= i < size -> m' (out_ + i) = total A m (in_ + i * bs) (Z.to_nat bs))
    /\ (forall x, ~ (out_ <= x < out_ + size) -> m' x = m x).
Proof.
  intros Hcfg Hsize Hovf Hbs Hmul Hdis.
  destruct (PrefixSumFacts.block_geometry ps bsz size Hcfg Hsize Hovf)
    as (wus & blocks & -> & Hwus & Hlast & Hcover & Hmax & Hb1 & _).
  unfold jitc_submit_cpu.
  rewrite (submit_aux_ok _ (fun index m =>
                              block_sum_T A in_ out_ (fst (block_range wus size index))
                                          (snd (block_range wus size index)) bs m)).
  2:{ intros j s' _. destruct (block_range wus size j). reflexivity. }
  assert (Hbs' : 0 <= bs < 2 ^ 32) by nia.
  destruct (sum_units in_ out_ size bs wus blocks (Z.to_nat blocks) Hbs' ltac:(lia) Hmul
                      Hwus Hlast Hcover Hmax) with (k := 0) (m := m) as [H1 H2];
    try lia.
  eexists. split; [reflexivity|]. cbv zeta in *. split.
  - intros i Hi. apply H1; lia.
  - intros x Hx. apply H2. rewrite Z.mul_0_l, Z.min_l by lia. lia.
Qed.
End Sum.

Lemma total_modular w (m : mem Z) base n :
  0 <= w -> total (modular_arith w) m base n = rsum m base n mod 2 ^ w.
Proof.
  intros Hw. unfold total.
  assert (Hacc : 0 <= 0 < 2 ^ w) by (split; [lia|apply Z.pow_pos_nonneg; lia]).
  exact (PrefixSumFacts.accumulate_range w Hw m n base 0 Hacc).
Qed.

(** X17. On the host path, [jitc_block_sum] with a block size of at least
    two and a supported element type returns normally and stores in output
    cell [i] the sum of the [block_size] input cells of block [i],
    accumulated from zero in increasing order in the arithmetic of the type
    (for the integer types: the sum modulo [2^w]), whatever the number of
    workers; no cell outside the output is changed. The input and the
    output must not overlap, [size * block_size] must fit [uint32_t], and
    with several workers the worker block size [bsz] is at least two with
    [size + bsz <= 2^32]. *)
Theorem block_sum_totals :
  forall ps bsz tsz cpy cuda type A in_ out_ size block_size (m : mem (elt type)),
    cell_arith type = Some A ->
    (1 < ps -> 2 <= bsz) -> 0 < size < 2 ^ 32 -> (1 < ps -> size + bsz <= 2 ^ 32) ->
    2 <= block_size -> size * block_size < 2 ^ 32 ->
    (out_ + size <= in_ \/ in_ + size * block_size <= out_) ->
    (exists m',
        jitc_block_sum ps bsz tsz cpy cuda LLVM type in_ out_ size block_size m = Ok m'
        /\ (forall i, 0 <= i < size ->
                      m' (out_ + i)
                      = total A m (in_ + i * block_size) (Z.to_nat block_size))
        /\ (forall x, ~ (out_ <= x < out_ + size) -> m' x = m x))
    /\ (forall w (mz : mem Z) base n,
           0 <= w -> total (modular_arith w) mz base n = rsum mz base n mod 2 ^ w).
Proof.
  intros ps bsz tsz cpy cuda type A in_ out_ size block_size m HA Hcfg Hsize Hovf Hbs Hmul
         Hdis.
  split; [|intros w mz base n Hw; apply total_modular; exact Hw].
  unfold jitc_block_sum.
  destruct (Z.eqb_spec block_size 0) as [?|_]; [lia|].
  destruct (Z.eqb_spec block_size 1) as [?|_]; [lia|].
  destruct type; try discriminate HA; injection HA as <-; unfold block_sum_run;
    cbn [jitc_block_sum_create mbind outcome_bind obind];
    apply sum_run; assumption || lia.
Qed.

(** Two blocks of three Int32 values on one worker. *)
Lemma block_sum_totals_witness :
  exists m',
    jitc_block_sum 1 16384 Block.sizes no_memcpy Block.no_cuda LLVM Int32 0 8 2 3
                   (of_list 0 [1; 2; 3; 10; 20; 30]) = Ok m'
    /\ (forall i, 0 <= i < 2 ->
                  m' (8 + i) = total uint32_arith (of_list 0 [1; 2; 3; 10; 20; 30])
                                     (0 + i * 3) (Z.to_nat 3))
    /\ (forall x, ~ (8 <= x < 8 + 2) -> m' x = of_list 0 [1; 2; 3; 10; 20; 30] x).
Proof.
  refine (proj1 (block_sum_totals 1 16384 Block.sizes no_memcpy Block.no_cuda Int32
                                  uint32_arith 0 8 2 3 (of_list 0 [1; 2; 3; 10; 20; 30])
                                  _ _ _ _ _ _ _)).
  - reflexivity.
  - intros H. lia.
  - split; [lia|reflexivity].
  - intros H. lia.
  - lia.
  - reflexivity.
  - right. lia.
Defined.

Lemma rsum_const (a : Z -> Z) c n :
  forall base, (forall j, base <= j < base + Z.of_nat n -> a j = c) ->
               rsum a base n = Z.of_nat n * c.
Proof.
  induction n as [|n IH]; intros base H; cbn [rsum]; [lia|].
  rewrite H by lia. rewrite IH by (intros j Hj; apply H; lia). lia.
Qed.

(** X18. Summing the blocks of a replicated array multiplies it: on the
    host path, when [size * k] fits [uint32_t], [jitc_block_copy]
    replicates each of [size > 0] UInt32 values [k >= 2] times into a
    buffer that overlaps neither the input nor the final output and
    [jitc_block_sum] then sums the blocks of [k] cells, output cell [i]
    holds [k] times input [i] modulo [2^32]; with several workers the
    worker block size [bsz] is at least two and [size + bsz <= 2^32]. *)
Theorem block_sum_of_copy :
  forall ps bsz tsz cpy cuda cuda' in_ mid out_ size k (m : mem Z),
    (1 < ps -> 2 <= bsz) -> 0 < size < 2 ^ 32 -> (1 < ps -> size + bsz <= 2 ^ 32) ->
    2 <= k -> size * k < 2 ^ 32 ->
    (in_ + size <= mid \/ mid + size * k <= in_) ->
    (out_ + size <= mid \/ mid + size * k <= out_) ->
    exists m1 m2,
      jitc_block_copy ps bsz tsz cpy cuda LLVM UInt32 in_ mid size k m = Ok m1
      /\ jitc_block_sum ps bsz tsz cpy cuda' LLVM UInt32 mid out_ size k m1 = Ok m2
      /\ forall i, 0 <= i < size -> m2 (out_ + i) = (k * m (in_ + i)) mod 2 ^ 32.
Proof.
  intros ps bsz tsz cpy cuda cuda' in_ mid out_ size k m Hcfg Hsize Hovf Hk Hmul Hd1 Hd2.
  unfold jitc_block_copy, jitc_block_sum.
  destruct (Z.eqb_spec k 0) as [?|_]; [lia|].
  destruct (Z.eqb_spec k 1) as [?|_]; [lia|].
  unfold block_copy_run, block_sum_run.
  cbn [jitc_block_copy_create jitc_block_sum_create mbind outcome_bind obind].
  destruct (BlockFacts.copy_run ps bsz in_ mid size k m Hcfg Hsize Hovf ltac:(lia) Hmul Hd1)
    as (m1 & Hrun1 & Hcopy & _).
  destruct (sum_run uint32_arith ps bsz mid out_ size k m1 Hcfg Hsize Hovf ltac:(lia) Hmul Hd2)
    as (m2 & Hrun2 & Hsum & _).
  exists m1, m2. split; [exact Hrun1|]. split; [exact Hrun2|].
  intros i Hi. rewrite Hsum by exact Hi.
  unfold uint32_arith. rewrite total_modular by lia.
  rewrite (rsum_const m1 (m (in_ + i))).
  - rewrite Z2Nat.id by lia. reflexivity.
  - intros j Hj. rewrite Z2Nat.id in Hj by lia.
    replace j with (mid + i * k + (j - (mid + i * k))) by lia. apply Hcopy; lia.
Qed.

(** The values [5, 6] replicated three times and summed again. *)
Lemma block_sum_of_copy_witness :
  exists m1 m2,
    jitc_block_copy 1 16384 Block.sizes no_memcpy Block.no_cuda LLVM UInt32 0 8 2 3
                    (of_list 0 [5; 6]) = Ok m1
    /\ jitc_block_sum 1 16384 Block.sizes no_memcpy Block.no_cuda LLVM UInt32 8 20 2 3 m1
       = Ok m2
    /\ forall i, 0 <= i < 2 -> m2 (20 + i) = (3 * of_list 0 [5; 6] (0 + i)) mod 2 ^ 32.
Proof.
  apply (block_sum_of_copy 1 16384 Block.sizes no_memcpy Block.no_cuda Block.no_cuda
                           0 8 20 2 3 (of_list 0 [5; 6])).
  - intros H. lia.
  - split; [lia|reflexivity].
  - intros H. lia.
  - lia.
  - reflexivity.
  - left. lia.
  - right. lia.
Defined.

End BlockSumFacts.

Module ExpandedFacts.
Import Reduce ReduceKinds ReduceExpanded.

Section Kernel.
Variable op : Z -> Z -> Z.
Variables size exp : Z.
Hypothesis Hsize : 0 < size.
Hypothesis Hexp : 0 <= exp.
Hypothesis Hmul : exp * size < 2 ^ 32.
Hypothesis Hmax : size + block < 2 ^ 32.

Lemma stripes_ext (m m' : mem Z) c :
  0 <= c < size ->
  m' c = m c -> (forall x, size <= x -> m' x = m x) ->
  stripes op m' size exp c = stripes op m size exp c.
Proof.
  intros Hc H0 H. unfold stripes. rewrite H0. apply iter_up_ext.
  intros j r Hj. rewrite H by nia. reflexivity.
Qed.

(** The loop over the stripes for one element. *)
Lemma cell_loop c n :
  0 <= c < size ->
  forall j0 (m : mem Z),
    1 <= j0 ->
    let r := iter_up n j0 (fun j m => upd m c (op (m c) (m (c + j * size)))) m in
    r c = iter_up n j0 (fun j r => op r (m (c + j * size))) (m c)
    /\ (forall x, x <> c -> r x = m x).
Proof.
  intros Hc. induction n as [|n IH]; intros j0 m Hj0; cbn [iter_up].
  - split; reflexivity.
  - destruct (IH (j0 + 1) (upd m c (op (m c) (m (c + j0 * size)))) ltac:(lia)) as [H1 H2].
    cbv zeta in *. split.
    + rewrite H1. unfold upd at 2. rewrite Z.eqb_refl. apply iter_up_ext.
      intros j r Hj. unfold upd. destruct (Z.eqb_spec (c + j * size) c); [nia|reflexivity].
    + intros x Hx. rewrite H2 by exact Hx. unfold upd.
      destruct (Z.eqb_spec x c); [contradiction|reflexivity].
Qed.

(** One stripe folded into the elements [i + k0 .. i + k0 + n). *)
Lemma stripe_loop i j n :
  1 <= j -> 0 <= i ->
  forall k0 (m : mem Z),
    0 <= k0 -> i + k0 + Z.of_nat n <= size ->
    let r := iter_up n k0
               (fun k m => upd m (i + k) (op (m (i + k)) (m (i + k + j * size)))) m in
    (forall c, i + k0 <= c < i + k0 + Z.of_nat n -> r c = op (m c) (m (c + j * size)))
    /\ (forall x, ~ (i + k0 <= x < i + k0 + Z.of_nat n) -> r x = m x).
Proof.
  intros Hj Hi. induction n as [|n IH]; intros k0 m Hk0 Hle; cbn [iter_up].
  - split; [intros c Hc; lia|reflexivity].
  - set (m1 := upd m (i + k0) (op (m (i + k0)) (m (i + k0 + j * size)))).
    assert (Hm1 : forall x, x <> i + k0 -> m1 x = m x).
    { intros x Hx. subst m1. unfold upd. destruct (Z.eqb_spec x (i + k0)); congruence. }
    destruct (IH (k0 + 1) m1 ltac:(lia) ltac:(lia)) as [H1 H2]. cbv zeta in *. split.
    + intros c Hc. destruct (Z.eq_dec c (i + k0)) as [->|Hne].
      * rewrite H2 by lia. subst m1. unfold upd. rewrite Z.eqb_refl. reflexivity.
      * rewrite H1 by lia. rewrite !Hm1 by nia. reflexivity.
    + intros x Hx. rewrite H2 by lia. apply Hm1. lia.
Qed.

(** All stripes folded into the elements of one block. *)
Lemma block_fold i len n :
  0 <= i -> 0 <= len -> i + len <= size ->
  forall j0 (m : mem Z),
    1 <= j0 ->
    let r := iter_up n j0
               (fun j m =>
                  iter_up (Z.to_nat len) 0
                    (fun k m => upd m (i + k) (op (m (i + k)) (m (i + k + j * size)))) m) m in
    (forall c, i <= c < i + len ->
               r c = iter_up n j0 (fun j r => op r (m (c + j * size))) (m c))
    /\ (forall x, ~ (i <= x < i + len) -> r x = m x).
Proof.
  intros Hi Hlen Hle. induction n as [|n IH]; intros j0 m Hj0; cbn [iter_up].
  - split; reflexivity.
  - destruct (stripe_loop i j0 (Z.to_nat len) ltac:(lia) Hi 0 m ltac:(lia) ltac:(lia))
      as [H1 H2]. cbv zeta in H1, H2.
    set (m1 := iter_up (Z.to_nat len) 0 _ m) in *.
    destruct (IH (j0 + 1) m1 ltac:(lia)) as [H3 H4]. cbv zeta in *. split.
    + intros c Hc. rewrite H3 by exact Hc. rewrite H1 by lia.
      apply iter_up_ext. intros j r Hj. rewrite H2 by nia. reflexivity.
    + intros x Hx. rewrite H4 by exact Hx. apply H2. lia.
Qed.


Lemma block_body i (m : mem Z) :
  0 <= i -> i + block <= size ->
  let r := for_lt 1 exp
             (fun j m =>
                for_lt 0 block
                  (fun k m =>
                     upd m (u32 (i + k))
                         (op (m (u32 (i + k))) (m (u32 (u32 (i + k) + u32 (j * size))))))
                  m)
             m in
  (forall c, i <= c < i + block -> r c = stripes op m size exp c)
  /\ (forall x, ~ (i <= x < i + block) -> r x = m x).
Proof.
  intros Hi Hle. unfold for_lt. rewrite Z.sub_0_r.
  assert (Hb : block = 128) by reflexivity.
  rewrite (iter_up_ext _ (fun j m =>
                            iter_up (Z.to_nat block) 0
                              (fun k m => upd m (i + k) (op (m (i + k)) (m (i + k + j * size))))
                              m)).
  2:{ intros j s Hj. apply iter_up_ext. intros k s' Hk.
      assert (0 <= j * size /\ j * size <= (exp - 1) * size) by nia.
      rewrite (u32_small (i + k)) by lia32. rewrite (u32_small (j * size)) by nia.
      rewrite (u32_small (i + k + j * size)) by nia. reflexivity. }
  destruct (block_fold i block (Z.to_nat (exp - 1)) Hi ltac:(lia) Hle 1 m ltac:(lia))
    as [H1 H2].
  cbv zeta in *. split; [|exact H2]. intros c Hc. rewrite H1 by exact Hc. reflexivity.
Qed.

Lemma block_loop_spec end_ nb :
  end_ <= size ->
  forall fuel i (m : mem Z),
    0 <= i -> i + Z.of_nat nb * block <= end_ < i + (Z.of_nat nb + 1) * block ->
    (nb < fuel)%nat ->
    exists m',
      block_loop op fuel i end_ exp size m = Some (i + Z.of_nat nb * block, m')
      /\ (forall c, i <= c < i + Z.of_nat nb * block -> m' c = stripes op m size exp c)
      /\ (forall x, ~ (i <= x < i + Z.of_nat nb * block) -> m' x = m x).
Proof.
  intros Hend. assert (Hb : block = 128) by reflexivity.
  induction nb as [|nb IH]; intros fuel i m Hi Hrange Hfuel;
    (destruct fuel as [|fuel]; [lia|]); cbn [block_loop].
  - rewrite u32_small by lia32.
    destruct (Z.leb_spec (i + block) end_) as [Hle|_]; [lia|].
    exists m. split; [f_equal; f_equal; lia|]. split; [intros c Hc; lia|reflexivity].
  - rewrite u32_small by lia32.
    destruct (Z.leb_spec (i + block) end_) as [_|Hgt]; [|lia].
    destruct (block_body i m Hi ltac:(lia)) as [H1 H2]. cbv zeta in H1, H2.
    match goal with |- context [block_loop op fuel _ _ _ _ ?x] => set (m1 := x) in * end.
    destruct (IH fuel (i + block) m1 ltac:(lia) ltac:(lia) ltac:(lia)) as (m' & Hrun & H3 & H4).
    exists m'. split; [rewrite Hrun; f_equal; f_equal; lia|]. split.
    + intros c Hc. destruct (Z_lt_le_dec c (i + block)) as [Hlt|Hge].
      * rewrite H4 by lia. apply H1. lia.
      * rewrite H3 by lia. apply stripes_ext; [lia|apply H2; lia|].
        intros x Hx. apply H2. lia.
    + intros x Hx. rewrite H4 by lia. apply H2. lia.
Qed.

Lemma tail_loop_spec end_ n :
  end_ <= size ->
  forall i (m : mem Z),
    0 <= i -> i + Z.of_nat n = end_ ->
    let r := iter_up n i
               (fun i m =>
                  for_lt 1 exp
                    (fun j m => upd m i (op (m i) (m (u32 (i + u32 (j * size)))))) m) m in
    (forall c, i <= c < end_ -> r c = stripes op m size exp c)
    /\ (forall x, ~ (i <= x < end_) -> r x = m x).
Proof.
  intros Hend. induction n as [|n IH]; intros i m Hi Hn; cbn [iter_up].
  - split; [intros c Hc; lia|reflexivity].
  - assert (Hcell : let m1 := for_lt 1 exp
                                (fun j m => upd m i (op (m i) (m (u32 (i + u32 (j * size))))))
                                m in
                    m1 i = stripes op m size exp i /\ forall x, x <> i -> m1 x = m x).
    { unfold for_lt.
      rewrite (iter_up_ext _ (fun j m => upd m i (op (m i) (m (i + j * size))))).
      2:{ intros j s Hj.
          assert (0 <= j * size /\ j * size <= (exp - 1) * size) by nia.
          rewrite (u32_small (j * size)) by nia. rewrite (u32_small (i + j * size)) by nia.
          reflexivity. }
      exact (cell_loop i (Z.to_nat (exp - 1)) ltac:(lia) 1 m ltac:(lia)). }
    cbv zeta in Hcell. destruct Hcell as [H1 H2].
    match goal with |- context [iter_up n (i + 1) _ ?x] => set (m1 := x) in * end.
    destruct (IH (i + 1) m1 ltac:(lia) ltac:(lia)) as [H3 H4]. cbv zeta in *. split.
    + intros c Hc. destruct (Z.eq_dec c i) as [->|Hne].
      * rewrite H4 by lia. exact H1.
      * rewrite H3 by lia. apply stripes_ext; [lia|apply H2; lia|].
        intros x Hx. apply H2. lia.
    + intros x Hx. rewrite H4 by lia. apply H2. lia.
Qed.

(** [jitc_reduce_expanded_impl] on the elements [start .. end): with fuel
    for its blocks it returns, every element of the range holds the fold of
    its stripes, and nothing else changes. *)
Lemma impl_spec fuel start end_ (m : mem Z) :
  0 <= start <= end_ -> end_ <= size -> (end_ - start) / block < Z.of_nat fuel ->
  exists m',
    jitc_reduce_expanded_impl op fuel start end_ exp size m = Ok m'
    /\ (forall c, start <= c < end_ -> m' c = stripes op m size exp c)
    /\ (forall x, ~ (start <= x < end_) -> m' x = m x).
Proof.
  intros Hrange Hend Hfuel. assert (Hb : block = 128) by reflexivity.
  unfold jitc_reduce_expanded_impl.
  set (nb := (end_ - start) / block) in *.
  assert (Hnb : 0 <= nb) by (apply Z.div_pos; lia).
  assert (Hdiv : nb * block <= end_ - start < (nb + 1) * block).
  { pose proof (Z.mul_div_le (end_ - start) block ltac:(lia)).
    pose proof (Z.mul_succ_div_gt (end_ - start) block ltac:(lia)). subst nb. lia. }
  destruct (block_loop_spec end_ (Z.to_nat nb) Hend fuel start m ltac:(lia)
                            ltac:(rewrite Z2Nat.id by lia; lia) ltac:(lia))
    as (m1 & -> & H1 & H2).
  rewrite Z2Nat.id in H1, H2 |- * by lia.
  unfold tail_loop, for_lt at 1.
  destruct (tail_loop_spec end_ (Z.to_nat (end_ - (start + nb * block))) Hend
                           (start + nb * block) m1 ltac:(lia) ltac:(lia)) as [H3 H4].
  cbv zeta in H3, H4. eexists. split; [reflexivity|]. split.
  - intros c Hc. destruct (Z_lt_le_dec c (start + nb * block)) as [Hlt|Hge].
    + rewrite H4 by lia. apply H1. lia.
    + rewrite H3 by lia. apply stripes_ext; [lia|apply H2; lia|].
      intros x Hx. apply H2. lia.
  - intros x Hx. rewrite H4 by lia. apply H2. lia.
Qed.

Lemma expanded_units fuel bsz blocks n :
  0 < bsz -> (blocks - 1) * bsz < size -> size <= blocks * bsz -> blocks * bsz < 2 ^ 32 ->
  size / block < Z.of_nat fuel ->
  forall k (m : mem Z),
    0 <= k -> k + Z.of_nat n = blocks ->
    exists m',
      submit_aux n k
        (fun index m =>
           jitc_reduce_expanded_impl op fuel (u32 (index * bsz))
                                     (Z.min (u32 ((index + 1) * bsz)) size) exp size m) m
      = Ok m'
      /\ (forall c, Z.min (k * bsz) size <= c < size -> m' c = stripes op m size exp c)
      /\ (forall x, ~ (Z.min (k * bsz) size <= x < size) -> m' x = m x).
Proof.
  intros Hbsz Hlast Hcover Hmaxb Hfuel. assert (Hb : block = 128) by reflexivity.
  induction n as [|n IH]; intros k m Hk Hn; cbn [submit_aux].
  - exists m. split; [reflexivity|]. split; [intros c Hc; nia|reflexivity].
  - assert (Hk1 : k * bsz < size) by nia.
    assert (Hk2 : (k + 1) * bsz <= blocks * bsz) by nia.
    rewrite (u32_small (k * bsz)) by nia. rewrite (u32_small ((k + 1) * bsz)) by nia.
    set (e := Z.min ((k + 1) * bsz) size).
    assert (He : k * bsz < e <= size) by (subst e; nia).
    destruct (impl_spec fuel (k * bsz) e m) as (m1 & -> & H1 & H2); try lia.
    { apply Z.le_lt_trans with (size / block); [|exact Hfuel].
      apply Z.div_le_mono; [lia|]. nia. }
    cbn [mbind outcome_bind obind].
    destruct (IH (k + 1) m1 ltac:(lia) ltac:(lia)) as (m' & Hrun & H3 & H4).
    fold e in H3, H4. rewrite (Z.min_l (k * bsz) size) by lia.
    exists m'. split; [exact Hrun|]. split.
    + intros c Hc. destruct (Z_lt_le_dec c e) as [Hlt|Hge].
      * rewrite H4 by lia. apply H1. lia.
      * rewrite H3 by lia. apply stripes_ext; [lia|apply H2; lia|].
        intros x Hx. apply H2. lia.
    + intros x Hx. rewrite H4 by lia. apply H2. lia.
Qed.
End Kernel.

(** X19. [jitc_reduce_expanded] folds the [exp] stripes of an array of
    [size] elements into the first one: for a type and an operation it
    supports, and with [exp * size] within [uint32_t], it returns normally,
    element [c < size] holds [op (... op (op (ptr[c], ptr[c + size]),
    ptr[c + 2 size]) ..., ptr[c + (exp - 1) size])], and no other cell
    changes: neither the blocks of 128 elements nor the number of workers
    alter the result. The size is positive with [size + 128 < 2^32], and
    with several workers the worker block size [bs] is at least two with
    [size + bs <= 2^32]. *)
Theorem reduce_expanded_folds :
  forall fo ps bs fuel vt rop f exp size (m : mem Z),
    jitc_reduce_expanded_create fo vt rop = Ok f ->
    (1 < ps -> 2 <= bs) -> 0 < size -> (1 < ps -> size + bs <= 2 ^ 32) ->
    0 <= exp -> exp * size < 2 ^ 32 -> size + 128 < 2 ^ 32 ->
    size / 128 < Z.of_nat fuel ->
    exists m',
      jitc_reduce_expanded fo ps bs fuel vt rop exp size m = Ok m'
      /\ (forall c, 0 <= c < size -> m' c = stripes f m size exp c)
      /\ (forall x, ~ (0 <= x < size) -> m' x = m x).
Proof.
  intros fo ps bs fuel vt rop f exp size m Hf Hcfg Hsize Hovf Hexp Hmul Hmax Hfuel.
  unfold jitc_reduce_expanded. rewrite Hf. cbn [mbind outcome_bind obind].
  destruct (PrefixSumFacts.block_geometry ps bs size Hcfg ltac:(lia32) Hovf)
    as (bsz & blocks & -> & Hbsz & Hlast & Hcover & Hmaxb & Hb1 & _).
  unfold jitc_submit_cpu. rewrite Z.max_r by lia.
  destruct (expanded_units f size exp Hsize Hexp Hmul Hmax fuel bsz blocks (Z.to_nat blocks)
                           Hbsz Hlast Hcover Hmaxb Hfuel 0 m ltac:(lia) ltac:(lia))
    as (m' & Hrun & H1 & H2).
  rewrite Z.mul_0_l, Z.min_l in H1, H2 by lia.
  exists m'. split; [exact Hrun|]. split; [exact H1|exact H2].
Qed.

(** Three stripes of two UInt32 elements, summed. *)
Lemma reduce_expanded_folds_witness :
  exists m',
    jitc_reduce_expanded no_float_op 1 16384 1 UInt32 Add 3 2
                         (PrefixSum.of_list 0 [1; 2; 10; 20; 100; 200]) = Ok m'
    /\ (forall c, 0 <= c < 2 ->
                  m' c = stripes (fun a b => (a + b) mod 2 ^ 32)
                                 (PrefixSum.of_list 0 [1; 2; 10; 20; 100; 200]) 2 3 c)
    /\ (forall x, ~ (0 <= x < 2) -> m' x = PrefixSum.of_list 0 [1; 2; 10; 20; 100; 200] x).
Proof.
  apply (reduce_expanded_folds no_float_op 1 16384 1%nat UInt32 Add).
  - reflexivity.
  - intros H. lia.
  - lia.
  - intros H. lia.
  - lia.
  - reflexivity.
  - reflexivity.
  - reflexivity.
Defined.

End ExpandedFacts.

Module LaunchFacts.
Import LaunchLLVM.

Lemma unpack_pack bs size :
  0 <= bs < 2 ^ 32 -> 0 <= size < 2 ^ 32 -> unpack (pack bs size) = (bs, size).
Proof.
  intros Hbs Hsize. unfold pack, unpack, u64, u32.
  rewrite Z.shiftl_mul_pow2 by lia.
  assert (H64 : 2 ^ 64 = 2 ^ 32 * 2 ^ 32) by reflexivity.
  assert (H32 : 0 < 2 ^ 32) by reflexivity.
  rewrite (Z.mod_small (bs * 2 ^ 32)) by nia.
  rewrite (Z.mod_small (bs * 2 ^ 32 + size)) by nia.
  rewrite Z.shiftr_div_pow2 by lia. f_equal.
  - rewrite Z.div_add_l by lia. rewrite (Z.div_small size) by lia.
    rewrite Z.add_0_r. apply Z.mod_small. lia.
  - rewrite Z.add_comm, Z.mod_add by lia. apply Z.mod_small. lia.
Qed.

(** X20. The LLVM launch of [jitc_run] hands the kernel exactly the ranges
    of a tiling: the callback decodes the block size and the size that the
    launcher packed into one pointer, work unit [k] runs the kernel on
    [k * block_size, min ((k + 1) * block_size, size)), these ranges are
    not empty, and together they cover [0, size): element [i] belongs to
    unit [i / block_size] and to no other. *)
Theorem llvm_launch_tiles :
  forall bs size,
    0 < bs < 2 ^ 32 -> 0 <= size -> size + bs <= 2 ^ 32 ->
    unpack (pack bs size) = (bs, size)
    /\ Z.of_nat (length (launch_ranges bs size)) = (size + bs - 1) / bs
    /\ (forall k, 0 <= k < (size + bs - 1) / bs ->
                  nth_error (launch_ranges bs size) (Z.to_nat k)
                  = Some (k * bs, Z.min (k * bs + bs) size)
                  /\ k * bs < size)
    /\ (forall i, 0 <= i < size ->
                  0 <= i / bs < (size + bs - 1) / bs
                  /\ (forall k, 0 <= k -> k * bs <= i < Z.min (k * bs + bs) size -> k = i / bs)
                  /\ (i / bs) * bs <= i < Z.min ((i / bs) * bs + bs) size).
Proof.
  intros bs size Hbs Hsize Hovf.
  assert (Hup : unpack (pack bs size) = (bs, size)) by (apply unpack_pack; lia32).
  set (blocks := (size + bs - 1) / bs).
  assert (Hblocks : blocks * bs <= size + bs - 1 < (blocks + 1) * bs).
  { pose proof (Z.mul_div_le (size + bs - 1) bs ltac:(lia)).
    pose proof (Z.mul_succ_div_gt (size + bs - 1) bs ltac:(lia)). subst blocks. lia. }
  assert (Hb0 : 0 <= blocks) by (apply Z.div_pos; lia).
  split; [exact Hup|]. split.
  { unfold launch_ranges. rewrite length_map, length_seq.
    rewrite u32_small by lia32. fold blocks. lia. }
  split.
  - intros k Hk. assert (Hkb : k * bs < size) by nia. split; [|exact Hkb].
    unfold launch_ranges. rewrite u32_small by lia32. fold blocks.
    rewrite nth_error_map, nth_error_seq.
    destruct (Nat.ltb_spec (Z.to_nat k) (Z.to_nat blocks)) as [_|?]; [|lia].
    cbn [option_map Nat.add]. rewrite Z2Nat.id by lia.
    unfold callback. rewrite Hup. rewrite (u32_small (k * bs)) by nia.
    rewrite u32_small by nia. reflexivity.
  - intros i Hi.
    pose proof (Z.mul_div_le i bs ltac:(lia)) as H1.
    pose proof (Z.mul_succ_div_gt i bs ltac:(lia)) as H2.
    assert (H0 : 0 <= i / bs) by (apply Z.div_pos; lia).
    split; [split; [exact H0|]; nia|]. split; [|lia].
    intros k Hk Hki. nia.
Qed.

(** Ten elements in blocks of four. *)
Lemma llvm_launch_tiles_witness :
  unpack (pack 4 10) = (4, 10) /\ launch_ranges 4 10 = [(0, 4); (4, 8); (8, 10)].
Proof.
  destruct (llvm_launch_tiles 4 10 ltac:(lia32) ltac:(lia) ltac:(lia32)) as (Hup & _).
  split; [exact Hup|reflexivity].
Defined.

End LaunchFacts.

Module GlobalsFacts.
Import Globals.

Section Table.
Variable XXH128 : string -> Z.

Lemma indexed_cleared : indexed XXH128 cleared.
Proof.
  unfold indexed, cleared. cbn [globals globals_map]. split; [apply map_size_empty|].
  split.
  - intros k s H. destruct k; discriminate H.
  - intros h v H. rewrite lookup_empty in H. discriminate H.
Qed.

Lemma register_indexed str st :
  Z.of_nat (length (globals st)) < 2 ^ 32 ->
  indexed XXH128 st -> indexed XXH128 (jitc_register_global XXH128 str st).
Proof.
  intros Hlen (Hsize & Hfwd & Hbwd). unfold jitc_register_global.
  destruct (globals_map st !! XXH128 str) as [v|] eqn:E; [repeat split; assumption|].
  unfold indexed. cbn [globals globals_map]. rewrite Hsize, u32_small by lia.
  split; [rewrite map_size_insert_None by exact E; rewrite length_app, Hsize; cbn; lia|].
  split.
  - intros k s Hk.
    destruct (Nat.lt_ge_cases k (length (globals st))) as [Hlt|Hge].
    + rewrite nth_error_app1 in Hk by exact Hlt.
      pose proof (Hfwd k s Hk) as Hm.
      rewrite lookup_insert_ne; [exact Hm|]. intros Heq. rewrite <- Heq, E in Hm. discriminate Hm.
    + rewrite nth_error_app2 in Hk by exact Hge.
      destruct (k - length (globals st))%nat as [|d] eqn:Ed; [|destruct d; discriminate Hk].
      injection Hk as <-. assert (k = length (globals st)) as -> by lia.
      apply lookup_insert_eq.
  - intros h v Hv. destruct (Z.eq_dec h (XXH128 str)) as [->|Hne].
    + rewrite lookup_insert_eq in Hv. injection Hv as <-.
      exists (length (globals st)), str. split; [reflexivity|]. split; [|reflexivity].
      rewrite nth_error_app2 by lia. rewrite Nat.sub_diag. reflexivity.
    + rewrite lookup_insert_ne in Hv by congruence.
      destruct (Hbwd h v Hv) as (k & s & -> & Hk & Hs). exists k, s.
      split; [reflexivity|]. split; [|exact Hs].
      rewrite nth_error_app1; [exact Hk|]. apply nth_error_Some. rewrite Hk. discriminate.
Qed.

Lemma register_length str st :
  (length (globals (jitc_register_global XXH128 str st)) <= S (length (globals st)))%nat.
Proof.
  unfold jitc_register_global. destruct (globals_map st !! XXH128 str); cbn [globals].
  - lia.
  - rewrite length_app. cbn. lia.
Qed.

Lemma register_all_spec strs :
  forall st,
    Z.of_nat (length (globals st)) + Z.of_nat (length strs) < 2 ^ 32 ->
    indexed XXH128 st ->
    indexed XXH128 (register_all XXH128 strs st)
    /\ (forall h, is_Some (globals_map st !! h) ->
                  is_Some (globals_map (register_all XXH128 strs st) !! h))
    /\ (forall s, In s strs ->
                  is_Some (globals_map (register_all XXH128 strs st) !! XXH128 s)).
Proof.
  induction strs as [|str strs IH]; intros st Hlen Hst; cbn [register_all fold_left].
  - split; [exact Hst|]. split; [auto|]. intros s [].
  - fold (register_all XXH128 strs (jitc_register_global XXH128 str st)).
    pose proof (register_length str st) as Hl. cbn [length] in Hlen.
    destruct (IH (jitc_register_global XXH128 str st) ltac:(lia)
                 (register_indexed str st ltac:(lia) Hst)) as (H1 & H2 & H3).
    assert (Hstep : forall h, is_Some (globals_map st !! h) \/ h = XXH128 str ->
                              is_Some (globals_map (jitc_register_global XXH128 str st) !! h)).
    { intros h Hh. unfold jitc_register_global.
      destruct (globals_map st !! XXH128 str) as [v|] eqn:E.
      - destruct Hh as [Hh| ->]; [exact Hh|]. rewrite E. eexists. reflexivity.
      - cbn [globals_map]. destruct (Z.eq_dec h (XXH128 str)) as [->|Hne].
        + rewrite lookup_insert_eq. eexists. reflexivity.
        + rewrite lookup_insert_ne by congruence. destruct Hh as [Hh|Hh]; [exact Hh|congruence]. }
    split; [exact H1|]. split.
    + intros h Hh. apply H2, Hstep. left. exact Hh.
    + intros s [<-|Hs]; [apply H2, Hstep; right; reflexivity|apply H3; exact Hs].
Qed.
End Table.

(** X21. After any sequence of [jitc_register_global] calls on the cleared
    tables, [globals_map] maps the hash of every string of [globals] to
    the position of that string and holds nothing else, so no two strings
    of [globals] have the same hash; the hash of every registered string
    is in the map; and registering one of them again changes nothing. A
    string whose hash is already present is therefore dropped, even when it
    differs from the one stored. *)
Theorem globals_indexed_by_hash :
  forall (XXH128 : string -> Z) strs,
    Z.of_nat (length strs) < 2 ^ 32 ->
    let st := register_all XXH128 strs cleared in
    indexed XXH128 st
    /\ List.NoDup (List.map XXH128 (globals st))
    /\ (forall s, In s strs ->
                  is_Some (globals_map st !! XXH128 s)
                  /\ jitc_register_global XXH128 s st = st).
Proof.
  intros XXH128 strs Hlen st.
  destruct (register_all_spec XXH128 strs cleared ltac:(cbn; lia) (indexed_cleared XXH128))
    as (Hidx & _ & Hall).
  fold st in Hidx, Hall. split; [exact Hidx|]. split.
  - destruct Hidx as (_ & Hfwd & _).
    apply NoDup_nth_error. intros i j Hi Hij.
    rewrite length_map in Hi.
    destruct (nth_error (globals st) i) as [s|] eqn:Es;
      [|apply nth_error_None in Es; lia].
    rewrite !nth_error_map, Es in Hij. cbn [option_map] in Hij.
    destruct (nth_error (globals st) j) as [s'|] eqn:Es'; [|discriminate Hij].
    cbn [option_map] in Hij. injection Hij as Hh.
    pose proof (Hfwd i s Es) as H1. pose proof (Hfwd j s' Es') as H2.
    rewrite Hh, H2 in H1. injection H1 as H1. lia.
  - intros s Hs. pose proof (Hall s Hs) as Hsome. split; [exact Hsome|].
    unfold jitc_register_global. destruct Hsome as [v ->]. reflexivity.
Qed.

(** Three strings, two of which have the same hash. *)
Lemma globals_indexed_by_hash_witness :
  globals (register_all length_hash ["ab"; "c"; "de"]%string cleared) = ["ab"; "c"]%string
  /\ List.NoDup (List.map length_hash (globals (register_all length_hash ["ab"; "c"; "de"]%string
                                                             cleared))).
Proof.
  destruct (globals_indexed_by_hash length_hash ["ab"; "c"; "de"]%string ltac:(cbn; lia))
    as (_ & Hnd & _).
  split; [reflexivity|exact Hnd].
Defined.

End GlobalsFacts.
